(** * The active-set QP solver of casadi/solvers/conic_activeset.cpp

    A shallow embedding of the kernels [casadi_qp_*] and of the driver
    [ConicActiveSet::eval], followed by the properties of the specification
    that were checked against them.

    The kernels are templates over the scalar type [T1]; they are embedded
    over a type class [Scalar], whose instance is IEEE binary64 (the
    instantiation [casadi_qp_mem<double>] that [eval] uses).  Arrays are lists, read with a default outside their range and
    left unchanged by a write outside their range (the C code has undefined
    behaviour there).  The struct [casadi_qp_mem] is a record that every kernel
    takes and returns. *)

From Stdlib Require Import ZArith Floats List Bool Lia.
From stdpp Require Import base list.
Import ListNotations.

Set Default Goal Selector "!".

(** ** Scalars: the template parameter [T1] *)

Declare Scope sc_scope.
Delimit Scope sc_scope with sc.

Class Scalar (T : Type) : Type := {
  Szero : T;                      (* 0.    *)
  Sone : T;                       (* 1.    *)
  Stwo : T;                       (* 2.    *)
  S1em12 : T;                     (* 1e-12 *)
  S1em14 : T;                     (* 1e-14 *)
  S1em16 : T;                     (* 1e-16 *)
  Sadd : T -> T -> T;
  Ssub : T -> T -> T;
  Smul : T -> T -> T;
  Sdiv : T -> T -> T;
  Sopp : T -> T;
  Seqb : T -> T -> bool;          (* x == y *)
  Sltb : T -> T -> bool;          (* x < y  *)
  Sleb : T -> T -> bool;          (* x <= y *)
  fabs : T -> T
}.

(** Scalars that also hold the constant [inf] of the framework. *)
Class ScalarInf (T : Type) `{Scalar T} : Type := {
  casadi_inf : T
}.

Notation "0" := Szero : sc_scope.
Notation "1" := Sone : sc_scope.
Infix "+" := Sadd : sc_scope.
Infix "-" := Ssub : sc_scope.
Infix "*" := Smul : sc_scope.
Infix "/" := Sdiv : sc_scope.
Notation "- x" := (Sopp x) : sc_scope.
Notation "x == y" := (Seqb x y) (at level 70, no associativity) : sc_scope.
Notation "x != y" := (negb (Seqb x y)) (at level 70, no associativity) : sc_scope.
Notation "x <? y" := (Sltb x y) (at level 70, no associativity) : sc_scope.
Notation "x >? y" := (Sltb y x) (at level 70, no associativity) : sc_scope.
Notation "x <=? y" := (Sleb x y) (at level 70, no associativity) : sc_scope.
Notation "x >=? y" := (Sleb y x) (at level 70, no associativity) : sc_scope.

Section ScalarOps.
Context {T : Type} `{Scalar T}.
Local Open Scope sc_scope.

(** [x != x] holds exactly for a NaN. *)
Definition isnan (x : T) : bool := x != x.

(** Modelled from the spec: the C library's [fmax] and [fmin], missing from
    the sources: the larger (smaller) argument, a NaN counting as absent. *)
Definition fmax (x y : T) : T :=
  if isnan x then y else if isnan y then x else if x <? y then y else x.

Definition fmin (x y : T) : T :=
  if isnan x then y else if isnan y then x else if y <? x then y else x.
End ScalarOps.

(** *** IEEE binary64, the type [double] *)

Definition double : Type := float.

#[export] Instance double_Scalar : Scalar double := {|
  Szero := 0%float;
  Sone := 1%float;
  Stwo := 2%float;
  S1em12 := 0x1.19799812dea11p-40%float;
  S1em14 := 0x1.6849b86a12b9bp-47%float;
  S1em16 := 0x1.cd2b297d889bcp-54%float;
  Sadd := PrimFloat.add;
  Ssub := PrimFloat.sub;
  Smul := PrimFloat.mul;
  Sdiv := PrimFloat.div;
  Sopp := PrimFloat.opp;
  Seqb := PrimFloat.eqb;
  Sltb := PrimFloat.ltb;
  Sleb := PrimFloat.leb;
  fabs := PrimFloat.abs
|}.

#[export] Instance double_ScalarInf : ScalarInf double := {|
  casadi_inf := infinity
|}.

(** [std::numeric_limits<double>::min()], the smallest positive normal number. *)
Definition DMIN : double := 0x1p-1022%float.

(** [isinf] of the C library. *)
Definition isinf (x : double) : bool := PrimFloat.is_infinity x.

(** ** Arrays and loops *)

(** [x[i]], with a default outside the array. *)
Definition rd {A : Type} (d : A) (x : list A) (i : nat) : A := default d (x !! i).

(** [for (k = a; k < b; ++k) body]. *)
Definition for_range {S : Type} (a b : nat) (body : nat -> S -> S) (s : S) : S :=
  fold_left (fun s k => body k s) (seq a (b - a)) s.

(** The array seen through the pointer [x + n] is [drop n x]; [at_offset]
    writes through that pointer. *)
Definition at_offset {A : Type} (n : nat) (x : list A) (k : list A -> list A) : list A :=
  take n x ++ k (drop n x).

(** A casadi_int used as an array index; negative values are outside every
    array. *)
Definition index_of (i : Z) : option nat :=
  if (i <? 0)%Z then None else Some (Z.to_nat i).

(** ** Sparsity patterns

    The compressed-column storage [sp = {nrow, ncol, colind[0..ncol], row[0..nnz)}]. *)

Record sparsity : Type := {
  nrow : nat;
  ncol : nat;
  colind : list nat;
  row : list nat
}.

Definition sp_colind (sp : sparsity) (c : nat) : nat := rd 0%nat (colind sp) c.
Definition sp_row (sp : sparsity) (k : nat) : nat := rd 0%nat (row sp) k.
Definition nnz (sp : sparsity) : nat := sp_colind sp (ncol sp).

(** [for (k = colind[c]; k < colind[c+1]; ++k) body]. *)
Definition for_col {S : Type} (sp : sparsity) (c : nat) (body : nat -> S -> S) (s : S) : S :=
  for_range (sp_colind sp c) (sp_colind sp (c + 1)) body s.

(** ** The linear-algebra primitives of the runtime

    The vector and sparse-matrix primitives are not part of the solver's
    source file; they are given here by their contracts. *)

Section Primitives.
Context {T : Type} `{Scalar T}.
Local Open Scope sc_scope.

Definition rdT (x : list T) (i : nat) : T := rd 0 x i.

(** Modelled from the spec: [fill], missing from the sources:
    [x[i] = alpha] for [i < n]. *)
Definition casadi_fill (x : list T) (n : nat) (alpha : T) : list T :=
  for_range 0 n (fun i x => <[i := alpha]> x) x.

(** Modelled from the spec: [copy], missing from the sources:
    [y[i] = x[i]] for [i < n]. *)
Definition casadi_copy (x : list T) (n : nat) (y : list T) : list T :=
  for_range 0 n (fun i y => <[i := rdT x i]> y) y.

(** Modelled from the spec: [axpy], missing from the sources:
    [y[i] += alpha * x[i]] for [i < n]. *)
Definition casadi_axpy (n : nat) (alpha : T) (x y : list T) : list T :=
  for_range 0 n (fun i y => <[i := rdT y i + alpha * rdT x i]> y) y.

(** Modelled from the spec: [scal], missing from the sources:
    [x[i] *= alpha] for [i < n]. *)
Definition casadi_scal (n : nat) (alpha : T) (x : list T) : list T :=
  for_range 0 n (fun i x => <[i := rdT x i * alpha]> x) x.

(** Modelled from the spec: [dot], missing from the sources: the inner
    product of [x[0..n)] and [y[0..n)]. *)
Definition casadi_dot (n : nat) (x y : list T) : T :=
  for_range 0 n (fun i r => r + rdT x i * rdT y i) 0.

(** Modelled from the spec: [sparse_mv(A_nz, A_sp, x, y, transpose)],
    missing from the sources: [y += A x], or [y += A' x] when [tr] is set,
    for [A] in compressed-column storage. *)
Definition casadi_mv (x : list T) (sp_x : sparsity) (y z : list T) (tr : bool) : list T :=
  for_range 0 (ncol sp_x) (fun i z =>
    for_col sp_x i (fun el z =>
      if tr then <[i := rdT z i + rdT x el * rdT y (sp_row sp_x el)]> z
      else <[sp_row sp_x el := rdT z (sp_row sp_x el) + rdT x el * rdT y i]> z) z) z.

(** Modelled from the spec: [bilin(H_nz, H_sp, x, y)], missing from the
    sources: the bilinear form [x' H y]. *)
Definition casadi_bilin (A : list T) (sp_A : sparsity) (x y : list T) : T :=
  for_range 0 (ncol sp_A) (fun cc ret =>
    for_col sp_A cc (fun el ret =>
      ret + rdT x (sp_row sp_A el) * rdT A el * rdT y cc) ret) 0.

(** Modelled from the spec: [sparse_trans(x_nz, x_sp, y_nz, y_sp, iw)],
    missing from the sources: the nonzeros of the transpose, in
    compressed-column storage; [tmp] holds the next free slot of every
    column of the result. *)
Definition casadi_trans (x : list T) (sp_x : sparsity) (y : list T) (sp_y : sparsity)
    (tmp : list Z) : list T * list Z :=
  let tmp := for_range 0 (ncol sp_y)
               (fun k tmp => <[k := Z.of_nat (sp_colind sp_y k)]> tmp) tmp in
  for_range 0 (nnz sp_x) (fun k '(y, tmp) =>
    let r := sp_row sp_x k in
    let slot := rd 0%Z tmp r in
    (<[Z.to_nat slot := rdT x k]> y, <[r := (slot + 1)%Z]> tmp)) (y, tmp).
End Primitives.

(** ** The solver's memory: [struct casadi_qp_mem]

    The flags of the [never*] arrays are kept as booleans.  The message buffer
    [msg] and the flag [print_iter] only serve the progress output, which is
    not modelled. *)

Record casadi_qp_mem (T1 : Type) : Type := {
  (* Cost *)
  f : T1;
  (* Dimensions *)
  nx : nat;
  na : nat;
  nz : nat;
  (* Sparsity patterns *)
  sp_a : sparsity;
  sp_h : sparsity;
  sp_at : sparsity;
  sp_kkt : sparsity;
  (* QP data *)
  nz_a : list T1;
  nz_h : list T1;
  g : list T1;
  (* Vectors *)
  z : list T1;
  lbz : list T1;
  ubz : list T1;
  infeas : list T1;
  tinfeas : list T1;
  lam : list T1;
  w : list T1;
  dz : list T1;
  dlam : list T1;
  iw : list Z;
  neverzero : list bool;
  neverlower : list bool;
  neverupper : list bool;
  (* QR factorization *)
  prinv : list Z;
  pc : list Z;
  sp_v : sparsity;
  sp_r : sparsity;
  nz_at : list T1;
  nz_kkt : list T1;
  beta : list T1;
  nz_v : list T1;
  nz_r : list T1;
  (* Smallest nonzero number *)
  dmin : T1;
  (* Infinity *)
  inf : T1;
  (* Dual to primal error *)
  du_to_pr : T1;
  (* Stepsize *)
  tau : T1;
  (* Singularity *)
  sing : Z;
  (* Smallest diagonal value for the QR factorization *)
  mina : T1;
  imina : Z;
  (* Primal and dual error, corresponding index *)
  pr : T1;
  du : T1;
  ipr : Z;
  idu : Z
}.

Arguments f {T1} _.
Arguments nx {T1} _.
Arguments na {T1} _.
Arguments nz {T1} _.
Arguments sp_a {T1} _.
Arguments sp_h {T1} _.
Arguments sp_at {T1} _.
Arguments sp_kkt {T1} _.
Arguments nz_a {T1} _.
Arguments nz_h {T1} _.
Arguments g {T1} _.
Arguments z {T1} _.
Arguments lbz {T1} _.
Arguments ubz {T1} _.
Arguments infeas {T1} _.
Arguments tinfeas {T1} _.
Arguments lam {T1} _.
Arguments w {T1} _.
Arguments dz {T1} _.
Arguments dlam {T1} _.
Arguments iw {T1} _.
Arguments neverzero {T1} _.
Arguments neverlower {T1} _.
Arguments neverupper {T1} _.
Arguments prinv {T1} _.
Arguments pc {T1} _.
Arguments sp_v {T1} _.
Arguments sp_r {T1} _.
Arguments nz_at {T1} _.
Arguments nz_kkt {T1} _.
Arguments beta {T1} _.
Arguments nz_v {T1} _.
Arguments nz_r {T1} _.
Arguments dmin {T1} _.
Arguments inf {T1} _.
Arguments du_to_pr {T1} _.
Arguments tau {T1} _.
Arguments sing {T1} _.
Arguments mina {T1} _.
Arguments imina {T1} _.
Arguments pr {T1} _.
Arguments du {T1} _.
Arguments ipr {T1} _.
Arguments idu {T1} _.

(** Assignments to the fields that the kernels write. *)

Section Setters.
Context {T1 : Type}.
Implicit Type m : casadi_qp_mem T1.

Definition set_f m (v : T1) : casadi_qp_mem T1 :=
  {| f := v; nx := nx m; na := na m; nz := nz m; sp_a := sp_a m; sp_h := sp_h m; sp_at
     := sp_at m; sp_kkt := sp_kkt m; nz_a := nz_a m; nz_h := nz_h m; g := g m; z := z m;
     lbz := lbz m; ubz := ubz m; infeas := infeas m; tinfeas := tinfeas m; lam := lam m;
     w := w m; dz := dz m; dlam := dlam m; iw := iw m; neverzero := neverzero m;
     neverlower := neverlower m; neverupper := neverupper m; prinv := prinv m; pc := pc
     m; sp_v := sp_v m; sp_r := sp_r m; nz_at := nz_at m; nz_kkt := nz_kkt m; beta :=
     beta m; nz_v := nz_v m; nz_r := nz_r m; dmin := dmin m; inf := inf m; du_to_pr :=
     du_to_pr m; tau := tau m; sing := sing m; mina := mina m; imina := imina m; pr :=
     pr m; du := du m; ipr := ipr m; idu := idu m |}.

Definition set_z m (v : list T1) : casadi_qp_mem T1 :=
  {| f := f m; nx := nx m; na := na m; nz := nz m; sp_a := sp_a m; sp_h := sp_h m; sp_at
     := sp_at m; sp_kkt := sp_kkt m; nz_a := nz_a m; nz_h := nz_h m; g := g m; z := v;
     lbz := lbz m; ubz := ubz m; infeas := infeas m; tinfeas := tinfeas m; lam := lam m;
     w := w m; dz := dz m; dlam := dlam m; iw := iw m; neverzero := neverzero m;
     neverlower := neverlower m; neverupper := neverupper m; prinv := prinv m; pc := pc
     m; sp_v := sp_v m; sp_r := sp_r m; nz_at := nz_at m; nz_kkt := nz_kkt m; beta :=
     beta m; nz_v := nz_v m; nz_r := nz_r m; dmin := dmin m; inf := inf m; du_to_pr :=
     du_to_pr m; tau := tau m; sing := sing m; mina := mina m; imina := imina m; pr :=
     pr m; du := du m; ipr := ipr m; idu := idu m |}.

Definition set_infeas m (v : list T1) : casadi_qp_mem T1 :=
  {| f := f m; nx := nx m; na := na m; nz := nz m; sp_a := sp_a m; sp_h := sp_h m; sp_at
     := sp_at m; sp_kkt := sp_kkt m; nz_a := nz_a m; nz_h := nz_h m; g := g m; z := z m;
     lbz := lbz m; ubz := ubz m; infeas := v; tinfeas := tinfeas m; lam := lam m; w := w
     m; dz := dz m; dlam := dlam m; iw := iw m; neverzero := neverzero m; neverlower :=
     neverlower m; neverupper := neverupper m; prinv := prinv m; pc := pc m; sp_v :=
     sp_v m; sp_r := sp_r m; nz_at := nz_at m; nz_kkt := nz_kkt m; beta := beta m; nz_v
     := nz_v m; nz_r := nz_r m; dmin := dmin m; inf := inf m; du_to_pr := du_to_pr m;
     tau := tau m; sing := sing m; mina := mina m; imina := imina m; pr := pr m; du :=
     du m; ipr := ipr m; idu := idu m |}.

Definition set_tinfeas m (v : list T1) : casadi_qp_mem T1 :=
  {| f := f m; nx := nx m; na := na m; nz := nz m; sp_a := sp_a m; sp_h := sp_h m; sp_at
     := sp_at m; sp_kkt := sp_kkt m; nz_a := nz_a m; nz_h := nz_h m; g := g m; z := z m;
     lbz := lbz m; ubz := ubz m; infeas := infeas m; tinfeas := v; lam := lam m; w := w
     m; dz := dz m; dlam := dlam m; iw := iw m; neverzero := neverzero m; neverlower :=
     neverlower m; neverupper := neverupper m; prinv := prinv m; pc := pc m; sp_v :=
     sp_v m; sp_r := sp_r m; nz_at := nz_at m; nz_kkt := nz_kkt m; beta := beta m; nz_v
     := nz_v m; nz_r := nz_r m; dmin := dmin m; inf := inf m; du_to_pr := du_to_pr m;
     tau := tau m; sing := sing m; mina := mina m; imina := imina m; pr := pr m; du :=
     du m; ipr := ipr m; idu := idu m |}.

Definition set_lam m (v : list T1) : casadi_qp_mem T1 :=
  {| f := f m; nx := nx m; na := na m; nz := nz m; sp_a := sp_a m; sp_h := sp_h m; sp_at
     := sp_at m; sp_kkt := sp_kkt m; nz_a := nz_a m; nz_h := nz_h m; g := g m; z := z m;
     lbz := lbz m; ubz := ubz m; infeas := infeas m; tinfeas := tinfeas m; lam := v; w
     := w m; dz := dz m; dlam := dlam m; iw := iw m; neverzero := neverzero m;
     neverlower := neverlower m; neverupper := neverupper m; prinv := prinv m; pc := pc
     m; sp_v := sp_v m; sp_r := sp_r m; nz_at := nz_at m; nz_kkt := nz_kkt m; beta :=
     beta m; nz_v := nz_v m; nz_r := nz_r m; dmin := dmin m; inf := inf m; du_to_pr :=
     du_to_pr m; tau := tau m; sing := sing m; mina := mina m; imina := imina m; pr :=
     pr m; du := du m; ipr := ipr m; idu := idu m |}.

Definition set_w m (v : list T1) : casadi_qp_mem T1 :=
  {| f := f m; nx := nx m; na := na m; nz := nz m; sp_a := sp_a m; sp_h := sp_h m; sp_at
     := sp_at m; sp_kkt := sp_kkt m; nz_a := nz_a m; nz_h := nz_h m; g := g m; z := z m;
     lbz := lbz m; ubz := ubz m; infeas := infeas m; tinfeas := tinfeas m; lam := lam m;
     w := v; dz := dz m; dlam := dlam m; iw := iw m; neverzero := neverzero m;
     neverlower := neverlower m; neverupper := neverupper m; prinv := prinv m; pc := pc
     m; sp_v := sp_v m; sp_r := sp_r m; nz_at := nz_at m; nz_kkt := nz_kkt m; beta :=
     beta m; nz_v := nz_v m; nz_r := nz_r m; dmin := dmin m; inf := inf m; du_to_pr :=
     du_to_pr m; tau := tau m; sing := sing m; mina := mina m; imina := imina m; pr :=
     pr m; du := du m; ipr := ipr m; idu := idu m |}.

Definition set_dz m (v : list T1) : casadi_qp_mem T1 :=
  {| f := f m; nx := nx m; na := na m; nz := nz m; sp_a := sp_a m; sp_h := sp_h m; sp_at
     := sp_at m; sp_kkt := sp_kkt m; nz_a := nz_a m; nz_h := nz_h m; g := g m; z := z m;
     lbz := lbz m; ubz := ubz m; infeas := infeas m; tinfeas := tinfeas m; lam := lam m;
     w := w m; dz := v; dlam := dlam m; iw := iw m; neverzero := neverzero m; neverlower
     := neverlower m; neverupper := neverupper m; prinv := prinv m; pc := pc m; sp_v :=
     sp_v m; sp_r := sp_r m; nz_at := nz_at m; nz_kkt := nz_kkt m; beta := beta m; nz_v
     := nz_v m; nz_r := nz_r m; dmin := dmin m; inf := inf m; du_to_pr := du_to_pr m;
     tau := tau m; sing := sing m; mina := mina m; imina := imina m; pr := pr m; du :=
     du m; ipr := ipr m; idu := idu m |}.

Definition set_dlam m (v : list T1) : casadi_qp_mem T1 :=
  {| f := f m; nx := nx m; na := na m; nz := nz m; sp_a := sp_a m; sp_h := sp_h m; sp_at
     := sp_at m; sp_kkt := sp_kkt m; nz_a := nz_a m; nz_h := nz_h m; g := g m; z := z m;
     lbz := lbz m; ubz := ubz m; infeas := infeas m; tinfeas := tinfeas m; lam := lam m;
     w := w m; dz := dz m; dlam := v; iw := iw m; neverzero := neverzero m; neverlower
     := neverlower m; neverupper := neverupper m; prinv := prinv m; pc := pc m; sp_v :=
     sp_v m; sp_r := sp_r m; nz_at := nz_at m; nz_kkt := nz_kkt m; beta := beta m; nz_v
     := nz_v m; nz_r := nz_r m; dmin := dmin m; inf := inf m; du_to_pr := du_to_pr m;
     tau := tau m; sing := sing m; mina := mina m; imina := imina m; pr := pr m; du :=
     du m; ipr := ipr m; idu := idu m |}.

Definition set_iw m (v : list Z) : casadi_qp_mem T1 :=
  {| f := f m; nx := nx m; na := na m; nz := nz m; sp_a := sp_a m; sp_h := sp_h m; sp_at
     := sp_at m; sp_kkt := sp_kkt m; nz_a := nz_a m; nz_h := nz_h m; g := g m; z := z m;
     lbz := lbz m; ubz := ubz m; infeas := infeas m; tinfeas := tinfeas m; lam := lam m;
     w := w m; dz := dz m; dlam := dlam m; iw := v; neverzero := neverzero m; neverlower
     := neverlower m; neverupper := neverupper m; prinv := prinv m; pc := pc m; sp_v :=
     sp_v m; sp_r := sp_r m; nz_at := nz_at m; nz_kkt := nz_kkt m; beta := beta m; nz_v
     := nz_v m; nz_r := nz_r m; dmin := dmin m; inf := inf m; du_to_pr := du_to_pr m;
     tau := tau m; sing := sing m; mina := mina m; imina := imina m; pr := pr m; du :=
     du m; ipr := ipr m; idu := idu m |}.

Definition set_nz_kkt m (v : list T1) : casadi_qp_mem T1 :=
  {| f := f m; nx := nx m; na := na m; nz := nz m; sp_a := sp_a m; sp_h := sp_h m; sp_at
     := sp_at m; sp_kkt := sp_kkt m; nz_a := nz_a m; nz_h := nz_h m; g := g m; z := z m;
     lbz := lbz m; ubz := ubz m; infeas := infeas m; tinfeas := tinfeas m; lam := lam m;
     w := w m; dz := dz m; dlam := dlam m; iw := iw m; neverzero := neverzero m;
     neverlower := neverlower m; neverupper := neverupper m; prinv := prinv m; pc := pc
     m; sp_v := sp_v m; sp_r := sp_r m; nz_at := nz_at m; nz_kkt := v; beta := beta m;
     nz_v := nz_v m; nz_r := nz_r m; dmin := dmin m; inf := inf m; du_to_pr := du_to_pr
     m; tau := tau m; sing := sing m; mina := mina m; imina := imina m; pr := pr m; du
     := du m; ipr := ipr m; idu := idu m |}.

Definition set_beta m (v : list T1) : casadi_qp_mem T1 :=
  {| f := f m; nx := nx m; na := na m; nz := nz m; sp_a := sp_a m; sp_h := sp_h m; sp_at
     := sp_at m; sp_kkt := sp_kkt m; nz_a := nz_a m; nz_h := nz_h m; g := g m; z := z m;
     lbz := lbz m; ubz := ubz m; infeas := infeas m; tinfeas := tinfeas m; lam := lam m;
     w := w m; dz := dz m; dlam := dlam m; iw := iw m; neverzero := neverzero m;
     neverlower := neverlower m; neverupper := neverupper m; prinv := prinv m; pc := pc
     m; sp_v := sp_v m; sp_r := sp_r m; nz_at := nz_at m; nz_kkt := nz_kkt m; beta := v;
     nz_v := nz_v m; nz_r := nz_r m; dmin := dmin m; inf := inf m; du_to_pr := du_to_pr
     m; tau := tau m; sing := sing m; mina := mina m; imina := imina m; pr := pr m; du
     := du m; ipr := ipr m; idu := idu m |}.

Definition set_nz_v m (v : list T1) : casadi_qp_mem T1 :=
  {| f := f m; nx := nx m; na := na m; nz := nz m; sp_a := sp_a m; sp_h := sp_h m; sp_at
     := sp_at m; sp_kkt := sp_kkt m; nz_a := nz_a m; nz_h := nz_h m; g := g m; z := z m;
     lbz := lbz m; ubz := ubz m; infeas := infeas m; tinfeas := tinfeas m; lam := lam m;
     w := w m; dz := dz m; dlam := dlam m; iw := iw m; neverzero := neverzero m;
     neverlower := neverlower m; neverupper := neverupper m; prinv := prinv m; pc := pc
     m; sp_v := sp_v m; sp_r := sp_r m; nz_at := nz_at m; nz_kkt := nz_kkt m; beta :=
     beta m; nz_v := v; nz_r := nz_r m; dmin := dmin m; inf := inf m; du_to_pr :=
     du_to_pr m; tau := tau m; sing := sing m; mina := mina m; imina := imina m; pr :=
     pr m; du := du m; ipr := ipr m; idu := idu m |}.

Definition set_nz_r m (v : list T1) : casadi_qp_mem T1 :=
  {| f := f m; nx := nx m; na := na m; nz := nz m; sp_a := sp_a m; sp_h := sp_h m; sp_at
     := sp_at m; sp_kkt := sp_kkt m; nz_a := nz_a m; nz_h := nz_h m; g := g m; z := z m;
     lbz := lbz m; ubz := ubz m; infeas := infeas m; tinfeas := tinfeas m; lam := lam m;
     w := w m; dz := dz m; dlam := dlam m; iw := iw m; neverzero := neverzero m;
     neverlower := neverlower m; neverupper := neverupper m; prinv := prinv m; pc := pc
     m; sp_v := sp_v m; sp_r := sp_r m; nz_at := nz_at m; nz_kkt := nz_kkt m; beta :=
     beta m; nz_v := nz_v m; nz_r := v; dmin := dmin m; inf := inf m; du_to_pr :=
     du_to_pr m; tau := tau m; sing := sing m; mina := mina m; imina := imina m; pr :=
     pr m; du := du m; ipr := ipr m; idu := idu m |}.

Definition set_tau m (v : T1) : casadi_qp_mem T1 :=
  {| f := f m; nx := nx m; na := na m; nz := nz m; sp_a := sp_a m; sp_h := sp_h m; sp_at
     := sp_at m; sp_kkt := sp_kkt m; nz_a := nz_a m; nz_h := nz_h m; g := g m; z := z m;
     lbz := lbz m; ubz := ubz m; infeas := infeas m; tinfeas := tinfeas m; lam := lam m;
     w := w m; dz := dz m; dlam := dlam m; iw := iw m; neverzero := neverzero m;
     neverlower := neverlower m; neverupper := neverupper m; prinv := prinv m; pc := pc
     m; sp_v := sp_v m; sp_r := sp_r m; nz_at := nz_at m; nz_kkt := nz_kkt m; beta :=
     beta m; nz_v := nz_v m; nz_r := nz_r m; dmin := dmin m; inf := inf m; du_to_pr :=
     du_to_pr m; tau := v; sing := sing m; mina := mina m; imina := imina m; pr := pr m;
     du := du m; ipr := ipr m; idu := idu m |}.

Definition set_sing m (v : Z) : casadi_qp_mem T1 :=
  {| f := f m; nx := nx m; na := na m; nz := nz m; sp_a := sp_a m; sp_h := sp_h m; sp_at
     := sp_at m; sp_kkt := sp_kkt m; nz_a := nz_a m; nz_h := nz_h m; g := g m; z := z m;
     lbz := lbz m; ubz := ubz m; infeas := infeas m; tinfeas := tinfeas m; lam := lam m;
     w := w m; dz := dz m; dlam := dlam m; iw := iw m; neverzero := neverzero m;
     neverlower := neverlower m; neverupper := neverupper m; prinv := prinv m; pc := pc
     m; sp_v := sp_v m; sp_r := sp_r m; nz_at := nz_at m; nz_kkt := nz_kkt m; beta :=
     beta m; nz_v := nz_v m; nz_r := nz_r m; dmin := dmin m; inf := inf m; du_to_pr :=
     du_to_pr m; tau := tau m; sing := v; mina := mina m; imina := imina m; pr := pr m;
     du := du m; ipr := ipr m; idu := idu m |}.

Definition set_mina m (v : T1) : casadi_qp_mem T1 :=
  {| f := f m; nx := nx m; na := na m; nz := nz m; sp_a := sp_a m; sp_h := sp_h m; sp_at
     := sp_at m; sp_kkt := sp_kkt m; nz_a := nz_a m; nz_h := nz_h m; g := g m; z := z m;
     lbz := lbz m; ubz := ubz m; infeas := infeas m; tinfeas := tinfeas m; lam := lam m;
     w := w m; dz := dz m; dlam := dlam m; iw := iw m; neverzero := neverzero m;
     neverlower := neverlower m; neverupper := neverupper m; prinv := prinv m; pc := pc
     m; sp_v := sp_v m; sp_r := sp_r m; nz_at := nz_at m; nz_kkt := nz_kkt m; beta :=
     beta m; nz_v := nz_v m; nz_r := nz_r m; dmin := dmin m; inf := inf m; du_to_pr :=
     du_to_pr m; tau := tau m; sing := sing m; mina := v; imina := imina m; pr := pr m;
     du := du m; ipr := ipr m; idu := idu m |}.

Definition set_imina m (v : Z) : casadi_qp_mem T1 :=
  {| f := f m; nx := nx m; na := na m; nz := nz m; sp_a := sp_a m; sp_h := sp_h m; sp_at
     := sp_at m; sp_kkt := sp_kkt m; nz_a := nz_a m; nz_h := nz_h m; g := g m; z := z m;
     lbz := lbz m; ubz := ubz m; infeas := infeas m; tinfeas := tinfeas m; lam := lam m;
     w := w m; dz := dz m; dlam := dlam m; iw := iw m; neverzero := neverzero m;
     neverlower := neverlower m; neverupper := neverupper m; prinv := prinv m; pc := pc
     m; sp_v := sp_v m; sp_r := sp_r m; nz_at := nz_at m; nz_kkt := nz_kkt m; beta :=
     beta m; nz_v := nz_v m; nz_r := nz_r m; dmin := dmin m; inf := inf m; du_to_pr :=
     du_to_pr m; tau := tau m; sing := sing m; mina := mina m; imina := v; pr := pr m;
     du := du m; ipr := ipr m; idu := idu m |}.

Definition set_pr m (v : T1) : casadi_qp_mem T1 :=
  {| f := f m; nx := nx m; na := na m; nz := nz m; sp_a := sp_a m; sp_h := sp_h m; sp_at
     := sp_at m; sp_kkt := sp_kkt m; nz_a := nz_a m; nz_h := nz_h m; g := g m; z := z m;
     lbz := lbz m; ubz := ubz m; infeas := infeas m; tinfeas := tinfeas m; lam := lam m;
     w := w m; dz := dz m; dlam := dlam m; iw := iw m; neverzero := neverzero m;
     neverlower := neverlower m; neverupper := neverupper m; prinv := prinv m; pc := pc
     m; sp_v := sp_v m; sp_r := sp_r m; nz_at := nz_at m; nz_kkt := nz_kkt m; beta :=
     beta m; nz_v := nz_v m; nz_r := nz_r m; dmin := dmin m; inf := inf m; du_to_pr :=
     du_to_pr m; tau := tau m; sing := sing m; mina := mina m; imina := imina m; pr :=
     v; du := du m; ipr := ipr m; idu := idu m |}.

Definition set_du m (v : T1) : casadi_qp_mem T1 :=
  {| f := f m; nx := nx m; na := na m; nz := nz m; sp_a := sp_a m; sp_h := sp_h m; sp_at
     := sp_at m; sp_kkt := sp_kkt m; nz_a := nz_a m; nz_h := nz_h m; g := g m; z := z m;
     lbz := lbz m; ubz := ubz m; infeas := infeas m; tinfeas := tinfeas m; lam := lam m;
     w := w m; dz := dz m; dlam := dlam m; iw := iw m; neverzero := neverzero m;
     neverlower := neverlower m; neverupper := neverupper m; prinv := prinv m; pc := pc
     m; sp_v := sp_v m; sp_r := sp_r m; nz_at := nz_at m; nz_kkt := nz_kkt m; beta :=
     beta m; nz_v := nz_v m; nz_r := nz_r m; dmin := dmin m; inf := inf m; du_to_pr :=
     du_to_pr m; tau := tau m; sing := sing m; mina := mina m; imina := imina m; pr :=
     pr m; du := v; ipr := ipr m; idu := idu m |}.

Definition set_ipr m (v : Z) : casadi_qp_mem T1 :=
  {| f := f m; nx := nx m; na := na m; nz := nz m; sp_a := sp_a m; sp_h := sp_h m; sp_at
     := sp_at m; sp_kkt := sp_kkt m; nz_a := nz_a m; nz_h := nz_h m; g := g m; z := z m;
     lbz := lbz m; ubz := ubz m; infeas := infeas m; tinfeas := tinfeas m; lam := lam m;
     w := w m; dz := dz m; dlam := dlam m; iw := iw m; neverzero := neverzero m;
     neverlower := neverlower m; neverupper := neverupper m; prinv := prinv m; pc := pc
     m; sp_v := sp_v m; sp_r := sp_r m; nz_at := nz_at m; nz_kkt := nz_kkt m; beta :=
     beta m; nz_v := nz_v m; nz_r := nz_r m; dmin := dmin m; inf := inf m; du_to_pr :=
     du_to_pr m; tau := tau m; sing := sing m; mina := mina m; imina := imina m; pr :=
     pr m; du := du m; ipr := v; idu := idu m |}.

Definition set_idu m (v : Z) : casadi_qp_mem T1 :=
  {| f := f m; nx := nx m; na := na m; nz := nz m; sp_a := sp_a m; sp_h := sp_h m; sp_at
     := sp_at m; sp_kkt := sp_kkt m; nz_a := nz_a m; nz_h := nz_h m; g := g m; z := z m;
     lbz := lbz m; ubz := ubz m; infeas := infeas m; tinfeas := tinfeas m; lam := lam m;
     w := w m; dz := dz m; dlam := dlam m; iw := iw m; neverzero := neverzero m;
     neverlower := neverlower m; neverupper := neverupper m; prinv := prinv m; pc := pc
     m; sp_v := sp_v m; sp_r := sp_r m; nz_at := nz_at m; nz_kkt := nz_kkt m; beta :=
     beta m; nz_v := nz_v m; nz_r := nz_r m; dmin := dmin m; inf := inf m; du_to_pr :=
     du_to_pr m; tau := tau m; sing := sing m; mina := mina m; imina := imina m; pr :=
     pr m; du := du m; ipr := ipr m; idu := v |}.

End Setters.

(** ** The sparse QR primitives

    The factorization routines are external to the solver; the kernels are
    parameterized by them.  Each takes the arrays it reads and returns the
    arrays and scalars it writes. *)

Class LinAlg (T1 : Type) : Type := {
  (** [casadi_qr(sp_a, nz_a, x, sp_v, nz_v, sp_r, nz_r, beta, prinv, pc)]:
      numeric QR factorization; returns [x], [nz_v], [nz_r] and [beta]. *)
  casadi_qr : sparsity -> list T1 -> list T1 -> sparsity -> list T1 -> sparsity ->
              list T1 -> list T1 -> list Z -> list Z ->
              list T1 * list T1 * list T1 * list T1;
  (** [casadi_qr_solve(x, nrhs, tr, sp_v, v, sp_r, r, beta, prinv, pc, w)]:
      solves with the factors, in place in [x]; returns [x] and [w]. *)
  casadi_qr_solve : list T1 -> Z -> Z -> sparsity -> list T1 -> sparsity -> list T1 ->
                    list T1 -> list Z -> list Z -> list T1 -> list T1 * list T1;
  (** [casadi_qr_singular(&rmin, &irmin, nz_r, sp_r, pc, eps)]: returns
      [rmin], [irmin] and the nullity. *)
  casadi_qr_singular : list T1 -> sparsity -> list Z -> T1 -> T1 * Z * Z;
  (** [casadi_qr_colcomb(v, nz_r, sp_r, pc, imin, ind)]: a linear combination
      of the columns that vanishes; returns [v]. *)
  casadi_qr_colcomb : list T1 -> list T1 -> sparsity -> list Z -> Z -> Z -> list T1
}.

(** ** The kernels *)

Notation "x .[ i ]" := (rdT x i) (at level 1, left associativity, format "x .[ i ]") : sc_scope.

Section Kernels.
Context {T1 : Type} `{ScalarInf T1} {LA : LinAlg T1}.
Local Open Scope sc_scope.
Implicit Type m : casadi_qp_mem T1.
Implicit Types index sign r_index r_sign : Z.

(** Calculate largest constraint violation. *)
Definition casadi_qp_pr m : casadi_qp_mem T1 :=
  let m := set_pr m 0 in
  let m := set_ipr m (-1)%Z in
  for_range 0 (nz m) (fun i m =>
    if (z m).[i] >? (ubz m).[i] + pr m then
      let m := set_pr m ((z m).[i] - (ubz m).[i]) in
      set_ipr m (Z.of_nat i)
    else if (z m).[i] <? (lbz m).[i] - pr m then
      let m := set_pr m ((lbz m).[i] - (z m).[i]) in
      set_ipr m (Z.of_nat i)
    else m) m.

Definition casadi_qp_du m : casadi_qp_mem T1 :=
  let m := set_du m 0 in
  let m := set_idu m (-1)%Z in
  for_range 0 (nx m) (fun i m =>
    if (infeas m).[i] >? du m then
      let m := set_du m ((infeas m).[i]) in
      set_idu m (Z.of_nat i)
    else if (infeas m).[i] <? - du m then
      let m := set_du m (- (infeas m).[i]) in
      set_idu m (Z.of_nat i)
    else m) m.

(** Try to improve primal feasibility by adding a constraint.  Returns the
    index and [*sign]; [None] when [lam[ipr]] is read with [ipr < 0]. *)
Definition casadi_qp_pr_index m sign : option (Z * Z) :=
  i ← index_of (ipr m);
  if (lam m).[i] == 0 then
    (* Add the most violating constraint *)
    let sign := if (z m).[i] <? (lbz m).[i] then (-1)%Z else 1%Z in
    Some (ipr m, sign)
  else Some ((-1)%Z, sign).

(** Maximum infeasibility from setting [lam[i] = 0]. *)
Definition casadi_qp_du_check m (i : nat) : T1 :=
  if (i <? nx m)%nat then
    fabs ((infeas m).[i] - (lam m).[i])
  else
    for_col (sp_at m) (i - nx m) (fun k new_du =>
      fmax new_du
           (fabs ((infeas m).[sp_row (sp_at m) k] - (nz_at m).[k] * (lam m).[i]))) 0.

(** Try to improve dual feasibility by removing a constraint.  Returns the
    memory (the sensitivities are left in [w]), the index and [*sign];
    [None] when [infeas[idu]] is read with [idu < 0]. *)
Definition casadi_qp_du_index m sign : option (casadi_qp_mem T1 * Z * Z) :=
  (* We need to increase or decrease infeas[idu]. Sensitivity: *)
  let m := set_w m (casadi_fill (w m) (nz m) 0) in
  j ← index_of (idu m);
  let s := if (infeas m).[j] >? 0 then - (1) else 1 in
  let m := set_w m (<[j := s]> (w m)) in
  let m := set_w m (at_offset (nx m) (w m)
                      (fun y => casadi_mv (nz_a m) (sp_a m) (w m) y false)) in
  (* Find the best lam[i] to make zero *)
  let '(best_ind, best_w) :=
    for_range 0 (nz m) (fun i '(best_ind, best_w) =>
      (* Make sure variable influences du *)
      if (w m).[i] == 0 then (best_ind, best_w)
      (* Make sure removing the constraint decreases dual infeasibility *)
      else if (if (w m).[i] >? 0 then (lam m).[i] >=? 0 else (lam m).[i] <=? 0)
      then (best_ind, best_w)
      (* Skip if maximum infeasibility increases *)
      else if casadi_qp_du_check m i >? du m then (best_ind, best_w)
      (* Check if best so far *)
      else if fabs ((w m).[i]) >? best_w then (Z.of_nat i, fabs ((w m).[i]))
      else (best_ind, best_w)) ((-1)%Z, 0) in
  (* Accept, if any *)
  if (best_ind >=? 0)%Z then Some (m, best_ind, 0%Z) else Some (m, (-1)%Z, sign).

(** The row of the KKT matrix that belongs to index [i], scattered into [w]. *)
Definition kkt_scatter m (i : nat) (is_zero : bool) (w : list T1) : list T1 :=
  if (i <? nx m)%nat then
    if is_zero then
      let w := for_col (sp_h m) i (fun k w => <[sp_row (sp_h m) k := (nz_h m).[k]]> w) w in
      for_col (sp_a m) i (fun k w => <[(nx m + sp_row (sp_a m) k)%nat := (nz_a m).[k]]> w) w
    else <[i := 1]> w
  else
    if is_zero then <[i := - (1)]> w
    else for_col (sp_at m) (i - nx m)
           (fun k w => <[sp_row (sp_at m) k := (nz_at m).[k]]> w) w.

Definition casadi_qp_kkt m : casadi_qp_mem T1 :=
  (* Reset w to zero *)
  let m := set_w m (casadi_fill (w m) (nz m) 0) in
  (* Loop over rows of the (transposed) KKT *)
  for_range 0 (nz m) (fun i m =>
    (* Copy row of KKT to w *)
    let m := set_w m (kkt_scatter m i ((lam m).[i] == 0) (w m)) in
    (* Copy row to KKT, zero out w *)
    for_col (sp_kkt m) i (fun k m =>
      let m := set_nz_kkt m (<[k := (w m).[sp_row (sp_kkt m) k]]> (nz_kkt m)) in
      set_w m (<[sp_row (sp_kkt m) k := 0]> (w m))) m) m.

Definition casadi_qp_kkt_column m (kkt_i : list T1) (i : nat) sign : list T1 :=
  (* Reset kkt_i to zero *)
  let kkt_i := casadi_fill kkt_i (nz m) 0 in
  (* Copy column of KKT to kkt_i *)
  kkt_scatter m i (sign =? 0)%Z kkt_i.

Definition casadi_qp_kkt_dot m (v : list T1) (i : nat) sign : T1 :=
  (* Scalar product with the desired column *)
  if (i <? nx m)%nat then
    if (sign =? 0)%Z then
      let d := for_col (sp_h m) i (fun k d => d + v.[sp_row (sp_h m) k] * (nz_h m).[k]) 0 in
      for_col (sp_a m) i (fun k d => d + v.[(nx m + sp_row (sp_a m) k)%nat] * (nz_a m).[k]) d
    else v.[i]
  else
    if (sign =? 0)%Z then - v.[i]
    else for_col (sp_at m) (i - nx m)
           (fun k d => d + v.[sp_row (sp_at m) k] * (nz_at m).[k]) 0.

Definition casadi_qp_kkt_residual m (r : list T1) : list T1 :=
  for_range 0 (nz m) (fun i r =>
    if (lam m).[i] >? 0 then <[i := (ubz m).[i] - (z m).[i]]> r
    else if (lam m).[i] <? 0 then <[i := (lbz m).[i] - (z m).[i]]> r
    else if (i <? nx m)%nat then <[i := (lam m).[i] - (infeas m).[i]]> r
    else <[i := (lam m).[i]]> r) r.

(** Returns [ret] and the values of [*index] and [*sign]. *)
Definition casadi_qp_zero_blocking m (e : T1) index sign : bool * Z * Z :=
  let dz_max := 0 in
  for_range 0 (nz m) (fun i '(ret, index, sign) =>
    if (- (dz m).[i] >? dz_max) && ((z m).[i] <=? (lbz m).[i] - e) then
      (true, Z.of_nat i, (-1)%Z)
    else if ((dz m).[i] >? dz_max) && ((z m).[i] >=? (ubz m).[i] + e) then
      (true, Z.of_nat i, 1%Z)
    else (ret, index, sign)) (false, index, sign).

(** The loop over all primal variables of [casadi_qp_primal_blocking]; it
    is left as soon as [tau <= 0]. *)
Fixpoint primal_blocking_loop (e : T1) (l : list nat) m index sign
    : casadi_qp_mem T1 * Z * Z :=
  match l with
  | [] => (m, index, sign)
  | i :: l =>
    if (dz m).[i] == 0 then primal_blocking_loop e l m index sign (* Skip zero steps *)
    else
      (* Trial primal step *)
      let trial_z := (z m).[i] + tau m * (dz m).[i] in
      let '(m, index, sign) :=
        if ((dz m).[i] <? 0) && (trial_z <? (lbz m).[i] - e) then
          (* Trial would increase maximum infeasibility *)
          (set_tau m (((lbz m).[i] - e - (z m).[i]) / (dz m).[i]),
           if (lam m).[i] <? 0 then (-1)%Z else Z.of_nat i, (-1)%Z)
        else if ((dz m).[i] >? 0) && (trial_z >? (ubz m).[i] + e) then
          (* Trial would increase maximum infeasibility *)
          (set_tau m (((ubz m).[i] + e - (z m).[i]) / (dz m).[i]),
           if (lam m).[i] >? 0 then (-1)%Z else Z.of_nat i, 1%Z)
        else (m, index, sign) in
      if tau m <=? 0 then (m, index, sign)
      else primal_blocking_loop e l m index sign
  end.

Definition casadi_qp_primal_blocking m (e : T1) index sign : casadi_qp_mem T1 * Z * Z :=
  (* Check if violation with tau=0 and not improving *)
  let '(ret, index, sign) := casadi_qp_zero_blocking m e index sign in
  if ret then (set_tau m 0, index, sign)
  else primal_blocking_loop e (seq 0 (nz m)) m index sign.

(** [for (loc = 0; loc < n_tau - 1; ++loc) if (new_tau < tau_list[loc]) break;]
    started at [loc] with [n] rounds left; returns the final [loc]. *)
Fixpoint dual_breakpoints_loc (new_tau : T1) (tau_list : list T1) (loc n : nat) : nat :=
  match n with
  | O => loc
  | S n => if new_tau <? tau_list.[loc] then loc
           else dual_breakpoints_loc new_tau tau_list (loc + 1) n
  end.

(** Returns [tau_list], [ind_list] and [n_tau]. *)
Definition casadi_qp_dual_breakpoints m (tau_list : list T1) (ind_list : list Z)
    (e tau : T1) : list T1 * list Z * nat :=
  (* Dual feasibility is piecewise linear. Start with one interval [0,tau]: *)
  let tau_list := <[0%nat := tau]> tau_list in
  let ind_list := <[0%nat := (-1)%Z]> ind_list in (* no associated index *)
  let n_tau := 1%nat in
  (* Find the taus corresponding to lam crossing zero and insert into list *)
  for_range 0 (nz m) (fun i '(tau_list, ind_list, n_tau) =>
    if (dlam m).[i] == 0 then (tau_list, ind_list, n_tau) (* Skip zero steps *)
    else if (lam m).[i] == 0 then (tau_list, ind_list, n_tau) (* Skip inactive constraints *)
    else
      (* Trial dual step *)
      let trial_lam := (lam m).[i] + tau * (dlam m).[i] in
      (* Skip if no sign change *)
      if (if (lam m).[i] >? 0 then trial_lam >=? 0 else trial_lam <=? 0)
      then (tau_list, ind_list, n_tau)
      else
        (* Location of the sign change *)
        let new_tau := - (lam m).[i] / (dlam m).[i] in
        (* Where to insert the w[i] *)
        let loc := dual_breakpoints_loc new_tau tau_list 0 (n_tau - 1) in
        (* Insert element *)
        let n_tau := (n_tau + 1)%nat in
        let '(tau_list, ind_list, _, _) :=
          for_range loc n_tau (fun j '(tau_list, ind_list, next_tau, next_ind) =>
            let tmp_tau := tau_list.[j] in
            let tau_list := <[j := next_tau]> tau_list in
            let tmp_ind := rd 0%Z ind_list j in
            let ind_list := <[j := next_ind]> ind_list in
            (tau_list, ind_list, tmp_tau, tmp_ind))
            (tau_list, ind_list, new_tau, Z.of_nat i) in
        (tau_list, ind_list, n_tau)) (tau_list, ind_list, n_tau).

(** The loop over the breakpoints of [casadi_qp_dual_blocking]; it is left
    at a dual blocking constraint and at the last breakpoint. *)
Fixpoint dual_blocking_loop (e : T1) (js : list nat) m (tau_k : T1) (du_index : Z)
    : casadi_qp_mem T1 * Z :=
  match js with
  | [] => (m, du_index)
  | j :: js =>
    (* Distance to the next tau (may be zero) *)
    let dtau := (w m).[j] - tau_k in
    (* Check if maximum dual infeasibilty gets exceeded *)
    let '(m, du_index) :=
      for_range 0 (nx m) (fun k '(m, du_index) =>
        let new_infeas := (infeas m).[k] + dtau * (tinfeas m).[k] in
        if fabs new_infeas >? e then
          let tau1 := fmax 0 (tau_k + ((if new_infeas >? 0 then e else - e)
                                       - (infeas m).[k]) / (tinfeas m).[k]) in
          if tau1 <? tau m then
            (* Smallest tau found so far *)
            (set_tau m tau1, Z.of_nat k)
          else (m, du_index)
        else (m, du_index)) (m, du_index) in
    (* Update infeasibility *)
    let m := set_infeas m (casadi_axpy (nx m) (fmin (tau m - tau_k) dtau)
                                       (tinfeas m) (infeas m)) in
    (* Stop here if dual blocking constraint *)
    if (du_index >=? 0)%Z then (m, du_index)
    else
      (* Continue to the next tau *)
      let tau_k := (w m).[j] in
      (* Get component, break if last *)
      let i := rd 0%Z (iw m) j in
      if (i <? 0)%Z then (m, du_index)
      else
        let i := Z.to_nat i in
        (* Update sign or tinfeas *)
        let m :=
          if negb (rd false (neverzero m) i) then
            (* lam becomes zero, update the infeasibility tangent *)
            if (i <? nx m)%nat then
              (* Set a lam_x to zero *)
              set_tinfeas m (<[i := (tinfeas m).[i] - (dlam m).[i]]> (tinfeas m))
            else
              (* Set a lam_a to zero *)
              for_col (sp_at m) (i - nx m) (fun k m =>
                set_tinfeas m (<[sp_row (sp_at m) k :=
                                   (tinfeas m).[sp_row (sp_at m) k]
                                   - (nz_at m).[k] * (dlam m).[i]]> (tinfeas m))) m
          else m in
        dual_blocking_loop e js m tau_k du_index
  end.

(** Returns the memory and the index of the dual blocking constraint. *)
Definition casadi_qp_dual_blocking m (e : T1) : casadi_qp_mem T1 * Z :=
  (* Dual feasibility is piecewise linear in tau. Get the intervals: *)
  let '(tau_list, ind_list, n_tau) :=
    casadi_qp_dual_breakpoints m (w m) (iw m) e (tau m) in
  let m := set_iw (set_w m tau_list) ind_list in
  (* No dual blocking yet; how long step can we take without exceeding e? *)
  dual_blocking_loop e (seq 0 n_tau) m 0 (-1)%Z.

Definition casadi_qp_take_step m : casadi_qp_mem T1 :=
  (* Get current sign *)
  let m := for_range 0 (nz m) (fun i m =>
             set_iw m (<[i := if (lam m).[i] >? 0 then 1%Z
                              else if (lam m).[i] <? 0 then (-1)%Z else 0%Z]> (iw m))) m in
  (* Take primal-dual step *)
  let m := set_z m (casadi_axpy (nz m) (tau m) (dz m) (z m)) in
  let m := set_lam m (casadi_axpy (nz m) (tau m) (dlam m) (lam m)) in
  (* Update sign *)
  for_range 0 (nz m) (fun i m =>
    (* Allow sign changes for certain components *)
    let m :=
      if rd false (neverzero m) i
         && (if (rd 0%Z (iw m) i <? 0)%Z then (lam m).[i] >? 0 else (lam m).[i] <? 0)
      then set_iw m (<[i := (- rd 0%Z (iw m) i)%Z]> (iw m))
      else m in
    (* Ensure correct sign *)
    match rd 0%Z (iw m) i with
    | (-1)%Z => set_lam m (<[i := fmin ((lam m).[i]) (- dmin m)]> (lam m))
    | 1%Z => set_lam m (<[i := fmax ((lam m).[i]) (dmin m)]> (lam m))
    | 0%Z => set_lam m (<[i := 0]> (lam m))
    | _ => m
    end) m.

(** Returns the memory, [ret] and the values of [*r_index] and [*r_sign]. *)
Definition casadi_qp_flip_check m (index : nat) sign r_index r_sign (e : T1)
    : casadi_qp_mem T1 * Z * Z * Z :=
  (* New column that we're trying to add *)
  let m := set_dz m (casadi_qp_kkt_column m (dz m) index sign) in
  (* Express it using the other columns *)
  let '(x, w') := casadi_qr_solve (dz m) 1 0 (sp_v m) (nz_v m) (sp_r m) (nz_r m) (beta m)
                                  (prinv m) (pc m) (w m) in
  let m := set_w (set_dz m x) w' in
  (* Quick return if columns are linearly independent *)
  if fabs ((dz m).[index]) >=? S1em12 then (m, 0%Z, r_index, r_sign)
  else
    (* Column that we're removing *)
    let m := set_w m (casadi_qp_kkt_column m (w m) index (if (sign =? 0)%Z then 1%Z else 0%Z)) in
    (* Find best constraint we can flip, if any *)
    let '(best_slack, r_index, r_sign) :=
      for_range 0 (nz m) (fun i '(best_slack, r_index, r_sign) =>
        let skip := (best_slack, r_index, r_sign) in
        (* Can't be the same *)
        if (i =? index)%nat then skip
        (* Make sure constraint is flippable *)
        else if (if (lam m).[i] == 0
                 then rd false (neverlower m) i && rd false (neverupper m) i
                 else rd false (neverzero m) i) then skip
        (* If dz[i]!=0, column i is redundant *)
        else if fabs ((dz m).[i]) <? S1em12 then skip
        (* The flipped column i must not be orthogonal to (old) column[index] *)
        else if fabs (casadi_qp_kkt_dot m (w m) i (if (lam m).[i] == 0 then 1%Z else 0%Z))
                <? S1em12 then skip
        else
          let best new_slack new_sign :=
            (* Best so far? *)
            if new_slack >? best_slack then (new_slack, Z.of_nat i, new_sign) else skip in
          if (lam m).[i] == 0 then
            (* Which bound is closer? *)
            let new_sign := if (lbz m).[i] - (z m).[i] >=? (z m).[i] - (ubz m).[i]
                            then (-1)%Z else 1%Z in
            (* Better than negative slack, worse than positive slack *)
            best 0 new_sign
          else
            (* Skip if flipping would result in too large |du| *)
            if casadi_qp_du_check m i >? e then skip
            else
              (* Slack to the bound *)
              let new_slack := if (lam m).[i] >? 0 then (ubz m).[i] - (z m).[i]
                               else (z m).[i] - (lbz m).[i] in
              best new_slack 0%Z) (- casadi_inf, (-1)%Z, 0%Z) in
    (* Accept, if any *)
    (m, if (r_index >=? 0)%Z then 0%Z else 1%Z, r_index, r_sign).

Definition casadi_qp_factorize m : casadi_qp_mem T1 :=
  (* Construct the KKT matrix *)
  let m := casadi_qp_kkt m in
  (* QR factorization *)
  let '(w', v, r, b) := casadi_qr (sp_kkt m) (nz_kkt m) (w m) (sp_v m) (nz_v m) (sp_r m)
                                  (nz_r m) (beta m) (prinv m) (pc m) in
  let m := set_beta (set_nz_r (set_nz_v (set_w m w') v) r) b in
  (* Check singularity *)
  let '(mina', imina', nullity) := casadi_qr_singular (nz_r m) (sp_r m) (pc m) S1em12 in
  set_sing (set_imina (set_mina m mina') imina') nullity.

(** The body of the loop over [i] of [casadi_qp_scale_step]: the candidate
    flips of index [i] for the null-space vector held in [w]; the state is
    [tau], [*r_index] and [*r_sign]. *)
Definition scale_step_candidate m (terr : T1) (pos_ok neg_ok : bool) (i : nat)
    (st : T1 * Z * Z) : T1 * Z * Z :=
  (* Check if old column can be removed without decreasing rank *)
  if fabs (if (i <? nx m)%nat then (dz m).[i] else (dlam m).[i]) <? S1em12 then st
  (* If dot(w, kkt(i)-kkt_flipped(i))==0, rank won't increase *)
  else if fabs (casadi_qp_kkt_dot m (w m) i 0%Z - casadi_qp_kkt_dot m (w m) i 1%Z)
          <? S1em12 then st
  (* Is constraint active? *)
  else if (lam m).[i] == 0 then
    (* Make sure that step is nonzero *)
    if fabs ((dz m).[i]) <? S1em12 then st
    else
      let bound (never : bool) (b : T1) (s : Z) (st : T1 * Z * Z) : T1 * Z * Z :=
        let '(tau, _, _) := st in
        if negb never then
          let tau_test := (b - (z m).[i]) / (dz m).[i] in
          (* Ensure nonincrease in max(pr, du) *)
          if negb (((terr >? 0) && (tau_test >? 0)) || ((terr <? 0) && (tau_test <? 0))) then
            (* Only allow removing constraints if tau_test==0 *)
            if fabs tau_test >=? S1em16 then
              (* Check if best so far *)
              if fabs tau_test <? fabs tau then (tau_test, Z.of_nat i, s) else st
            else st
          else st
        else st in
      (* Step needed to bring z to lower bound *)
      let st := bound (rd false (neverlower m) i) ((lbz m).[i]) (-1)%Z st in
      (* Step needed to bring z to upper bound *)
      bound (rd false (neverupper m) i) ((ubz m).[i]) 1%Z st
  else
    (* Make sure that step is nonzero *)
    if fabs ((dlam m).[i]) <? S1em12 then st
    (* Step needed to bring lam to zero *)
    else if negb (rd false (neverzero m) i) then
      let '(tau, _, _) := st in
      let tau_test := - (lam m).[i] / (dlam m).[i] in
      (* Ensure nonincrease in max(pr, du) *)
      if ((terr >? 0) && (tau_test >? 0)) || ((terr <? 0) && (tau_test <? 0)) then st
      (* Make sure direction is permitted *)
      else if ((tau_test >? 0) && negb pos_ok) || ((tau_test <? 0) && negb neg_ok) then st
      (* Check if best so far *)
      else if fabs tau_test <? fabs tau then (tau_test, Z.of_nat i, 0%Z) else st
    else st.

(** Returns the memory, the return value and the values of [*r_index] and
    [*r_sign]; [None] when [lam[ipr]] is read with [ipr < 0].

    In [eval] the array [nz_r] lies in the buffer that [nz_v] points to, so
    the transposition into [nz_v] may overwrite it; the factorization that
    follows computes both anew. *)
Definition casadi_qp_scale_step m : option (casadi_qp_mem T1 * Z * Z * Z) :=
  (* Reset r_index, r_sign, quick return if non-singular *)
  let r_index := (-1)%Z in
  let r_sign := 0%Z in
  if (sing m =? 0)%Z then Some (m, 0%Z, r_index, r_sign)
  else
    (* Change in pr, du in the search direction *)
    let tpr := if (ipr m <? 0)%Z then 0
               else let i := Z.to_nat (ipr m) in
                    if (z m).[i] >? (ubz m).[i] then (dz m).[i] / pr m
                    else - (dz m).[i] / pr m in
    let tdu := if (idu m <? 0)%Z then 0
               else let i := Z.to_nat (idu m) in (tinfeas m).[i] / (infeas m).[i] in
    (* Change in max(pr, du) in the search direction *)
    let '(pos_ok, neg_ok, terr) :=
      if pr m >? du m then
        (* |pr|>|du| *)
        if tpr <? 0 then (true, false, tpr)
        else if tpr >? 0 then (false, true, tpr)
        else (true, true, tpr)
      else if pr m <? du m then
        (* |pr|<|du| *)
        if tdu <? 0 then (true, false, tdu)
        else if tdu >? 0 then (false, true, tdu)
        else (true, true, tdu)
      else
        (* |pr|==|du| *)
        if ((tpr >? 0) && (tdu <? 0)) || ((tpr <? 0) && (tdu >? 0)) then
          (* |pr|==|du| cannot be decreased along the search direction *)
          (false, false, 0)
        else if fmin tpr tdu <? 0 then
          (* |pr|==|du| decreases for positive tau *)
          (true, false, fmax tpr tdu)
        else if fmax tpr tdu >? 0 then
          (* |pr|==|du| decreases for negative tau *)
          (false, true, fmin tpr tdu)
        else (true, true, 0) in
    (* If primal error is dominating and constraint is active,
       then only allow the multiplier to become larger *)
    '(pos_ok, neg_ok) ←
      (if du_to_pr m * pr m >=? du m then
         i ← index_of (ipr m);
         if ((lam m).[i] != 0) && (fabs ((dlam m).[i]) >? S1em12) then
           if Bool.eqb ((lam m).[i] >? 0) ((dlam m).[i] >? 0)
           then Some (pos_ok, false) else Some (false, neg_ok)
         else Some (pos_ok, neg_ok)
       else Some (pos_ok, neg_ok));
    (* QR factorization of the transpose *)
    let '(v, iw') := casadi_trans (nz_kkt m) (sp_kkt m) (nz_v m) (sp_kkt m) (iw m) in
    let m := set_iw (set_nz_v m v) iw' in
    let nnz_kkt := sp_colind (sp_kkt m) (nz m) in (* kkt_colind[nz] *)
    let m := set_nz_kkt m (casadi_copy (nz_v m) nnz_kkt (nz_kkt m)) in
    let '(w', v, r, b) := casadi_qr (sp_kkt m) (nz_kkt m) (w m) (sp_v m) (nz_v m) (sp_r m)
                                    (nz_r m) (beta m) (prinv m) (pc m) in
    let m := set_beta (set_nz_r (set_nz_v (set_w m w') v) r) b in
    (* Best flip *)
    let tau := inf m in
    (* For all nullspace vectors *)
    let '(minat_tr, imina_tr, nullity_tr) :=
      casadi_qr_singular (nz_r m) (sp_r m) (pc m) S1em12 in
    let '(m, (tau, r_index, r_sign)) :=
      for_range 0 (Z.to_nat nullity_tr) (fun nulli '(m, st) =>
        (* Get a linear combination of the rows in kkt *)
        let m := set_w m (casadi_qr_colcomb (w m) (nz_r m) (sp_r m) (pc m) imina_tr
                                            (Z.of_nat nulli)) in
        (* Look for the best constraint for increasing rank *)
        (m, for_range 0 (nz m) (scale_step_candidate m terr pos_ok neg_ok) st))
        (m, (tau, r_index, r_sign)) in
    (* Can we restore feasibility? *)
    if (r_index <? 0)%Z then Some (m, 1%Z, r_index, r_sign)
    else
      (* Scale step so that that tau=1 corresponds to a full step *)
      let m := set_dz m (casadi_scal (nz m) tau (dz m)) in
      let m := set_dlam m (casadi_scal (nz m) tau (dlam m)) in
      let m := set_tinfeas m (casadi_scal (nx m) tau (tinfeas m)) in
      Some (m, 0%Z, r_index, r_sign).

(** The first part of [casadi_qp_calc_step], up to the call of
    [casadi_qp_scale_step]: the search direction [dz], [dlam] and the
    tangent [tinfeas], in four stages that follow the source's comments. *)
Definition calc_step_solve m : casadi_qp_mem T1 :=
  (* Calculate step in z[:nx] and lam[nx:] *)
  if (sing m =? 0)%Z then
    (* Negative KKT residual *)
    let m := set_dz m (casadi_qp_kkt_residual m (dz m)) in
    (* Solve to get primal-dual step *)
    let '(x, w') := casadi_qr_solve (dz m) 1 1 (sp_v m) (nz_v m) (sp_r m) (nz_r m)
                                    (beta m) (prinv m) (pc m) (w m) in
    set_w (set_dz m x) w'
  else
    (* Get a linear combination of the columns in KKT *)
    set_dz m (casadi_qr_colcomb (dz m) (nz_r m) (sp_r m) (pc m) (imina m) 0).

Definition calc_step_dlam m : casadi_qp_mem T1 :=
  (* Calculate change in Lagrangian gradient *)
  let m := set_dlam m (casadi_fill (dlam m) (nx m) 0) in
  let m := set_dlam m (casadi_mv (nz_h m) (sp_h m) (dz m) (dlam m) false) in
  let m := set_dlam m (casadi_mv (nz_a m) (sp_a m) (drop (nx m) (dz m)) (dlam m) true) in
  (* Step in lam[:nx] *)
  let m := set_dlam m (casadi_scal (nx m) (- (1)) (dlam m)) in
  (* For inactive constraints, lam(x) step is zero *)
  let m := for_range 0 (nx m) (fun i m =>
             if (lam m).[i] == 0 then set_dlam m (<[i := 0]> (dlam m)) else m) m in
  (* Step in lam[nx:] *)
  set_dlam m (at_offset (nx m) (dlam m)
                (fun y => casadi_copy (drop (nx m) (dz m)) (na m) y)).

Definition calc_step_dz m : casadi_qp_mem T1 :=
  (* Step in z[nx:] *)
  let m := set_dz m (at_offset (nx m) (dz m) (fun y => casadi_fill y (na m) 0)) in
  let m := set_dz m (at_offset (nx m) (dz m)
                       (fun y => casadi_mv (nz_a m) (sp_a m) (dz m) y false)) in
  (* Avoid steps that are nonzero due to numerics *)
  for_range 0 (nz m) (fun i m =>
    if fabs ((dz m).[i]) <? S1em14 then set_dz m (<[i := 0]> (dz m)) else m) m.

Definition calc_step_tinfeas m : casadi_qp_mem T1 :=
  (* Tangent of the dual infeasibility at tau=0 *)
  let m := set_tinfeas m (casadi_fill (tinfeas m) (nx m) 0) in
  let m := set_tinfeas m (casadi_mv (nz_h m) (sp_h m) (dz m) (tinfeas m) false) in
  let m := set_tinfeas m (casadi_mv (nz_a m) (sp_a m) (drop (nx m) (dlam m))
                                    (tinfeas m) true) in
  set_tinfeas m (casadi_axpy (nx m) 1 (dlam m) (tinfeas m)).

Definition calc_step_direction m : casadi_qp_mem T1 :=
  calc_step_tinfeas (calc_step_dz (calc_step_dlam (calc_step_solve m))).

(** Returns the memory, the return value and the values of [*r_index] and
    [*r_sign]. *)
Definition casadi_qp_calc_step m : option (casadi_qp_mem T1 * Z * Z * Z) :=
  let m := calc_step_direction m in
  (* Calculate step length *)
  casadi_qp_scale_step m.

Definition casadi_qp_calc_dependent m : casadi_qp_mem T1 :=
  (* Calculate f *)
  let m := set_f m (casadi_bilin (nz_h m) (sp_h m) (z m) (z m) / Stwo
                    + casadi_dot (nx m) (z m) (g m)) in
  (* Calculate z[nx:] *)
  let m := set_z m (at_offset (nx m) (z m) (fun y => casadi_fill y (na m) 0)) in
  let m := set_z m (at_offset (nx m) (z m)
                      (fun y => casadi_mv (nz_a m) (sp_a m) (z m) y false)) in
  (* Calculate gradient of the Lagrangian *)
  let m := set_infeas m (casadi_copy (g m) (nx m) (infeas m)) in
  let m := set_infeas m (casadi_mv (nz_h m) (sp_h m) (z m) (infeas m) false) in
  let m := set_infeas m (casadi_mv (nz_a m) (sp_a m) (drop (nx m) (lam m))
                                   (infeas m) true) in
  (* Calculate lam[:nx] without changing the sign, dual infeasibility *)
  let m := for_range 0 (nx m) (fun i m =>
             let m :=
               if (lam m).[i] >? 0 then
                 set_lam m (<[i := fmax (- (infeas m).[i]) (dmin m)]> (lam m))
               else if (lam m).[i] <? 0 then
                 set_lam m (<[i := fmin (- (infeas m).[i]) (- dmin m)]> (lam m))
               else m in
             set_infeas m (<[i := (infeas m).[i] + (lam m).[i]]> (infeas m))) m in
  (* Calculate primal and dual error *)
  let m := casadi_qp_pr m in
  casadi_qp_du m.

(** Returns the memory and the values of [*index] and [*sign]. *)
Definition casadi_qp_linesearch m : casadi_qp_mem T1 * Z * Z :=
  (* Start with a full step and no active set change *)
  let sign := 0%Z in
  let index := (-1)%Z in
  let m := set_tau m 1 in
  (* Find largest possible step without exceeding acceptable |pr| *)
  let '(m, index, sign) :=
    casadi_qp_primal_blocking m (fmax (pr m) (du m / du_to_pr m)) index sign in
  (* Find largest possible step without exceeding acceptable |du| *)
  let '(m, du_index) := casadi_qp_dual_blocking m (fmax (pr m * du_to_pr m) (du m)) in
  let '(index, sign) := if (du_index >=? 0)%Z then ((-1)%Z, 0%Z) else (index, sign) in
  (* Take primal-dual step, avoiding accidental sign changes for lam *)
  (casadi_qp_take_step m, index, sign).

(** [sign==0 ? 0 : sign>0 ? dmin : -dmin] *)
Definition signed_dmin m sign : T1 :=
  if (sign =? 0)%Z then 0 else if (sign >? 0)%Z then dmin m else - dmin m.

(** Returns the memory and the values of [*index] and [*sign]. *)
Definition casadi_qp_flip m index sign r_index r_sign : option (casadi_qp_mem T1 * Z * Z) :=
  (* acceptable dual error *)
  let e := fmax (du_to_pr m * pr m) (du m) in
  (* Try to restore regularity if possible *)
  let '(index, sign) :=
    if (r_index >=? 0)%Z
       && (negb (r_sign =? 0)%Z || (casadi_qp_du_check m (Z.to_nat r_index) <=? e))
    then (r_index, r_sign) else (index, sign) in
  (* Improve primal or dual feasibility *)
  '(m, index, sign) ←
    (if (index =? -1)%Z && (tau m >? S1em16) && ((ipr m >=? 0)%Z || (idu m >=? 0)%Z) then
       if du_to_pr m * pr m >=? du m then
         (* Try to improve primal feasibility *)
         '(index, sign) ← casadi_qp_pr_index m sign; Some (m, index, sign)
       else
         (* Try to improve dual feasibility *)
         casadi_qp_du_index m sign
     else Some (m, index, sign));
  (* If a constraint was added *)
  if (index >=? 0)%Z then
    (* Try to maintain non-singularity if possible *)
    let m :=
      if (sing m =? 0)%Z then
        let '(m, ret, r_index, r_sign) :=
          casadi_qp_flip_check m (Z.to_nat index) sign r_index r_sign e in
        if negb (ret =? 0)%Z then
          if (r_index >=? 0)%Z then
            (* Also flip r_index to avoid singularity *)
            set_lam m (<[Z.to_nat r_index := signed_dmin m r_sign]> (lam m))
          else m
        else m
      else m in
    let m := set_lam m (<[Z.to_nat index := signed_dmin m sign]> (lam m)) in
    (* Recalculate primal and dual infeasibility *)
    let m := casadi_qp_calc_dependent m in
    (* Reset index *)
    Some (m, (-2)%Z, sign)
  else Some (m, index, sign).
End Kernels.

(** ** The driver: [ConicActiveSet::eval]

    The members of the solver object that [eval] reads.  The sparsity
    patterns [AT_], [kkt_], [sp_v_], [sp_r_] and the permutations are computed
    by the framework in [init]. *)

Record ConicActiveSet : Type := {
  nx_ : nat;
  na_ : nat;
  H_ : sparsity;
  A_ : sparsity;
  AT_ : sparsity;
  kkt_ : sparsity;
  sp_v_ : sparsity;
  sp_r_ : sparsity;
  prinv_ : list Z;
  pc_ : list Z;
  max_iter_ : Z;
  tol_ : double;
  print_iter_ : bool;
  print_header_ : bool;
  du_to_pr_ : double;
  inputs_check_ : bool;
  verbose_ : bool
}.

(** The inputs [arg[CONIC_*]] and the outputs [res[CONIC_*]]. *)
Record conic_arg : Type := {
  CONIC_H : list double;
  CONIC_G : list double;
  CONIC_A : list double;
  CONIC_LBA : list double;
  CONIC_UBA : list double;
  CONIC_LBX : list double;
  CONIC_UBX : list double;
  CONIC_X0 : list double;
  CONIC_LAM_X0 : list double;
  CONIC_LAM_A0 : list double
}.

Record conic_res : Type := {
  CONIC_X : list double;
  CONIC_COST : double;
  CONIC_LAM_A : list double;
  CONIC_LAM_X : list double
}.

(** The input check of the base class, [Conic::check_inputs(lbx, ubx, lba, uba)],
    is not part of the solver's source file: [true] when it returns, [false]
    when it raises an error. *)
Class InputCheck : Type := {
  check_inputs : list double -> list double -> list double -> list double -> bool
}.

(** The work vector [w] that [eval] receives holds whatever its caller has
    left there: [w_entry k] is the content of [w[k]] when [eval] is entered. *)
Class WorkVector : Type := {
  w_entry : nat -> double
}.

Inductive error : Type :=
| Inputs_rejected                    (* raised by check_inputs *)
| No_sign_possible_for (i : nat).    (* "No sign possible for " + str(i) *)

Inductive eval_result : Type :=
| Threw (e : error)                       (* an exception leaves eval *)
| Fault                                   (* an array is read at a negative index *)
| Returned (flag : Z) (res : conic_res).  (* return flag *)

(** The variables of [eval] that live across the iterations. *)
Record locals : Type := {
  qp_m : casadi_qp_mem double;
  index : Z;
  sign : Z;
  r_index : Z;
  r_sign : Z;
  iter : Z
}.

(** One pass through the body of [while (true)]. *)
Inductive pass : Type :=
| Next (s : locals)               (* the end of the body is reached *)
| Break (flag : Z) (s : locals)   (* the loop is left by [break] *)
| Faulted.

Section Driver.
Context `{LinAlg double} `{InputCheck} `{WorkVector}.
Local Open Scope sc_scope.

(** The permitted signs of [lam[i]] and the corrected [lam[i]]: the body
    of the loop "Correct lam if needed, determine permitted signs". *)
Definition permitted_signs (lbz ubz z : list double) (i : nat)
    (st : list double * list bool * list bool * list bool)
    : error + list double * list bool * list bool * list bool :=
  let '(lam, neverzero, neverupper, neverlower) := st in
  (* Permitted signs for lam *)
  let neverzero := <[i := lbz.[i] == ubz.[i]]> neverzero in
  let neverupper := <[i := isinf (ubz.[i])]> neverupper in
  let neverlower := <[i := isinf (lbz.[i])]> neverlower in
  if negb (negb (rd false neverzero i) || negb (rd false neverupper i)
           || negb (rd false neverlower i))
  then inl (No_sign_possible_for i)
  else
    (* Correct initial active set if required *)
    let lam :=
      if rd false neverzero i && (lam.[i] == 0) then
        <[i := if rd false neverupper i || (z.[i] - lbz.[i] <=? ubz.[i] - z.[i])
               then - DMIN else DMIN]> lam
      else if rd false neverupper i && (lam.[i] >? 0) then
        <[i := if rd false neverzero i then - DMIN else 0]> lam
      else if rd false neverlower i && (lam.[i] <? 0) then
        <[i := if rd false neverzero i then DMIN else 0]> lam
      else lam in
    inr (lam, neverzero, neverupper, neverlower).

Fixpoint permitted_signs_loop (lbz ubz z : list double) (l : list nat)
    (st : list double * list bool * list bool * list bool)
    : error + list double * list bool * list bool * list bool :=
  match l with
  | [] => inr st
  | i :: l =>
    match permitted_signs lbz ubz z i st with
    | inl e => inl e
    | inr st => permitted_signs_loop lbz ubz z l st
    end
  end.

Definition loop_body (S : ConicActiveSet) (s : locals) : pass :=
  (* Calculate dependent quantities *)
  let m := casadi_qp_calc_dependent (qp_m s) in
  (* Make an active set change *)
  match casadi_qp_flip m (index s) (sign s) (r_index s) (r_sign s) with
  | None => Faulted
  | Some (m, index, sign) =>
    (* Form and factorize the KKT system *)
    let m := casadi_qp_factorize m in
    let s := {| qp_m := m; index := index; sign := sign;
                r_index := r_index s; r_sign := r_sign s; iter := iter s |} in
    (* Successful return if still no change *)
    if (index =? -1)%Z then Break 0 s
    (* Too many iterations? *)
    else if (iter s >=? max_iter_ S)%Z then Break 1 s
    else
      (* Start new iteration *)
      let iter := (iter s + 1)%Z in
      (* Calculate search direction *)
      match casadi_qp_calc_step m with
      | None => Faulted
      | Some (m, ret, r_index, r_sign) =>
        if negb (ret =? 0)%Z then
          Break 1 {| qp_m := m; index := index; sign := sign;
                     r_index := r_index; r_sign := r_sign; iter := iter |}
        else
          (* Line search in the calculated direction *)
          let '(m, index, sign) := casadi_qp_linesearch m in
          Next {| qp_m := m; index := index; sign := sign;
                  r_index := r_index; r_sign := r_sign; iter := iter |}
      end
  end.

(** [while (true)], unrolled at most [fuel] times: [None] when the fuel
    runs out, [Some None] after a fault, and the flag with the variables at
    the [break] otherwise. *)
Fixpoint qp_iterations (fuel : nat) (S : ConicActiveSet) (s : locals)
    : option (option (Z * locals)) :=
  match fuel with
  | O => None
  | Datatypes.S fuel =>
    match loop_body S s with
    | Next s => qp_iterations fuel S s
    | Break flag s => Some (Some (flag, s))
    | Faulted => Some None
    end
  end.

(** The stacked bounds and the initial guess, as [eval] copies them into
    its work vectors.  The vectors that are written before they are read are
    taken to hold zeros at first; [z] is not: [z[nx..nx+na)] is read in the
    correction of [lam] before anything is stored there, so that [z] starts
    with the [nx + na] entries of [w] behind the nonzeros of the KKT matrix
    ([z = w + kkt_.nnz()]). *)
Definition zeros (n : nat) : list double := replicate n 0.

Definition uninitialised (offset n : nat) : list double :=
  map (fun i => w_entry (offset + i)%nat) (seq 0 n).

Definition eval_lbz (S : ConicActiveSet) (arg : conic_arg) : list double :=
  let lbz := casadi_copy (CONIC_LBX arg) (nx_ S) (zeros (nx_ S + na_ S)) in
  at_offset (nx_ S) lbz (casadi_copy (CONIC_LBA arg) (na_ S)).

Definition eval_ubz (S : ConicActiveSet) (arg : conic_arg) : list double :=
  let ubz := casadi_copy (CONIC_UBX arg) (nx_ S) (zeros (nx_ S + na_ S)) in
  at_offset (nx_ S) ubz (casadi_copy (CONIC_UBA arg) (na_ S)).

Definition eval_z (S : ConicActiveSet) (arg : conic_arg) : list double :=
  casadi_copy (CONIC_X0 arg) (nx_ S) (uninitialised (nnz (kkt_ S)) (nx_ S + na_ S)).

Definition eval_lam (S : ConicActiveSet) (arg : conic_arg) : list double :=
  let lam := casadi_copy (CONIC_LAM_X0 arg) (nx_ S) (zeros (nx_ S + na_ S)) in
  at_offset (nx_ S) lam (casadi_copy (CONIC_LAM_A0 arg) (na_ S)).

(** The state in which the loop is entered: the inputs are checked, the
    work vectors are set up, the permitted signs are determined and the
    memory structure is filled in. *)
Definition eval_init (S : ConicActiveSet) (arg : conic_arg) : error + locals :=
  if inputs_check_ S
     && negb (check_inputs (CONIC_LBX arg) (CONIC_UBX arg) (CONIC_LBA arg) (CONIC_UBA arg))
  then inl Inputs_rejected
  else
    let nx := nx_ S in
    let na := na_ S in
    (* Bounds on z *)
    let lbz := eval_lbz S arg in
    let ubz := eval_ubz S arg in
    (* Pass initial guess *)
    let z := eval_z S arg in
    let lam := eval_lam S arg in
    (* Correct lam if needed, determine permitted signs *)
    let never := replicate (nx + na)%nat false in
    match permitted_signs_loop lbz ubz z (seq 0 (nx + na)%nat) (lam, never, never, never) with
    | inl e => inl e
    | inr (lam, neverzero, neverupper, neverlower) =>
      let iw := replicate (nx + na)%nat 0%Z in
      (* Transpose A *)
      let '(trans_a, iw) :=
        casadi_trans (CONIC_A arg) (A_ S) (zeros (nnz (AT_ S))) (AT_ S) iw in
      (* Setup memory structure *)
      let qp_m := {|
        f := 0;
        nx := nx; na := na; nz := (nx + na)%nat;
        z := z; lam := lam; lbz := lbz; ubz := ubz;
        infeas := zeros nx; tinfeas := zeros nx;
        dz := zeros (nx + na)%nat; dlam := zeros (nx + na)%nat;
        w := zeros (2 * na + 2 * nx)%nat; iw := iw;
        neverzero := neverzero; neverlower := neverlower; neverupper := neverupper;
        (* Sparsity patterns *)
        sp_a := A_ S; sp_h := H_ S; sp_at := AT_ S; sp_kkt := kkt_ S;
        (* Matrix nonzeros *)
        g := CONIC_G arg; nz_a := CONIC_A arg; nz_at := trans_a; nz_h := CONIC_H arg;
        nz_kkt := zeros (nnz (kkt_ S));
        (* QR factorization *)
        nz_v := zeros (Nat.max (nnz (sp_v_ S) + nnz (sp_r_ S))%nat (nnz (kkt_ S)));
        nz_r := zeros (nnz (sp_r_ S));
        sp_v := sp_v_ S; sp_r := sp_r_ S;
        beta := zeros (nx + na)%nat;
        prinv := prinv_ S; pc := pc_ S;
        (* Misc *)
        dmin := DMIN; inf := casadi_inf;
        tau := 0; sing := 0%Z; du_to_pr := du_to_pr_ S;
        mina := 0; imina := 0%Z; pr := 0; du := 0; ipr := 0%Z; idu := 0%Z
      |} in
      (* Constraint to be flipped, if any; QP iterations *)
      inr {| qp_m := qp_m; index := (-2)%Z; sign := 0%Z;
             r_index := (-2)%Z; r_sign := 0%Z; iter := 0%Z |}
    end.

(** What [eval] stores through [res]. *)
Definition eval_outputs (S : ConicActiveSet) (m : casadi_qp_mem double) : conic_res :=
  {| (* Calculate optimal cost *)
     CONIC_COST := f m;
     (* Get solution *)
     CONIC_X := casadi_copy (z m) (nx_ S) (replicate (nx_ S) 0);
     CONIC_LAM_X := casadi_copy (lam m) (nx_ S) (replicate (nx_ S) 0);
     CONIC_LAM_A := casadi_copy (drop (nx_ S) (lam m)) (na_ S) (replicate (na_ S) 0) |}.

Definition eval_fuel (fuel : nat) (S : ConicActiveSet) (arg : conic_arg)
    : option eval_result :=
  match eval_init S arg with
  | inl e => Some (Threw e)
  | inr s =>
    match qp_iterations fuel S s with
    | None => None
    | Some None => Some Fault
    | Some (Some (flag, s)) => Some (Returned flag (eval_outputs S (qp_m s)))
    end
  end.
End Driver.

(** [eval], with the loop unrolled as often as it can be entered: every pass
    that does not leave the loop increments [iter], and the loop is left when
    [iter >= max_iter_]. *)
Definition eval `{LinAlg double} `{InputCheck} `{WorkVector}
    (S : ConicActiveSet) (arg : conic_arg)
    : option eval_result :=
  eval_fuel (Datatypes.S (Z.to_nat (max_iter_ S))) S arg.

(** ** The primitives on problems with a single unknown

    For a 1-by-1 matrix with the entry [k] the factor [R] is [k] itself: the
    system is solved by a division, the matrix is singular when [|k|] is below
    the threshold, and its null space is spanned by the unit vector.  These
    primitives serve to run the solver on concrete problems with [nx + na = 1]. *)

Definition LinAlg_1x1 {T1 : Type} `{Scalar T1} : LinAlg T1 := {|
  casadi_qr := fun sp_a nz_a x sp_v nz_v sp_r nz_r beta prinv pc =>
    (x, <[0%nat := Sone]> nz_v, <[0%nat := rdT nz_a 0]> nz_r, <[0%nat := Szero]> beta);
  casadi_qr_solve := fun x nrhs tr sp_v v sp_r r beta prinv pc w =>
    (<[0%nat := Sdiv (rdT x 0) (rdT r 0)]> x, w);
  casadi_qr_singular := fun nz_r sp_r pc eps =>
    (fabs (rdT nz_r 0), rd 0%Z pc 0, if Sltb (fabs (rdT nz_r 0)) eps then 1%Z else 0%Z);
  casadi_qr_colcomb := fun v nz_r sp_r pc imin ind => <[0%nat := Sone]> v
|}.

(** An input check that accepts every problem. *)
Definition accept_inputs : InputCheck := {| check_inputs := fun _ _ _ _ => true |}.

(** A work vector that is full of zeros when [eval] is entered. *)
Definition zero_work : WorkVector := {| w_entry := fun _ => 0%float |}.

(** The patterns of a problem with one variable and no linear constraint:
    [H] and the KKT matrix are 1-by-1 with one entry, [A] is 0-by-1. *)
Definition sp_1x1 : sparsity := {| nrow := 1; ncol := 1; colind := [0; 1]%nat; row := [0%nat] |}.
Definition sp_0x1 : sparsity := {| nrow := 0; ncol := 1; colind := [0; 0]%nat; row := [] |}.
Definition sp_1x0 : sparsity := {| nrow := 1; ncol := 0; colind := [0%nat]; row := [] |}.

Definition solver_1x1 (max_iter : Z) (inputs_check : bool) : ConicActiveSet := {|
  nx_ := 1; na_ := 0;
  H_ := sp_1x1; A_ := sp_0x1; AT_ := sp_1x0; kkt_ := sp_1x1;
  sp_v_ := sp_1x1; sp_r_ := sp_1x1; prinv_ := [0%Z]; pc_ := [0%Z];
  max_iter_ := max_iter; tol_ := 0x1.5798ee2308c3ap-27%float;
  print_iter_ := true; print_header_ := true; du_to_pr_ := 1000%float;
  inputs_check_ := inputs_check; verbose_ := false
|}.

(** The problem [min h x^2 / 2 + g x] subject to [lbx <= x <= ubx], started
    from [x0] with the multiplier [lam_x0]. *)
Definition problem_1x1 (h g lbx ubx x0 lam_x0 : double) : conic_arg := {|
  CONIC_H := [h]; CONIC_G := [g]; CONIC_A := [];
  CONIC_LBA := []; CONIC_UBA := []; CONIC_LBX := [lbx]; CONIC_UBX := [ubx];
  CONIC_X0 := [x0]; CONIC_LAM_X0 := [lam_x0]; CONIC_LAM_A0 := []
|}.

Arguments problem_1x1 (h g lbx ubx x0 lam_x0)%_float_scope.

(** * Properties

    ** Vocabulary of the statements *)

(** No sign is permitted for [lam[i]]: the three flags that [eval] computes
    for index [i] are all set. *)
Definition no_sign (lbz ubz : list double) (i : nat) : bool :=
  Seqb (rdT lbz i) (rdT ubz i) && isinf (rdT ubz i) && isinf (rdT lbz i).




(** ** The vocabulary of the properties *)

(** *** Multipliers: signs, activity and the dependent quantities *)

Section ActivityVocabulary.
Context {T1 : Type} `{Scalar T1}.
Local Open Scope sc_scope.
Implicit Type m : casadi_qp_mem T1.

(** [lam[i] == 0]: the constraint is inactive; [lam[i] > 0] or [lam[i] < 0]:
    it is active. *)
Definition inactive (x : T1) : Prop := (x == 0) = true.

Definition active (x : T1) : Prop := (0 <? x) = true \/ (x <? 0) = true.

(** The multiplier of an active bound: [-r] moved into the half-line of the
    sign of [l], at distance at least [d] from zero. *)
Definition clamp (d l r : T1) : T1 :=
  if l >? 0 then fmax (- r) d else if l <? 0 then fmin (- r) (- d) else l.

(** [lam[i]>0. ? 1 : lam[i]<0 ? -1 : 0] *)
Definition sign_of (x : T1) : Z := if x >? 0 then 1%Z else if x <? 0 then (-1)%Z else 0%Z.

(** The activity of [x] is also that of [y]. *)
Definition keeps_activity (x y : T1) : Prop :=
  (inactive x -> inactive y) /\ (active x -> active y).

(** The multipliers and what the sign-keeping steps depend on are left as
    they are. *)
Definition same_multipliers m m' : Prop :=
  lam m' = lam m /\ dmin m' = dmin m /\ nz m' = nz m /\ length (iw m') = length (iw m).

(** The value of [f] that [casadi_qp_calc_dependent] computes. *)
Definition dependent_f m : T1 :=
  casadi_bilin (nz_h m) (sp_h m) (z m) (z m) / Stwo + casadi_dot (nx m) (z m) (g m).

(** The vector [z] after "Calculate z[nx:]". *)
Definition dependent_z m : list T1 :=
  let z1 := at_offset (nx m) (z m) (fun y => casadi_fill y (na m) 0) in
  at_offset (nx m) z1 (fun y => casadi_mv (nz_a m) (sp_a m) z1 y false).

(** The vector [infeas] after "Calculate gradient of the Lagrangian". *)
Definition lagrangian_gradient m : list T1 :=
  let r := casadi_copy (g m) (nx m) (infeas m) in
  let r := casadi_mv (nz_h m) (sp_h m) (dependent_z m) r false in
  casadi_mv (nz_a m) (sp_a m) (drop (nx m) (lam m)) r true.

(** The loop "Calculate lam[:nx] without changing the sign, dual
    infeasibility". *)
Definition multiplier_loop (n : nat) m : casadi_qp_mem T1 :=
  for_range 0 n (fun i m =>
    let m :=
      if (lam m).[i] >? 0 then
        set_lam m (<[i := fmax (- (infeas m).[i]) (dmin m)]> (lam m))
      else if (lam m).[i] <? 0 then
        set_lam m (<[i := fmin (- (infeas m).[i]) (- dmin m)]> (lam m))
      else m in
    set_infeas m (<[i := (infeas m).[i] + (lam m).[i]]> (infeas m))) m.

(** The first loop of [casadi_qp_take_step]: "Get current sign". *)
Definition take_step_signs m : casadi_qp_mem T1 :=
  for_range 0 (nz m) (fun i m =>
    set_iw m (<[i := if (lam m).[i] >? 0 then 1%Z
                     else if (lam m).[i] <? 0 then (-1)%Z else 0%Z]> (iw m))) m.

(** The last loop of [casadi_qp_take_step]: "Update sign". *)
Definition take_step_update m : casadi_qp_mem T1 :=
  for_range 0 (nz m) (fun i m =>
    let m :=
      if rd false (neverzero m) i
         && (if (rd 0%Z (iw m) i <? 0)%Z then (lam m).[i] >? 0 else (lam m).[i] <? 0)
      then set_iw m (<[i := (- rd 0%Z (iw m) i)%Z]> (iw m))
      else m in
    match rd 0%Z (iw m) i with
    | (-1)%Z => set_lam m (<[i := fmin ((lam m).[i]) (- dmin m)]> (lam m))
    | 1%Z => set_lam m (<[i := fmax ((lam m).[i]) (dmin m)]> (lam m))
    | 0%Z => set_lam m (<[i := 0]> (lam m))
    | _ => m
    end) m.

End ActivityVocabulary.

(** What the sign-keeping steps need of the comparisons and of [fmax] and
    [fmin]; the laws hold for binary64, NaN and the infinities included. *)
Local Open Scope sc_scope.

Class SignLaws (T : Type) `{Scalar T} : Prop := {
  law_zero_eq : (0 == 0) = true;
  law_pos_nonzero : forall x : T, (0 <? x) = true -> (x == 0) = false;
  law_neg_nonzero : forall x : T, (x <? 0) = true -> (x == 0) = false;
  law_neg_not_pos : forall x : T, (x <? 0) = true -> (0 <? x) = false;
  law_fmax_pos : forall x d : T, (0 <? d) = true -> (0 <? fmax x d) = true;
  law_fmax_ge : forall x d : T, (0 <? d) = true -> (d <=? fmax x d) = true;
  law_fmin_neg : forall x d : T, (0 <? d) = true -> (fmin x (- d) <? 0) = true;
  law_fmin_le : forall x d : T, (0 <? d) = true -> (fmin x (- d) <=? - d) = true
}.

Local Close Scope sc_scope.

(** The sign of a binary64 number in its unpacked form, as a comparison
    with zero sees it. *)
Definition SFpos (x : spec_float) : bool :=
  match x with S754_infinity false | S754_finite false _ _ => true | _ => false end.

Definition SFneg (x : spec_float) : bool :=
  match x with S754_infinity true | S754_finite true _ _ => true | _ => false end.

(** *** Breakpoints of the dual step *)

Section InsertAtVocabulary.
Context {A : Type}.

(** The list [es] with [x] put in front of its element number [loc]. *)
Definition insert_at (loc : nat) (x : A) (es : list A) : list A :=
  take loc es ++ x :: drop loc es.

End InsertAtVocabulary.

Section BreakpointVocabulary.
Context {T1 : Type} `{Scalar T1}.
Local Open Scope sc_scope.
Implicit Type m : casadi_qp_mem T1.





(** No entry of [l] is less than an earlier one, by the comparison [<] of
    the scalars. *)
Definition ordered (l : list T1) : Prop :=
  forall j k x y, (j < k)%nat -> l !! j = Some x -> l !! k = Some y -> (y <? x) = false.

End BreakpointVocabulary.

Local Open Scope sc_scope.

(** The laws of [<] that an insertion into an ordered list relies on. *)
Class OrderLaws (T : Type) `{Scalar T} : Prop := {
  law_lt_irrefl : forall x : T, (x <? x) = false;
  law_lt_trans : forall x y z : T, (x <? y) = true -> (y <? z) = true -> (x <? z) = true
}.

Local Close Scope sc_scope.

(** *** The KKT matrix *)

Section MatrixVocabulary.
Context {T1 : Type} `{Scalar T1}.
Local Open Scope sc_scope.
Implicit Type m : casadi_qp_mem T1.

(** The element in row [r] and column [c] of the matrix with the pattern
    [sp] and the nonzeros [nzv]; zero outside the pattern. *)
Definition entry (nzv : list T1) (sp : sparsity) (r c : nat) : T1 :=
  for_col sp c (fun k v => if bool_decide (sp_row sp k = r) then nzv.[k] else v) 0.

(** Row [r] of column [c] belongs to the pattern. *)
Definition in_pattern (sp : sparsity) (r c : nat) : bool :=
  for_col sp c (fun k b => if bool_decide (sp_row sp k = r) then true else b) false.

(** Row [i] of the KKT matrix of the active set of [lam], at column [c]:
    row [i] of [H A'] or of the identity for [i < nx], row [i] of [-I] or
    row [i - nx] of [A 0] for [i >= nx]. *)
Definition kkt_row_value m (i c : nat) : T1 :=
  if (i <? nx m)%nat then
    if (lam m).[i] == 0 then
      if (c <? nx m)%nat then entry (nz_h m) (sp_h m) i c
      else entry (nz_a m) (sp_a m) (c - nx m) i
    else if (c =? i)%nat then 1 else 0
  else
    if (lam m).[i] == 0 then if (c =? i)%nat then - (1) else 0
    else if (c <? nx m)%nat then entry (nz_a m) (sp_a m) (i - nx m) c else 0.

(** The positions of [w] that [kkt_scatter] writes. *)
Definition scatter_pattern m (i : nat) (is_zero : bool) (p : nat) : bool :=
  if (i <? nx m)%nat then
    if is_zero then
      in_pattern (sp_h m) p i || bool_decide (nx m <= p)%nat && in_pattern (sp_a m) (p - nx m) i
    else bool_decide (p = i)
  else
    if is_zero then bool_decide (p = i) else in_pattern (sp_at m) p (i - nx m).

(** The column [k] belongs to: [colind[c] <= k < colind[c+1]]. *)
Definition in_col (sp : sparsity) (c k : nat) : Prop :=
  (sp_colind sp c <= k < sp_colind sp (c + 1))%nat.

(** What [casadi_qp_kkt] relies on: the sizes of the work vectors, the
    dimensions of the patterns, a symmetric [H], [AT] the transpose of [A],
    and a KKT pattern in compressed-column form that holds every position
    that a row of either kind can occupy. *)
Record kkt_wf m : Prop := {
  wf_w : (nz m <= length (w m))%nat;
  wf_h_rows : forall c k, in_col (sp_h m) c k -> (sp_row (sp_h m) k < nx m)%nat;
  wf_at_rows : forall c k, in_col (sp_at m) c k -> (sp_row (sp_at m) k < nx m)%nat;
  wf_h_sym : forall r c, (r < nx m)%nat -> (c < nx m)%nat ->
    entry (nz_h m) (sp_h m) r c = entry (nz_h m) (sp_h m) c r;
  wf_at : forall r c, (c < nx m)%nat ->
    entry (nz_at m) (sp_at m) c r = entry (nz_a m) (sp_a m) r c;
  wf_kkt_colind : forall i, (i < nz m)%nat ->
    (sp_colind (sp_kkt m) i <= sp_colind (sp_kkt m) (i + 1))%nat;
  wf_kkt_nnz : (sp_colind (sp_kkt m) (nz m) <= length (nz_kkt m))%nat;
  wf_kkt_rows : forall i k, (i < nz m)%nat -> in_col (sp_kkt m) i k ->
    (sp_row (sp_kkt m) k < nz m)%nat;
  wf_kkt_distinct : forall i k k', (i < nz m)%nat ->
    in_col (sp_kkt m) i k -> in_col (sp_kkt m) i k' ->
    sp_row (sp_kkt m) k = sp_row (sp_kkt m) k' -> k = k';
  wf_kkt_covers : forall i b p, (i < nz m)%nat ->
    scatter_pattern m i b p = true -> in_pattern (sp_kkt m) p i = true
}.

End MatrixVocabulary.

(** *** The permitted signs, and concrete problems *)

(** [lam[i]] has a sign that the flags of [i] permit, for every [i]. *)
Definition sign_invariant (m : casadi_qp_mem double) : bool :=
forallb (fun i =>
  (negb (Sltb Szero (rdT (lam m) i)) || negb (rd false (neverupper m) i))
  && (negb (Sltb (rdT (lam m) i) Szero) || negb (rd false (neverlower m) i))
  && (negb (Seqb (rdT (lam m) i) Szero) || negb (rd false (neverzero m) i)))
  (seq 0 (nz m)).

(** The patterns of a problem with two variables, a diagonal [H] and no
    linear constraint. *)
Definition sp_2x2 : sparsity := {| nrow := 2; ncol := 2; colind := [0; 1; 2]%nat; row := [0; 1]%nat |}.

Definition sp_0x2 : sparsity := {| nrow := 0; ncol := 2; colind := [0; 0; 0]%nat; row := [] |}.

Definition sp_2x0 : sparsity := {| nrow := 2; ncol := 0; colind := [0%nat]; row := [] |}.

Definition solver_2x2 (inputs_check : bool) : ConicActiveSet := {|
nx_ := 2; na_ := 0;
H_ := sp_2x2; A_ := sp_0x2; AT_ := sp_2x0; kkt_ := sp_2x2;
sp_v_ := sp_2x2; sp_r_ := sp_2x2; prinv_ := [0; 1]%Z; pc_ := [0; 1]%Z;
max_iter_ := 1000; tol_ := 0x1.5798ee2308c3ap-27%float;
print_iter_ := true; print_header_ := true; du_to_pr_ := 1000%float;
inputs_check_ := inputs_check; verbose_ := false
|}.

(** Two variables with the lower bounds [(1,1)] above the upper bounds [(0,0)]. *)
Definition crossed_bounds : conic_arg := {|
CONIC_H := [1; 1]%float; CONIC_G := [0; 0]%float; CONIC_A := [];
CONIC_LBA := []; CONIC_UBA := [];
CONIC_LBX := [1; 1]%float; CONIC_UBX := [0; 0]%float;
CONIC_X0 := [0; 0]%float; CONIC_LAM_X0 := [0; 0]%float; CONIC_LAM_A0 := []
|}.

(** The pattern of a dense 2-by-2 matrix. *)
Definition sp_2x2_dense : sparsity :=
  {| nrow := 2; ncol := 2; colind := [0; 2; 4]%nat; row := [0; 1; 0; 1]%nat |}.

(** The memory of a problem with one variable and one linear constraint,
    [min h x^2 / 2] subject to bounds on [x] and on [a x], with the work
    vectors of the sizes that [eval] gives them. *)
Definition mem_1x1 {T1 : Type} `{Scalar T1} (h a dmin inf : T1)
    (z lam dlam lbz ubz : list T1) : casadi_qp_mem T1 := {|
  f := Szero;
  nx := 1; na := 1; nz := 2;
  z := z; lam := lam; lbz := lbz; ubz := ubz;
  infeas := [Szero]; tinfeas := [Szero];
  dz := [Szero; Szero]; dlam := dlam;
  w := [Szero; Szero; Szero; Szero]; iw := [0; 0]%Z;
  neverzero := [false; false]; neverlower := [false; false]; neverupper := [false; false];
  sp_a := sp_1x1; sp_h := sp_1x1; sp_at := sp_1x1; sp_kkt := sp_2x2_dense;
  g := [Szero]; nz_a := [a]; nz_at := [a]; nz_h := [h];
  nz_kkt := [Szero; Szero; Szero; Szero];
  nz_v := [Szero; Szero; Szero; Szero; Szero; Szero; Szero; Szero];
  nz_r := [Szero; Szero; Szero; Szero];
  sp_v := sp_2x2_dense; sp_r := sp_2x2_dense;
  beta := [Szero; Szero];
  prinv := [0; 1]%Z; pc := [0; 1]%Z;
  dmin := dmin; inf := inf;
  tau := Szero; sing := 0%Z; du_to_pr := Sone;
  mina := Szero; imina := 0%Z; pr := Szero; du := Szero; ipr := 0%Z; idu := 0%Z
|}.

(** [x = 1] at its upper bound with the multiplier [1], the linear
    constraint inactive. *)
Definition mem_double : casadi_qp_mem double :=
  mem_1x1 2%float 1%float DMIN infinity
          [1; 1]%float [1; 0]%float [0; 0]%float [0; 0]%float [1; 2]%float.






(** *** The signs that the flags permit, blocking tests, passes *)

Local Open Scope sc_scope.

Section SignsVocabulary.
Context {T1 : Type} `{Scalar T1}.
Implicit Type m : casadi_qp_mem T1.

(** [v] is a multiplier of the sign [s]: zero, or at least [d] away from
    zero on the side of [s]. *)
Definition has_sign (d : T1) (s : Z) (v : T1) : Prop :=
  match s with
  | 0%Z => v = 0
  | 1%Z => (0 <? v) = true /\ (d <=? v) = true
  | (-1)%Z => (v <? 0) = true /\ (v <=? - d) = true
  | _ => True
  end.
End SignsVocabulary.

(** The flags [n0] ([neverzero]), [nu] ([neverupper]) and [nl]
    ([neverlower]) of an index permit the sign of its multiplier [l]. *)
Definition permitted (l : double) (n0 nu nl : bool) : bool :=
  (negb (0 <? l) || negb nu) && (negb (l <? 0) || negb nl) && (negb (l == 0) || negb n0).

(** No index below [nz] has [neverzero] together with [neverupper] or
    [neverlower]. *)
Definition flags_consistent (m : casadi_qp_mem double) : bool :=
  forallb (fun i => negb (rd false (neverzero m) i)
                    || (negb (rd false (neverupper m) i) && negb (rd false (neverlower m) i)))
          (seq 0 (nz m)).


Section BlockingVocabulary.
Context {T1 : Type} `{Scalar T1}.
Implicit Type m : casadi_qp_mem T1.

(** The two tests of [casadi_qp_zero_blocking] at the index [i]. *)
Definition blocks_lower m (e : T1) (i : nat) : bool :=
  (- (dz m).[i] >? 0) && ((z m).[i] <=? (lbz m).[i] - e).
Definition blocks_upper m (e : T1) (i : nat) : bool :=
  ((dz m).[i] >? 0) && ((z m).[i] >=? (ubz m).[i] + e).

End BlockingVocabulary.

(** The variables of a pass in which no change of the active set is
    pending. *)
Definition settled (m : casadi_qp_mem double) : locals :=
  {| qp_m := m; index := (-1)%Z; sign := 0%Z; r_index := (-2)%Z; r_sign := 0%Z; iter := 0%Z |}.

Local Close Scope sc_scope.

(** ** Arrays and counting loops *)

Section ArrayFacts.
Context {A : Type}.
Implicit Types (l : list A) (d v : A) (i j : nat).

Lemma rd_insert_eq d l i v : i < length l -> rd d (<[i := v]> l) i = v.
Proof. intros Hi. unfold rd. now rewrite list_lookup_insert_eq. Qed.

Lemma rd_insert_ne d l i j v : i <> j -> rd d (<[i := v]> l) j = rd d l j.
Proof. intros Hij. unfold rd. now rewrite list_lookup_insert_ne. Qed.

Lemma rd_drop d n l i : rd d (drop n l) i = rd d l (n + i).
Proof. unfold rd. now rewrite lookup_drop. Qed.

Lemma for_range_snoc {S : Type} (a b : nat) (body : nat -> S -> S) (s : S) :
  a <= b -> for_range a (Datatypes.S b) body s = body b (for_range a b body s).
Proof.
  intros Hab. unfold for_range.
  replace (Datatypes.S b - a) with (Datatypes.S (b - a)) by lia.
  rewrite seq_S, fold_left_app. simpl. now replace (a + (b - a)) with b by lia.
Qed.

Lemma for_range_nil {S : Type} (a b : nat) (body : nat -> S -> S) (s : S) :
  b <= a -> for_range a b body s = s.
Proof. intros Hab. unfold for_range. now replace (b - a) with 0 by lia. Qed.

(** Invariants of a counting loop. *)
Lemma for_range_ind {S : Type} (P : nat -> S -> Prop) (a b : nat)
    (body : nat -> S -> S) (s : S) :
  a <= b -> P a s ->
  (forall k s, a <= k < b -> P k s -> P (Datatypes.S k) (body k s)) ->
  P b (for_range a b body s).
Proof.
  intros Hab Ha Hstep. induction b as [|b IH].
  - assert (a = 0) as -> by lia. now rewrite for_range_nil.
  - destruct (decide (a = Datatypes.S b)) as [->|Hne].
    + now rewrite for_range_nil.
    + rewrite for_range_snoc by lia. apply Hstep; [lia|]. apply IH; [lia|].
      intros k s' Hk. apply Hstep. lia.
Qed.
End ArrayFacts.

Section PrimitiveFacts.
Context {T : Type} `{Scalar T}.

Lemma length_casadi_copy (x : list T) n (y : list T) :
  length (casadi_copy x n y) = length y.
Proof.
  unfold casadi_copy.
  apply (for_range_ind (fun _ y' => length y' = length y)); [lia|reflexivity|].
  intros k s _ Hs. now rewrite length_insert.
Qed.

End PrimitiveFacts.

(** ** Initialisation: the permitted signs *)

Section Initialisation.
Context {LA : LinAlg double} {IC : InputCheck} {WV : WorkVector}.

Lemma permitted_signs_spec lbz ubz z i lam n0 nu nl :
  i < length n0 -> i < length nu -> i < length nl ->
  match permitted_signs lbz ubz z i (lam, n0, nu, nl) with
  | inl e => e = No_sign_possible_for i /\ no_sign lbz ubz i = true
  | inr (lam', n0', nu', nl') =>
      no_sign lbz ubz i = false /\
      length n0' = length n0 /\ length nu' = length nu /\ length nl' = length nl
  end.
Proof.
  intros H0 Hu Hl. unfold permitted_signs, no_sign.
  rewrite !rd_insert_eq by assumption.
  destruct (Seqb _ _), (isinf (rdT ubz i)), (isinf (rdT lbz i)); simpl;
    rewrite ?length_insert; auto.
Qed.

Lemma permitted_signs_loop_spec lbz ubz z l : forall lam n0 nu nl,
  (forall i, i ∈ l -> i < length n0 /\ i < length nu /\ i < length nl) ->
  match permitted_signs_loop lbz ubz z l (lam, n0, nu, nl) with
  | inl e => exists i, e = No_sign_possible_for i /\ i ∈ l /\ no_sign lbz ubz i = true
  | inr _ => forall i, i ∈ l -> no_sign lbz ubz i = false
  end.
Proof.
  induction l as [|i l IH]; intros lam n0 nu nl Hlen; cbn [permitted_signs_loop].
  - intros i Hi. now apply elem_of_nil in Hi.
  - destruct (Hlen i) as (H0 & Hu & Hl); [apply elem_of_cons; now left|].
    pose proof (permitted_signs_spec lbz ubz z i lam n0 nu nl H0 Hu Hl) as Hi.
    destruct (permitted_signs lbz ubz z i (lam, n0, nu, nl)) as [e|[[[lam' n0'] nu'] nl']].
    + destruct Hi as [-> Hi]. cbn. exists i.
      repeat split; [apply elem_of_cons; now left|assumption].
    + destruct Hi as (Hi & E0 & Eu & El).
      specialize (IH lam' n0' nu' nl').
      destruct (permitted_signs_loop lbz ubz z l (lam', n0', nu', nl')) as [e|st].
      * destruct IH as (j & -> & Hj & Hjs).
        { intros j Hj. rewrite E0, Eu, El. apply Hlen. apply elem_of_cons; now right. }
        exists j. repeat split; [apply elem_of_cons; now right|assumption].
      * intros j Hj. apply elem_of_cons in Hj as [->|Hj]; [assumption|].
        apply IH; [|assumption].
        intros k Hk. rewrite E0, Eu, El. apply Hlen. apply elem_of_cons; now right.
Qed.

Lemma eval_init_signs S arg :
  inputs_check_ S = false \/
    check_inputs (CONIC_LBX arg) (CONIC_UBX arg) (CONIC_LBA arg) (CONIC_UBA arg) = true ->
  match eval_init S arg with
  | inl e => exists i, e = No_sign_possible_for i /\ i < nx_ S + na_ S /\
                       no_sign (eval_lbz S arg) (eval_ubz S arg) i = true
  | inr s => forall i, i < nx_ S + na_ S ->
               no_sign (eval_lbz S arg) (eval_ubz S arg) i = false
  end.
Proof.
  intros Hc. unfold eval_init.
  replace (inputs_check_ S && negb _) with false
    by (destruct Hc as [-> | ->]; [reflexivity | now rewrite andb_false_r]).
  pose proof (permitted_signs_loop_spec (eval_lbz S arg) (eval_ubz S arg) (eval_z S arg)
                (seq 0 (nx_ S + na_ S)) (eval_lam S arg)
                (replicate (nx_ S + na_ S) false) (replicate (nx_ S + na_ S) false)
                (replicate (nx_ S + na_ S) false)) as Hl.
  destruct (permitted_signs_loop _ _ _ _ _) as [e|[[[lam' n0'] nu'] nl']].
  - destruct Hl as (i & -> & Hi & Hs).
    { intros i Hi. apply elem_of_seq in Hi. rewrite length_replicate. lia. }
    exists i. apply elem_of_seq in Hi. repeat split; [lia | assumption].
  - destruct (casadi_trans _ _ _ _ _) as [trans_a iw'].
    intros i Hi. apply Hl; [|apply elem_of_seq; lia].
    intros j Hj. apply elem_of_seq in Hj. rewrite length_replicate. lia.
Qed.

(** The loop is entered with [index = r_index = -2], [sign = r_sign = 0] and
    [iter = 0]. *)
Lemma eval_init_locals S arg s :
  eval_init S arg = inr s ->
  index s = (-2)%Z /\ sign s = 0%Z /\ r_index s = (-2)%Z /\ r_sign s = 0%Z /\ iter s = 0%Z.
Proof.
  unfold eval_init. destruct (inputs_check_ S && _); [discriminate|].
  destruct (permitted_signs_loop _ _ _ _ _) as [e|[[[lam' n0'] nu'] nl']]; [discriminate|].
  destruct (casadi_trans _ _ _ _ _) as [trans_a iw']. intros [= <-]. cbn. tauto.
Qed.

(** C8: when the input check is disabled or passes, [eval] raises "No sign
    possible" exactly when some index [i] has [neverzero], [neverupper] and
    [neverlower] all set ([lbz[i] == ubz[i]] and both are infinite), and it
    does so before the loop is entered, whatever the number of iterations
    allowed; when no such index exists, initialisation completes and the
    loop is entered (with no iteration allowed, [eval_fuel] stops at the
    loop). *)
Theorem eval_no_sign_possible S arg fuel :
  inputs_check_ S = false \/
    check_inputs (CONIC_LBX arg) (CONIC_UBX arg) (CONIC_LBA arg) (CONIC_UBA arg) = true ->
  ((exists i, eval_fuel fuel S arg = Some (Threw (No_sign_possible_for i)))
   <-> (exists i, i < nx_ S + na_ S /\
                  no_sign (eval_lbz S arg) (eval_ubz S arg) i = true))
  /\ ((forall i, i < nx_ S + na_ S ->
         no_sign (eval_lbz S arg) (eval_ubz S arg) i = false) ->
      eval_fuel 0 S arg = None /\
      exists s, eval_init S arg = inr s /\ index s = (-2)%Z /\ iter s = 0%Z).
Proof.
  intros Hc. pose proof (eval_init_signs S arg Hc) as Hi.
  pose proof (eval_init_locals S arg) as Hloc. unfold eval_fuel.
  destruct (eval_init S arg) as [e|s].
  - destruct Hi as (i & -> & Hi & Hs). split.
    + split; [intros _; now exists i | intros _; now exists i].
    + intros Hall. rewrite Hall in Hs by assumption. discriminate.
  - split.
    + split.
      * intros [i Hi']. destruct (qp_iterations fuel S s) as [[[flag s']|]|]; discriminate.
      * intros (i & Hi' & Hs). rewrite Hi in Hs by assumption. discriminate.
    + intros _. split; [reflexivity |]. exists s.
      destruct (Hloc s eq_refl) as (? & _ & _ & _ & ?). tauto.
Qed.
End Initialisation.

(** The bounds [lbx = ubx = +inf] of a single variable leave no sign. *)
Lemma eval_no_sign_possible_witness :
  exists i, @eval_fuel LinAlg_1x1 accept_inputs zero_work 3 (solver_1x1 10 false)
              (problem_1x1 1 0 infinity infinity 0 0)
            = Some (Threw (No_sign_possible_for i)).
Proof.
  apply (proj2 (proj1 (@eval_no_sign_possible LinAlg_1x1 accept_inputs zero_work
                         (solver_1x1 10 false) (problem_1x1 1 0 infinity infinity 0 0) 3
                         (or_introl eq_refl)))).
  exists 0%nat. split; [apply Nat.lt_0_1 | reflexivity].
Defined.

(** ** The driver's loop and its return code *)

Section ReturnCode.
Context {LA : LinAlg double} {IC : InputCheck} {WV : WorkVector}.










End ReturnCode.

(** ** Lists with an element put in, sorted lists, searches *)

Section InsertAt.
Context {A : Type}.

Lemma length_insert_at loc (x : A) es : length (insert_at loc x es) = Datatypes.S (length es).
Proof.
  unfold insert_at. rewrite length_app, length_take. cbn [length]. rewrite length_drop. lia.
Qed.



End InsertAt.

Section InsertAtMap.


End InsertAtMap.

Section Exists.
Lemma for_range_exists a b (f : nat -> bool) :
  for_range a b (fun k acc => if f k then true else acc) false = true <->
  exists k, a <= k < b /\ f k = true.
Proof.
  destruct (decide (a <= b)) as [Hab|Hab].
  - induction b as [|b IH].
    + rewrite for_range_nil by lia. split; [discriminate | intros (k & ? & _); lia].
    + destruct (decide (a = Datatypes.S b)) as [->|Hne].
      * rewrite for_range_nil by lia. split; [discriminate | intros (k & ? & _); lia].
      * rewrite for_range_snoc by lia. destruct (f b) eqn:E.
        -- split; [intros _; exists b; split; [lia | assumption] | reflexivity].
        -- rewrite IH by lia. split; intros (k & Hk & Hf).
           ++ exists k. split; [lia | assumption].
           ++ exists k. split; [|assumption].
              destruct (decide (k = b)) as [->|?]; [congruence | lia].
  - rewrite for_range_nil by lia. split; [discriminate | intros (k & ? & _); lia].
Qed.
End Exists.

Local Open Scope sc_scope.

(** ** The laws of signs and of the order for binary64 *)

(** *** Comparisons of binary64 numbers, through their specification *)

Lemma SFcompare_antisym (x y : spec_float) :
  SFcompare y x = option_map CompOpp (SFcompare x y).
Proof.
  destruct x as [[]|[]| |[] mx ex], y as [[]|[]| |[] my ey]; try reflexivity; cbn [SFcompare option_map].
  - rewrite (Z.compare_antisym ey ex). destruct (ey ?= ex)%Z; cbn [CompOpp]; try reflexivity.
    rewrite (Pos.compare_cont_antisym mx my Eq). reflexivity.
  - rewrite (Z.compare_antisym ey ex). destruct (ey ?= ex)%Z; cbn [CompOpp]; try reflexivity.
    rewrite (Pos.compare_cont_antisym mx my Eq). reflexivity.
Qed.

Lemma SFcompare_refl (x : spec_float) :
  SFeqb x x = true -> SFcompare x x = Some Eq.
Proof. unfold SFeqb. destruct (SFcompare x x) as [[]|]; (reflexivity || discriminate). Qed.

Lemma SFeqb_refl_or_nan (x : spec_float) : SFeqb x x = true \/ x = S754_nan.
Proof.
  destruct x as [[]|[]| |[] mx ex]; auto; left; unfold SFeqb; cbn [SFcompare];
    rewrite Z.compare_refl, Pos.compare_cont_refl; reflexivity.
Qed.

Lemma SFltb_zero_l x : SFltb (S754_zero false) x = SFpos x.
Proof. destruct x as [[]|[]| |[] mx ex]; reflexivity. Qed.
Lemma SFltb_zero_r x : SFltb x (S754_zero false) = SFneg x.
Proof. destruct x as [[]|[]| |[] mx ex]; reflexivity. Qed.
Lemma SFeqb_zero_r x : SFeqb x (S754_zero false) = match x with S754_zero _ => true | _ => false end.
Proof. destruct x as [[]|[]| |[] mx ex]; reflexivity. Qed.

(** Between numbers, [x < y] fails exactly when [y <= x]. *)
Lemma SFltb_false_leb x y :
  SFeqb x x = true -> SFeqb y y = true -> SFltb x y = false -> SFleb y x = true.
Proof.
  unfold SFltb, SFleb, SFeqb. rewrite (SFcompare_antisym x y).
  intros Hx Hy.
  destruct (SFcompare x y) as [[]|] eqn:E; cbn; try (reflexivity || discriminate).
  intros _. destruct x as [[]|[]| |[] mx ex], y as [[]|[]| |[] my ey]; cbn in *; discriminate.
Qed.

Lemma SFpos_leb x y : SFpos x = true -> SFleb x y = true -> SFpos y = true.
Proof.
  destruct x as [[]|[]| |[] mx ex], y as [[]|[]| |[] my ey]; cbn; try (reflexivity || discriminate).
Qed.
Lemma SFneg_leb x y : SFneg y = true -> SFleb x y = true -> SFneg x = true.
Proof.
  destruct x as [[]|[]| |[] mx ex], y as [[]|[]| |[] my ey]; cbn; try (reflexivity || discriminate).
Qed.
Lemma SFpos_eqb x : SFpos x = true -> SFeqb x x = true.
Proof. destruct (SFeqb_refl_or_nan x) as [E| ->]; [auto | discriminate]. Qed.
Lemma SFneg_eqb x : SFneg x = true -> SFeqb x x = true.
Proof. destruct (SFeqb_refl_or_nan x) as [E| ->]; [auto | discriminate]. Qed.
Lemma SFleb_refl x : SFeqb x x = true -> SFleb x x = true.
Proof. intros E. unfold SFleb. now rewrite (SFcompare_refl x E). Qed.
Lemma SFneg_opp x : SFneg (SFopp x) = SFpos x.
Proof. destruct x as [[]|[]| |[] mx ex]; reflexivity. Qed.
Lemma SFeqb_opp x : SFeqb (SFopp x) (SFopp x) = SFeqb x x.
Proof.
  destruct (SFeqb_refl_or_nan x) as [E| ->]; [|reflexivity].
  destruct (SFeqb_refl_or_nan (SFopp x)) as [E'| E']; [congruence|].
  destruct x as [[]|[]| |[] mx ex]; discriminate.
Qed.

Lemma double_pos (x : double) : (0 <? x) = SFpos (Prim2SF x).
Proof.
  cbn [Sltb Szero double_Scalar]. rewrite FloatAxioms.ltb_spec.
  change (Prim2SF 0) with (S754_zero false). apply SFltb_zero_l.
Qed.

Lemma double_neg (x : double) : (x <? 0) = SFneg (Prim2SF x).
Proof.
  cbn [Sltb Szero double_Scalar]. rewrite FloatAxioms.ltb_spec.
  change (Prim2SF 0) with (S754_zero false). apply SFltb_zero_r.
Qed.

Lemma double_opp_neg (d : double) : (0 <? d) = true -> (- d <? 0) = true.
Proof.
  rewrite double_pos, double_neg. cbn [Sopp double_Scalar].
  rewrite FloatAxioms.opp_spec, SFneg_opp. auto.
Qed.

Lemma double_fmax_spec (x d : double) :
  (0 <? d) = true ->
  Prim2SF (fmax x d) = Prim2SF d \/
  (Prim2SF (fmax x d) = Prim2SF x /\ SFleb (Prim2SF d) (Prim2SF x) = true).
Proof.
  rewrite double_pos. intros Hd.
  unfold fmax, isnan. cbn [Seqb Sltb double_Scalar].
  rewrite !FloatAxioms.eqb_spec, FloatAxioms.ltb_spec.
  rewrite (SFpos_eqb _ Hd). cbn [negb].
  destruct (SFeqb (Prim2SF x) (Prim2SF x)) eqn:Ex; cbn [negb]; [|now left].
  destruct (SFltb (Prim2SF x) (Prim2SF d)) eqn:El; [now left|].
  right. split; [reflexivity|]. apply SFltb_false_leb; auto using SFpos_eqb.
Qed.

Lemma double_fmin_spec (x d : double) :
  (d <? 0) = true ->
  Prim2SF (fmin x d) = Prim2SF d \/
  (Prim2SF (fmin x d) = Prim2SF x /\ SFleb (Prim2SF x) (Prim2SF d) = true).
Proof.
  rewrite double_neg. intros Hd.
  unfold fmin, isnan. cbn [Seqb Sltb double_Scalar].
  rewrite !FloatAxioms.eqb_spec, FloatAxioms.ltb_spec.
  rewrite (SFneg_eqb _ Hd). cbn [negb].
  destruct (SFeqb (Prim2SF x) (Prim2SF x)) eqn:Ex; cbn [negb]; [|now left].
  destruct (SFltb (Prim2SF d) (Prim2SF x)) eqn:El; [now left|].
  right. split; [reflexivity|]. apply SFltb_false_leb; auto using SFneg_eqb.
Qed.

#[export] Instance double_SignLaws : SignLaws double.
Proof.
  split.
  - reflexivity.
  - intros x. rewrite double_pos. cbn [Seqb Szero double_Scalar].
    rewrite FloatAxioms.eqb_spec. change (Prim2SF 0%float) with (S754_zero false).
    rewrite SFeqb_zero_r. destruct (Prim2SF x) as [[]|[]| |[] mx ex]; cbn; congruence.
  - intros x. rewrite double_neg. cbn [Seqb Szero double_Scalar].
    rewrite FloatAxioms.eqb_spec. change (Prim2SF 0%float) with (S754_zero false).
    rewrite SFeqb_zero_r. destruct (Prim2SF x) as [[]|[]| |[] mx ex]; cbn; congruence.
  - intros x. rewrite double_pos, double_neg.
    destruct (Prim2SF x) as [[]|[]| |[] mx ex]; cbn; congruence.
  - intros x d Hd. rewrite double_pos.
    destruct (double_fmax_spec x d Hd) as [-> | [-> Hle]]; rewrite double_pos in Hd;
      [assumption|]. eapply SFpos_leb; eassumption.
  - intros x d Hd. cbn [Sleb double_Scalar]. rewrite FloatAxioms.leb_spec.
    destruct (double_fmax_spec x d Hd) as [-> | [-> Hle]]; [|assumption].
    rewrite double_pos in Hd. apply SFleb_refl, SFpos_eqb, Hd.
  - intros x d Hd. apply double_opp_neg in Hd. rewrite double_neg.
    destruct (double_fmin_spec x (- d) Hd) as [-> | [-> Hle]]; rewrite double_neg in Hd;
      [assumption|]. eapply SFneg_leb; eassumption.
  - intros x d Hd. apply double_opp_neg in Hd. cbn [Sleb double_Scalar].
    rewrite FloatAxioms.leb_spec.
    destruct (double_fmin_spec x (- d) Hd) as [-> | [-> Hle]]; [|assumption].
    rewrite double_neg in Hd. apply SFleb_refl, SFneg_eqb, Hd.
Qed.

(** *** The order of binary64 numbers *)

Local Close Scope sc_scope.

Lemma SFltb_irrefl (x : spec_float) : SFltb x x = false.
Proof.
  unfold SFltb. destruct x as [[]|[]| |[] mx ex]; try reflexivity; cbn [SFcompare];
    rewrite Z.compare_refl, Pos.compare_cont_refl; reflexivity.
Qed.

Lemma finite_lt_iff (e1 e2 : Z) (m1 m2 : positive) :
  match (e1 ?= e2)%Z with Lt => Lt | Gt => Gt | Eq => Pos.compare_cont Eq m1 m2 end = Lt <->
  (e1 < e2)%Z \/ (e1 = e2 /\ (m1 < m2)%positive).
Proof.
  change (Pos.compare_cont Eq m1 m2) with (m1 ?= m2)%positive.
  destruct (Z.compare_spec e1 e2) as [->|Hlt|Hgt].
  - rewrite Pos.compare_lt_iff. split; [intros Hm; right; now split|].
    intros [Hl|[_ Hm]]; [lia | assumption].
  - split; [intros _; now left | reflexivity].
  - split; [discriminate|]. intros [Hl|[He _]]; lia.
Qed.

Lemma finite_gt_iff (e1 e2 : Z) (m1 m2 : positive) :
  match (e1 ?= e2)%Z with
  | Lt => Gt | Gt => Lt | Eq => CompOpp (Pos.compare_cont Eq m1 m2) end = Lt <->
  (e2 < e1)%Z \/ (e1 = e2 /\ (m2 < m1)%positive).
Proof.
  change (Pos.compare_cont Eq m1 m2) with (m1 ?= m2)%positive.
  destruct (Z.compare_spec e1 e2) as [->|Hlt|Hgt].
  - rewrite <- Pos.compare_antisym, Pos.compare_lt_iff.
    split; [intros Hm; right; now split|]. intros [Hl|[_ Hm]]; [lia | assumption].
  - split; [discriminate|]. intros [Hl|[He _]]; lia.
  - split; [intros _; now left | reflexivity].
Qed.

Lemma SFltb_trans (x y z : spec_float) :
  SFltb x y = true -> SFltb y z = true -> SFltb x z = true.
Proof.
  unfold SFltb.
  destruct x as [[]|[]| |[] mx ex], y as [[]|[]| |[] my ey], z as [[]|[]| |[] mz ez];
    cbn [SFcompare]; try reflexivity; try discriminate.
  - destruct (match (ex ?= ey)%Z with Lt => Gt | Gt => Lt
              | Eq => CompOpp (Pos.compare_cont Eq mx my) end) eqn:E1; try discriminate.
    destruct (match (ey ?= ez)%Z with Lt => Gt | Gt => Lt
              | Eq => CompOpp (Pos.compare_cont Eq my mz) end) eqn:E2; try discriminate.
    intros _ _. apply finite_gt_iff in E1, E2.
    replace (match (ex ?= ez)%Z with Lt => Gt | Gt => Lt
             | Eq => CompOpp (Pos.compare_cont Eq mx mz) end) with Lt; [reflexivity|].
    symmetry. apply finite_gt_iff. lia.
  - destruct (match (ex ?= ey)%Z with Lt => Lt | Gt => Gt
              | Eq => Pos.compare_cont Eq mx my end) eqn:E1; try discriminate.
    destruct (match (ey ?= ez)%Z with Lt => Lt | Gt => Gt
              | Eq => Pos.compare_cont Eq my mz end) eqn:E2; try discriminate.
    intros _ _. apply finite_lt_iff in E1, E2.
    replace (match (ex ?= ez)%Z with Lt => Lt | Gt => Gt
             | Eq => Pos.compare_cont Eq mx mz end) with Lt; [reflexivity|].
    symmetry. apply finite_lt_iff. lia.
Qed.

Local Open Scope sc_scope.

#[export] Instance double_OrderLaws : OrderLaws double.
Proof.
  split.
  - intros x. cbn [Sltb double_Scalar]. rewrite FloatAxioms.ltb_spec. apply SFltb_irrefl.
  - intros x y z. cbn [Sltb double_Scalar]. rewrite !FloatAxioms.ltb_spec. apply SFltb_trans.
Qed.


(** ** Ordered lists *)

Section OrderedInsert.
Context {T1 : Type} `{Scalar T1} `{!OrderLaws T1}.



Lemma ordered_lookup (l : list T1) j k :
  ordered l -> (j < k)%nat -> (k < length l)%nat -> (l.[k] <? l.[j]) = false.
Proof.
  intros Hs Hjk Hk.
  destruct (lookup_lt_is_Some_2 l j ltac:(lia)) as [x Hx].
  destruct (lookup_lt_is_Some_2 l k Hk) as [y Hy].
  unfold rdT, rd. rewrite Hx, Hy. now apply (Hs j k).
Qed.

End OrderedInsert.

(** ** [casadi_qp_calc_dependent]: the multipliers of the active bounds *)

Section MultiplierLoop.
Context {T1 : Type} `{Scalar T1}.
Implicit Type m : casadi_qp_mem T1.

Lemma calc_dependent_stages m :
  casadi_qp_calc_dependent m =
  casadi_qp_du (casadi_qp_pr (multiplier_loop (nx m)
    (set_infeas (set_z (set_f m (dependent_f m)) (dependent_z m)) (lagrangian_gradient m)))).
Proof. reflexivity. Qed.

Lemma rd_insert (d : T1) (l : list T1) i j v :
  rd d (<[i := v]> l) j = if decide (i = j /\ i < length l) then v else rd d l j.
Proof.
  destruct (decide (i = j /\ i < length l)) as [[-> Hl]|Hn].
  - now apply rd_insert_eq.
  - destruct (decide (i = j)) as [->|Hne].
    + unfold rd. rewrite list_insert_ge; [reflexivity | lia].
    + now apply rd_insert_ne.
Qed.

Lemma multiplier_loop_frame n m :
  multiplier_loop n m =
  set_infeas (set_lam m (lam (multiplier_loop n m))) (infeas (multiplier_loop n m)).
Proof.
  unfold multiplier_loop.
  apply (for_range_ind (fun _ m' => m' = set_infeas (set_lam m (lam m')) (infeas m'))); [lia| |].
  - now destruct m.
  - intros k m' _ Hm. rewrite Hm. generalize (lam m') (infeas m'). intros a b.
    cbn [lam infeas dmin set_lam set_infeas].
    destruct (a.[k] >? 0); [now destruct m|]. destruct (a.[k] <? 0); now destruct m.
Qed.

Lemma multiplier_loop_spec n m :
  let m' := multiplier_loop n m in
  length (lam m') = length (lam m) /\ length (infeas m') = length (infeas m) /\
  forall i,
    (lam m').[i] = (if decide (i < n /\ i < length (lam m))
                    then clamp (dmin m) (lam m).[i] (infeas m).[i] else (lam m).[i]) /\
    (infeas m').[i] = (if decide (i < n /\ i < length (infeas m))
                       then (infeas m).[i] + (lam m').[i] else (infeas m).[i]).
Proof.
  cbv zeta. unfold multiplier_loop.
  apply (for_range_ind (fun k m' =>
    dmin m' = dmin m /\
    length (lam m') = length (lam m) /\ length (infeas m') = length (infeas m) /\
    forall i,
      (lam m').[i] = (if decide (i < k /\ i < length (lam m))
                      then clamp (dmin m) (lam m).[i] (infeas m).[i] else (lam m).[i]) /\
      (infeas m').[i] = (if decide (i < k /\ i < length (infeas m))
                         then (infeas m).[i] + (lam m').[i] else (infeas m).[i]))
    0 n _ m) ; [lia| |].
  - repeat split; intros; destruct (decide _) as [[? _]|_]; (lia || reflexivity).
  - intros k m' _ (Hd & Hl & Hi & Hp).
    destruct (Hp k) as [Hlk Hik].
    rewrite decide_False in Hlk by lia. rewrite decide_False in Hik by lia.
    set (m'' := if (lam m').[k] >? 0 then _ else _).
    assert (dmin m'' = dmin m /\ infeas m'' = infeas m' /\
            length (lam m'') = length (lam m) /\
            forall i, (lam m'').[i] =
              if decide (i = k /\ k < length (lam m))
              then clamp (dmin m) (lam m).[k] (infeas m).[k] else (lam m').[i]) as (Hd' & Hi' & Hl' & Hp').
    { subst m''. unfold clamp. rewrite <- Hlk, <- Hik, <- Hd.
      destruct ((lam m').[k] >? 0) eqn:E1; [|destruct ((lam m').[k] <? 0) eqn:E2];
        cbn [dmin infeas lam set_lam]; rewrite ?length_insert;
        (repeat split; [assumption..|]); intros i; unfold rdT; rewrite ?rd_insert, ?Hl.
      - destruct (decide (k = i /\ _)) as [[<- ?]|?], (decide (_ = k /\ _)) as [[? ?]|?];
          try reflexivity; exfalso; intuition lia.
      - destruct (decide (k = i /\ _)) as [[<- ?]|?], (decide (_ = k /\ _)) as [[? ?]|?];
          try reflexivity; exfalso; intuition lia.
      - destruct (decide (i = k /\ _)) as [[-> ?]|?]; reflexivity. }
    cbn [dmin lam infeas set_infeas]. rewrite length_insert, Hi'.
    repeat split; [assumption..| |].
    + rewrite Hp'. destruct (Hp i) as [-> _].
      destruct (decide (i = k /\ _)) as [[-> ?]|?].
      * rewrite decide_True by lia. reflexivity.
      * destruct (decide (i < k /\ _)) as [[? ?]|?], (decide (i < Datatypes.S k /\ _)) as [[? ?]|?];
          try reflexivity; exfalso; intuition lia.
    + unfold rdT at 1. rewrite rd_insert, Hi. fold (rdT (infeas m') i).
      destruct (decide (k = i /\ _)) as [[<- ?]|?].
      * rewrite decide_True by lia. now rewrite Hik.
      * destruct (Hp i) as [_ ->]. rewrite (Hp' i).
        destruct (decide (i < k /\ _)) as [[? ?]|?], (decide (i < Datatypes.S k /\ _)) as [[? ?]|?];
          try reflexivity; try (exfalso; intuition lia).
        rewrite decide_False by lia. reflexivity.
Qed.
End MultiplierLoop.

Section Dependent.
Context {T1 : Type} `{Scalar T1}.
Implicit Type m : casadi_qp_mem T1.

Lemma for_range_length {A : Type} a b (body : nat -> list A -> list A) (s : list A) :
  (forall k s, length (body k s) = length s) ->
  length (for_range a b body s) = length s.
Proof.
  intros Hb. unfold for_range. generalize (seq a (b - a)). intros l. revert s.
  induction l as [|k l IH]; intros s; [reflexivity|]. cbn [fold_left]. now rewrite IH, Hb.
Qed.

Lemma length_casadi_mv (x : list T1) sp (y z : list T1) tr :
  length (casadi_mv x sp y z tr) = length z.
Proof.
  unfold casadi_mv. apply for_range_length. intros i s.
  unfold for_col. apply for_range_length. intros el s'.
  destruct tr; apply length_insert.
Qed.

Lemma length_casadi_fill (x : list T1) n a : length (casadi_fill x n a) = length x.
Proof. unfold casadi_fill. apply for_range_length. intros. apply length_insert. Qed.

Lemma length_lagrangian_gradient m : length (lagrangian_gradient m) = length (infeas m).
Proof.
  unfold lagrangian_gradient. cbv zeta. now rewrite !length_casadi_mv, length_casadi_copy.
Qed.

Lemma casadi_qp_pr_frame m :
  casadi_qp_pr m = set_ipr (set_pr m (pr (casadi_qp_pr m))) (ipr (casadi_qp_pr m)).
Proof.
  unfold casadi_qp_pr. cbv zeta.
  apply (for_range_ind (fun _ m' => m' = set_ipr (set_pr m (pr m')) (ipr m'))); [lia| |].
  - now destruct m.
  - intros k m' _ Hm. rewrite Hm. generalize (pr m') (ipr m'). intros a b.
    cbn [z ubz lbz pr ipr set_pr set_ipr].
    destruct (_ >? _); [now destruct m|]. destruct (_ <? _); now destruct m.
Qed.

Lemma casadi_qp_du_frame m :
  casadi_qp_du m = set_idu (set_du m (du (casadi_qp_du m))) (idu (casadi_qp_du m)).
Proof.
  unfold casadi_qp_du. cbv zeta.
  apply (for_range_ind (fun _ m' => m' = set_idu (set_du m (du m')) (idu m'))); [lia| |].
  - now destruct m.
  - intros k m' _ Hm. rewrite Hm. generalize (du m') (idu m'). intros a b.
    cbn [infeas du idu set_du set_idu].
    destruct (_ >? _); [now destruct m|]. destruct (_ <? _); now destruct m.
Qed.

(** What [casadi_qp_calc_dependent] leaves in [lam] and [infeas]. *)
Lemma calc_dependent_lam m :
  lam (casadi_qp_calc_dependent m) =
  lam (multiplier_loop (nx m)
         (set_infeas (set_z (set_f m (dependent_f m)) (dependent_z m)) (lagrangian_gradient m))).
Proof.
  rewrite calc_dependent_stages, casadi_qp_du_frame. cbn [lam set_idu set_du].
  now rewrite casadi_qp_pr_frame.
Qed.

Lemma calc_dependent_infeas m :
  infeas (casadi_qp_calc_dependent m) =
  infeas (multiplier_loop (nx m)
         (set_infeas (set_z (set_f m (dependent_f m)) (dependent_z m)) (lagrangian_gradient m))).
Proof.
  rewrite calc_dependent_stages, casadi_qp_du_frame. cbn [infeas set_idu set_du].
  now rewrite casadi_qp_pr_frame.
Qed.

Context `{!SignLaws T1}.

Lemma zero_not_pos (x : T1) : (x == 0) = true -> (0 <? x) = false.
Proof.
  intros E. destruct (0 <? x) eqn:P; [|reflexivity].
  apply law_pos_nonzero in P. congruence.
Qed.

Lemma zero_not_neg (x : T1) : (x == 0) = true -> (x <? 0) = false.
Proof.
  intros E. destruct (x <? 0) eqn:P; [|reflexivity].
  apply law_neg_nonzero in P. congruence.
Qed.

Lemma clamp_pos d l r : (0 <? d) = true -> (0 <? l) = true ->
  clamp d l r = fmax (- r) d /\ (0 <? clamp d l r) = true /\ (d <=? clamp d l r) = true.
Proof.
  intros Hd Hl. unfold clamp. rewrite Hl.
  auto using law_fmax_pos, law_fmax_ge.
Qed.

Lemma clamp_neg d l r : (0 <? d) = true -> (l <? 0) = true ->
  clamp d l r = fmin (- r) (- d) /\ (clamp d l r <? 0) = true /\ (clamp d l r <=? - d) = true.
Proof.
  intros Hd Hl. unfold clamp. rewrite (law_neg_not_pos _ Hl), Hl.
  auto using law_fmin_neg, law_fmin_le.
Qed.

Lemma clamp_zero d l r : (l == 0) = true -> clamp d l r = l.
Proof. intros Hl. unfold clamp. now rewrite (zero_not_pos _ Hl), (zero_not_neg _ Hl). Qed.

(** C4: in [casadi_qp_calc_dependent], for [i < nx] and with [r] the entry
    [i] of the gradient of the Lagrangian that the function has just put
    into [infeas]: a positive [lam[i]] becomes [fmax(-r, DMIN)], which is
    positive and at least [DMIN]; a negative [lam[i]] becomes
    [fmin(-r, -DMIN)], which is negative and at most [-DMIN]; a zero
    [lam[i]] is left as it is; and [infeas[i]] becomes [r] plus the new
    [lam[i]]. *)
Theorem calc_dependent_multipliers m i :
  (0 <? dmin m) = true ->
  i < nx m -> i < length (lam m) -> i < length (infeas m) ->
  let r := (lagrangian_gradient m).[i] in
  let m' := casadi_qp_calc_dependent m in
  ((0 <? (lam m).[i]) = true ->
     (lam m').[i] = fmax (- r) (dmin m) /\
     (0 <? (lam m').[i]) = true /\ (dmin m <=? (lam m').[i]) = true) /\
  (((lam m).[i] <? 0) = true ->
     (lam m').[i] = fmin (- r) (- dmin m) /\
     ((lam m').[i] <? 0) = true /\ ((lam m').[i] <=? - dmin m) = true) /\
  (((lam m).[i] == 0) = true -> (lam m').[i] = (lam m).[i]) /\
  (infeas m').[i] = r + (lam m').[i].
Proof.
  intros Hd Hn Hl Hi. cbv zeta. rewrite calc_dependent_lam, calc_dependent_infeas.
  destruct (multiplier_loop_spec (nx m)
    (set_infeas (set_z (set_f m (dependent_f m)) (dependent_z m)) (lagrangian_gradient m)))
    as (_ & _ & Hp).
  destruct (Hp i) as [Hlam Hinf]. cbn [lam infeas dmin nx set_infeas set_z set_f] in Hlam, Hinf.
  rewrite decide_True in Hlam by lia.
  rewrite Hinf, Hlam. clear Hp Hlam Hinf.
  split; [intros P; now apply clamp_pos|]. split; [intros P; now apply clamp_neg|].
  split; [intros P; now apply clamp_zero|].
  rewrite decide_True; [reflexivity|]. split; [lia|].
  now rewrite length_lagrangian_gradient.
Qed.
End Dependent.

(** ** [casadi_qp_take_step] and the active set *)

Section Activity.
Context {T1 : Type} `{Scalar T1}.
Implicit Type m : casadi_qp_mem T1.

Lemma rd_casadi_axpy n (a : T1) (x y : list T1) i :
  (casadi_axpy n a x y).[i] =
  if decide (i < n /\ i < length y) then y.[i] + a * x.[i] else y.[i].
Proof.
  unfold casadi_axpy.
  enough (length (for_range 0 n (fun i y => <[i := y.[i] + a * x.[i]]> y) y) = length y /\
          forall j, (for_range 0 n (fun i y => <[i := y.[i] + a * x.[i]]> y) y).[j] =
                    if decide (j < n /\ j < length y) then y.[j] + a * x.[j] else y.[j])
    as [_ Hi] by apply Hi.
  apply (for_range_ind (fun k y' => length y' = length y /\
           forall j, y'.[j] = if decide (j < k /\ j < length y) then y.[j] + a * x.[j] else y.[j])
           0 n _ y); [lia| |].
  - split; [reflexivity|]. intros j. rewrite decide_False by lia. reflexivity.
  - intros k y' _ [Hl Hy]. split; [now rewrite length_insert|].
    intros j. unfold rdT at 1. rewrite rd_insert, Hl. fold (rdT y' j).
    destruct (decide (k = j /\ _)) as [[<- ?]|?].
    + rewrite decide_True by lia. rewrite Hy, decide_False by lia. reflexivity.
    + rewrite Hy. destruct (decide (j < k /\ _)) as [[? ?]|?],
        (decide (j < Datatypes.S k /\ _)) as [[? ?]|?]; try reflexivity; exfalso; intuition lia.
Qed.

Lemma take_step_signs_spec m :
  take_step_signs m = set_iw m (iw (take_step_signs m)) /\
  length (iw (take_step_signs m)) = length (iw m) /\
  forall i, i < nz m -> i < length (iw m) ->
            rd 0%Z (iw (take_step_signs m)) i = sign_of (lam m).[i].
Proof.
  unfold take_step_signs.
  apply (for_range_ind (fun k m' =>
    m' = set_iw m (iw m') /\ length (iw m') = length (iw m) /\
    forall i, i < k -> i < length (iw m) -> rd 0%Z (iw m') i = sign_of (lam m).[i]));
    [lia| |].
  - split; [now destruct m|]. split; [reflexivity | intros; lia].
  - intros k m' _ (Hm & Hl & Hs). rewrite Hm. cbn [lam iw set_iw].
    split; [now destruct m|]. rewrite length_insert. split; [assumption|].
    intros i Hi Hli. destruct (decide (k = i)) as [<-|Hne].
    + rewrite rd_insert_eq by lia. reflexivity.
    + rewrite rd_insert_ne by assumption. apply Hs; lia.
Qed.

Lemma take_step_stages m :
  casadi_qp_take_step m =
  let m1 := take_step_signs m in
  let m2 := set_z m1 (casadi_axpy (nz m1) (tau m1) (dz m1) (z m1)) in
  let m3 := set_lam m2 (casadi_axpy (nz m2) (tau m2) (dlam m2) (lam m2)) in
  take_step_update m3.
Proof. reflexivity. Qed.

Context `{!SignLaws T1}.

Lemma sign_of_cases (x : T1) :
  (sign_of x = 0%Z /\ (0 <? x) = false /\ (x <? 0) = false) \/
  (sign_of x = 1%Z /\ (0 <? x) = true) \/
  (sign_of x = (-1)%Z /\ (x <? 0) = true).
Proof.
  unfold sign_of. destruct (0 <? x); [tauto|]. destruct (x <? 0); tauto.
Qed.

Lemma inactive_zero : inactive (0 : T1).
Proof. apply law_zero_eq. Qed.

Lemma inactive_not_active (x : T1) : inactive x -> active x -> False.
Proof.
  intros Hi [Hp|Hn].
  - apply law_pos_nonzero in Hp. congruence.
  - apply law_neg_nonzero in Hn. congruence.
Qed.

Lemma take_step_update_spec m (s0 : nat -> Z) :
  (0 <? dmin m) = true ->
  nz m <= length (lam m) -> nz m <= length (iw m) ->
  (forall i, i < nz m -> rd 0%Z (iw m) i = s0 i) ->
  (forall i, i < nz m -> s0 i = 0%Z \/ s0 i = 1%Z \/ s0 i = (-1)%Z) ->
  forall i,
    (nz m <= i -> (lam (take_step_update m)).[i] = (lam m).[i]) /\
    (i < nz m -> (s0 i = 0%Z -> (lam (take_step_update m)).[i] = 0) /\
                 (s0 i <> 0%Z -> active (lam (take_step_update m)).[i])).
Proof.
  intros Hd Hl Hw Hs Hc. unfold take_step_update.
  pose (P := fun (k : nat) (m' : casadi_qp_mem T1) =>
    dmin m' = dmin m /\ neverzero m' = neverzero m /\
    length (lam m') = length (lam m) /\ length (iw m') = length (iw m) /\
    forall i,
      (k <= i -> (lam m').[i] = (lam m).[i] /\ rd 0%Z (iw m') i = rd 0%Z (iw m) i) /\
      (i < k -> (s0 i = 0%Z -> (lam m').[i] = 0) /\ (s0 i <> 0%Z -> active (lam m').[i]))).
  set (loop := for_range 0 (nz m) _ m).
  enough (P (nz m) loop) as (_ & _ & _ & _ & Hp)
    by (intros i; split; [intros Hi; now apply Hp | intros Hi; now apply Hp]).
  subst loop. apply (for_range_ind P); subst P; cbv beta; [lia| |].
  - repeat split; intros; lia.
  - intros k m' Hk (Hd' & Hn' & Hl' & Hw' & Hp).
    destruct (Hp k) as [[Hlk Hwk] _]; [lia|]. rewrite (Hs k) in Hwk by lia.
    set (m1 := if rd false (neverzero m') k && _ then _ else _).
    assert (dmin m1 = dmin m /\ neverzero m1 = neverzero m /\ lam m1 = lam m' /\
            length (iw m1) = length (iw m) /\
            (forall i, i <> k -> rd 0%Z (iw m1) i = rd 0%Z (iw m') i) /\
            (rd 0%Z (iw m1) k = s0 k \/ rd 0%Z (iw m1) k = (- s0 k)%Z))
      as (Hd1 & Hn1 & Hl1 & Hw1 & Hi1 & Hk1).
    { subst m1. destruct (rd false (neverzero m') k && _).
      - cbn [dmin neverzero lam iw set_iw]. rewrite length_insert.
        repeat split; try assumption.
        + intros i Hi. now rewrite rd_insert_ne by congruence.
        + right. rewrite rd_insert_eq by lia. now rewrite Hwk.
      - repeat split; try assumption. left. assumption. }
    clearbody m1.
    assert (forall v, (s0 k = 0%Z -> v = 0) -> (s0 k <> 0%Z -> active v) ->
      let m2 := set_lam m1 (<[k := v]> (lam m1)) in
      dmin m2 = dmin m /\ neverzero m2 = neverzero m /\
      length (lam m2) = length (lam m) /\ length (iw m2) = length (iw m) /\
      forall i,
        (Datatypes.S k <= i -> (lam m2).[i] = (lam m).[i] /\ rd 0%Z (iw m2) i = rd 0%Z (iw m) i) /\
        (i < Datatypes.S k -> (s0 i = 0%Z -> (lam m2).[i] = 0) /\ (s0 i <> 0%Z -> active (lam m2).[i])))
      as Hset.
    { intros v Hv0 Hv1. cbv zeta. cbn [dmin neverzero lam iw set_lam].
      rewrite length_insert, Hl1. repeat split; try assumption.
      - unfold rdT. rewrite rd_insert_ne by lia. apply Hp. lia.
      - rewrite Hi1 by lia. apply Hp. lia.
      - unfold rdT. destruct (decide (i = k)) as [->|Hne].
        + rewrite rd_insert_eq by lia. assumption.
        + rewrite rd_insert_ne by congruence. apply Hp; lia.
      - unfold rdT. destruct (decide (i = k)) as [->|Hne].
        + rewrite rd_insert_eq by lia. assumption.
        + rewrite rd_insert_ne by congruence. apply Hp; lia. }
    destruct (Hc k) as [E|[E|E]]; [lia| | |]; rewrite E in Hk1; cbn [Z.opp] in Hk1.
    + assert (rd 0%Z (iw m1) k = 0%Z) as -> by (destruct Hk1; assumption).
      apply Hset; [reflexivity | congruence].
    + destruct Hk1 as [-> | ->]; apply Hset; try congruence; intros _; rewrite Hd1.
      * left. now apply law_fmax_pos.
      * right. now apply law_fmin_neg.
    + destruct Hk1 as [-> | ->]; apply Hset; try congruence; intros _; rewrite Hd1.
      * right. now apply law_fmin_neg.
      * left. now apply law_fmax_pos.
Qed.
End Activity.

Section ActivityKept.
Context {T1 : Type} `{Scalar T1} `{!SignLaws T1}.
Implicit Type m : casadi_qp_mem T1.

Lemma length_casadi_axpy n (a : T1) (x y : list T1) : length (casadi_axpy n a x y) = length y.
Proof. unfold casadi_axpy. apply for_range_length. intros. apply length_insert. Qed.

Lemma sign_of_inactive (x : T1) : inactive x -> sign_of x = 0%Z.
Proof. intros E. unfold sign_of. now rewrite (zero_not_pos _ E), (zero_not_neg _ E). Qed.

Lemma sign_of_active (x : T1) : active x -> sign_of x <> 0%Z.
Proof.
  intros [P|N]; unfold sign_of.
  - now rewrite P.
  - now rewrite (law_neg_not_pos _ N), N.
Qed.

Lemma keeps_activity_refl (x : T1) : keeps_activity x x.
Proof. split; auto. Qed.

Lemma take_step_activity m i :
  (0 <? dmin m) = true -> nz m <= length (lam m) -> nz m <= length (iw m) ->
  keeps_activity (lam m).[i] (lam (casadi_qp_take_step m)).[i].
Proof.
  intros Hd Hl Hw. rewrite take_step_stages. cbv zeta.
  destruct (take_step_signs_spec m) as (Hf & Hlw & Hs).
  set (m1 := take_step_signs m) in *. rewrite Hf. clearbody m1.
  cbn [nz tau dz z dlam lam set_iw set_z set_lam].
  set (m3 := set_lam _ _).
  destruct (take_step_update_spec m3 (fun i => sign_of (lam m).[i])) with (i := i) as [Hge Hlt].
  - exact Hd.
  - subst m3. cbn [nz lam set_lam set_z set_iw]. now rewrite length_casadi_axpy.
  - subst m3. cbn [nz iw set_lam set_z set_iw]. lia.
  - subst m3. cbn [nz iw set_lam set_z set_iw]. intros j Hj. apply Hs; lia.
  - intros j _. destruct (sign_of_cases (lam m).[j]) as [(-> & _)|[(-> & _)|(-> & _)]]; tauto.
  - destruct (Nat.lt_ge_cases i (nz m)) as [Hi|Hi].
    + destruct (Hlt Hi) as [H0 H1]. split.
      * intros E. rewrite H0 by now apply sign_of_inactive. apply inactive_zero.
      * intros E. apply H1. now apply sign_of_active.
    + rewrite (Hge Hi). subst m3. cbn [lam set_lam]. rewrite rd_casadi_axpy.
      rewrite decide_False by lia. apply keeps_activity_refl.
Qed.

Lemma calc_dependent_activity m i :
  (0 <? dmin m) = true ->
  keeps_activity (lam m).[i] (lam (casadi_qp_calc_dependent m)).[i] /\
  ((0 <? (lam m).[i]) = true -> (0 <? (lam (casadi_qp_calc_dependent m)).[i]) = true) /\
  (((lam m).[i] <? 0) = true -> ((lam (casadi_qp_calc_dependent m)).[i] <? 0) = true).
Proof.
  intros Hd. rewrite calc_dependent_lam.
  destruct (multiplier_loop_spec (nx m)
    (set_infeas (set_z (set_f m (dependent_f m)) (dependent_z m)) (lagrangian_gradient m)))
    as (_ & _ & Hp).
  destruct (Hp i) as [-> _]. cbn [lam infeas dmin set_infeas set_z set_f].
  destruct (decide _) as [_|_]; [|split; [apply keeps_activity_refl | auto]].
  split; [split|split].
  - intros E. rewrite clamp_zero by assumption. assumption.
  - intros [P|N]; [left; now apply clamp_pos | right; now apply clamp_neg].
  - intros P. now apply clamp_pos.
  - intros N. now apply clamp_neg.
Qed.
End ActivityKept.

(** ** The kernels that leave the multipliers alone *)

Section Frames.
Context {T1 : Type} `{ScalarInf T1} {LA : LinAlg T1}.
Implicit Type m : casadi_qp_mem T1.

Lemma same_multipliers_refl m : same_multipliers m m.
Proof. repeat split. Qed.

Lemma same_multipliers_trans m1 m2 m3 :
  same_multipliers m1 m2 -> same_multipliers m2 m3 -> same_multipliers m1 m3.
Proof. unfold same_multipliers. intros (-> & -> & -> & ->) (-> & -> & -> & ->). tauto. Qed.

Lemma for_range_same_multipliers a b (body : nat -> casadi_qp_mem T1 -> casadi_qp_mem T1) m m0 :
  (forall k s, same_multipliers s (body k s)) ->
  same_multipliers m0 m -> same_multipliers m0 (for_range a b body m).
Proof.
  intros Hb. unfold for_range. generalize (seq a (b - a)). intros l. revert m.
  induction l as [|k l IH]; intros m Hm; [assumption|]. cbn [fold_left].
  apply IH. eapply same_multipliers_trans; [eassumption | apply Hb].
Qed.

Lemma casadi_qp_kkt_same m : same_multipliers m (casadi_qp_kkt m).
Proof.
  unfold casadi_qp_kkt. cbv zeta. apply for_range_same_multipliers.
  - intros i s. unfold for_col. apply for_range_same_multipliers.
    + intros k s'. repeat split.
    + repeat split.
  - repeat split.
Qed.

Lemma casadi_qp_factorize_same m : same_multipliers m (casadi_qp_factorize m).
Proof.
  unfold casadi_qp_factorize. cbv zeta.
  pose proof (casadi_qp_kkt_same m) as Hk. set (m1 := casadi_qp_kkt m) in *. clearbody m1.
  destruct (casadi_qr _ _ _ _ _ _ _ _ _ _) as [[[w' v] r] b].
  destruct (casadi_qr_singular _ _ _ _) as [[mina' imina'] nullity].
  eapply same_multipliers_trans; [exact Hk|]. repeat split.
Qed.

Lemma primal_blocking_loop_same e l : forall m i sg,
  same_multipliers m (primal_blocking_loop e l m i sg).1.1.
Proof.
  induction l as [|k l IH]; intros m i sg; cbn [primal_blocking_loop]; [repeat split|].
  destruct ((dz m).[k] == 0); [apply IH|].
  set (c1 := ((dz m).[k] <? 0) && _). set (c2 := ((dz m).[k] >? 0) && _).
  destruct c1; [|destruct c2].
  - cbn [tau set_tau]. destruct (_ <=? 0).
    + repeat split.
    + eapply same_multipliers_trans; [|apply IH]. repeat split.
  - cbn [tau set_tau]. destruct (_ <=? 0).
    + repeat split.
    + eapply same_multipliers_trans; [|apply IH]. repeat split.
  - destruct (tau m <=? 0); [repeat split | apply IH].
Qed.

Lemma casadi_qp_primal_blocking_same m e i sg :
  same_multipliers m (casadi_qp_primal_blocking m e i sg).1.1.
Proof.
  unfold casadi_qp_primal_blocking.
  destruct (casadi_qp_zero_blocking m e i sg) as [[ret i'] sg'].
  destruct ret; [repeat split | apply primal_blocking_loop_same].
Qed.

Lemma for_range_invariant {S : Type} (P : S -> Prop) a b (body : nat -> S -> S) (s : S) :
  (forall k s, P s -> P (body k s)) -> P s -> P (for_range a b body s).
Proof.
  intros Hb. unfold for_range. generalize (seq a (b - a)). intros l. revert s.
  induction l as [|k l IH]; intros s Hs; [assumption|]. cbn [fold_left]. apply IH, Hb, Hs.
Qed.

Lemma dual_breakpoints_length m (tau_list : list T1) (ind_list : list Z) e tau :
  length (casadi_qp_dual_breakpoints m tau_list ind_list e tau).1.2 = length ind_list.
Proof.
  unfold casadi_qp_dual_breakpoints. cbv zeta.
  apply (for_range_invariant (fun st : list T1 * list Z * nat => length st.1.2 = length ind_list)).
  - intros i [[tl il] n] Hl. cbn [fst snd] in *.
    destruct (_ == 0); [assumption|]. destruct (_ == 0); [assumption|].
    destruct (if _ >? 0 then _ else _); [assumption|].
    set (loop := for_range _ _ _ _).
    assert (length loop.1.1.2 = length ind_list) as Hloop.
    { subst loop.
      apply (for_range_invariant
               (fun st : list T1 * list Z * T1 * Z => length st.1.1.2 = length ind_list)).
      - intros j [[[tl' il'] nt] ni] Hl'. cbn [fst snd] in *. now rewrite length_insert.
      - assumption. }
    destruct loop as [[[tl' il'] nt] ni]. exact Hloop.
  - cbn [fst snd]. apply length_insert.
Qed.

Lemma dual_blocking_loop_same e js : forall m tau_k du_index,
  same_multipliers m (dual_blocking_loop e js m tau_k du_index).1.
Proof.
  induction js as [|j js IH]; intros m tau_k du_index; cbn [dual_blocking_loop];
    [repeat split|].
  set (loop := for_range 0 (nx m) _ (m, du_index)).
  assert (same_multipliers m loop.1) as Hloop.
  { subst loop.
    apply (for_range_invariant (fun st : casadi_qp_mem T1 * Z => same_multipliers m st.1)).
    - intros k [m' di] Hm. cbn [fst] in *. destruct (_ >? e); [|assumption].
      destruct (_ <? tau m'); [|assumption].
      eapply same_multipliers_trans; [eassumption|]. repeat split.
    - apply same_multipliers_refl. }
  destruct loop as [m1 di1]. cbn [fst] in Hloop.
  set (m2 := set_infeas m1 _).
  assert (same_multipliers m m2) as H2.
  { eapply same_multipliers_trans; [eassumption|]. repeat split. }
  clearbody m2. destruct (di1 >=? 0)%Z; [exact H2|].
  destruct (rd 0%Z (iw m2) j <? 0)%Z; [exact H2|].
  eapply same_multipliers_trans; [|apply IH].
  eapply same_multipliers_trans; [exact H2|].
  destruct (negb _); [|apply same_multipliers_refl].
  destruct (_ <? nx m2)%nat; [repeat split|].
  unfold for_col. apply for_range_same_multipliers; [|apply same_multipliers_refl].
  intros k s. repeat split.
Qed.

Lemma casadi_qp_dual_blocking_same m e : same_multipliers m (casadi_qp_dual_blocking m e).1.
Proof.
  unfold casadi_qp_dual_blocking.
  pose proof (dual_breakpoints_length m (w m) (iw m) e (tau m)) as Hl.
  destruct (casadi_qp_dual_breakpoints m (w m) (iw m) e (tau m)) as [[tl il] n].
  cbn [fst snd] in Hl.
  eapply same_multipliers_trans; [|apply dual_blocking_loop_same].
  repeat split. exact Hl.
Qed.
End Frames.

Section TransposeFacts.
Context {T1 : Type} `{Scalar T1}.
Lemma length_casadi_trans_snd (x : list T1) sp_x (y : list T1) sp_y (tmp : list Z) :
  length (casadi_trans x sp_x y sp_y tmp).2 = length tmp.
Proof.
  unfold casadi_trans. cbv zeta.
  apply (for_range_invariant (fun st : list T1 * list Z => length st.2 = length tmp)).
  - intros k [y' t'] Hl. cbn [snd] in *. now rewrite length_insert.
  - cbn [snd]. apply for_range_length. intros. apply length_insert.
Qed.
End TransposeFacts.

Section StepFrames.
Context {T1 : Type} `{ScalarInf T1} {LA : LinAlg T1}.
Implicit Type m : casadi_qp_mem T1.

Lemma casadi_qp_scale_step_same m m' ret ri rs :
  casadi_qp_scale_step m = Some (m', ret, ri, rs) -> same_multipliers m m'.
Proof.
  unfold casadi_qp_scale_step. cbv zeta.
  destruct (sing m =? 0)%Z; [intros [= <- _ _ _]; apply same_multipliers_refl|].
  destruct (if pr m >? du m then _ else _) as [[pos_ok neg_ok] terr].
  destruct (if du_to_pr m * pr m >=? du m then _ else _) as [[pos_ok' neg_ok']|];
    [|discriminate].
  cbn [mbind option_bind].
  pose proof (length_casadi_trans_snd (nz_kkt m) (sp_kkt m) (nz_v m) (sp_kkt m) (iw m)) as Hiw.
  destruct (casadi_trans _ _ _ _ _) as [v iw']. cbn [snd] in Hiw.
  cbn [nz_v sp_kkt nz nz_kkt w sp_v sp_r nz_r beta prinv pc set_iw set_nz_v set_nz_kkt].
  destruct (casadi_qr _ _ _ _ _ _ _ _ _ _) as [[[w' v'] r] b].
  cbn [nz_r sp_r pc set_beta set_nz_r set_nz_v set_w].
  destruct (casadi_qr_singular _ _ _ _) as [[minat_tr imina_tr] nullity_tr].
  set (m1 := set_beta _ _).
  assert (same_multipliers m m1) as H1 by (repeat split; exact Hiw).
  clearbody m1.
  set (loop := for_range 0 _ _ _).
  assert (same_multipliers m loop.1) as Hloop.
  { subst loop.
    apply (for_range_invariant
             (fun st : casadi_qp_mem T1 * (T1 * Z * Z) => same_multipliers m st.1)).
    - intros k [m2 st] Hm. cbn [fst] in *.
      eapply same_multipliers_trans; [eassumption|]. repeat split.
    - exact H1. }
  destruct loop as [m2 [[tau' ri'] rs']]. cbn [fst] in Hloop.
  destruct (ri' <? 0)%Z; intros [= <- _ _ _]; [exact Hloop|].
  eapply same_multipliers_trans; [exact Hloop|]. repeat split.
Qed.

Lemma calc_step_solve_same m : same_multipliers m (calc_step_solve m).
Proof.
  unfold calc_step_solve.
  destruct (sing m =? 0)%Z; [|repeat split].
  cbv zeta. cbn [dz sp_v nz_v sp_r nz_r beta prinv pc w set_dz].
  destruct (casadi_qr_solve _ _ _ _ _ _ _ _ _ _ _) as [x w']. repeat split.
Qed.

Lemma calc_step_dlam_same m : same_multipliers m (calc_step_dlam m).
Proof.
  unfold calc_step_dlam. cbv zeta.
  eapply same_multipliers_trans; [|repeat split].
  apply for_range_same_multipliers; [|repeat split].
  intros k s. destruct (_ == 0); repeat split.
Qed.

Lemma calc_step_dz_same m : same_multipliers m (calc_step_dz m).
Proof.
  unfold calc_step_dz. cbv zeta.
  apply for_range_same_multipliers; [|repeat split].
  intros k s. destruct (_ <? S1em14); repeat split.
Qed.

Lemma calc_step_tinfeas_same m : same_multipliers m (calc_step_tinfeas m).
Proof. repeat split. Qed.

Lemma calc_step_direction_same m : same_multipliers m (calc_step_direction m).
Proof.
  unfold calc_step_direction.
  eapply same_multipliers_trans; [apply calc_step_solve_same|].
  eapply same_multipliers_trans; [apply calc_step_dlam_same|].
  eapply same_multipliers_trans; [apply calc_step_dz_same|].
  apply calc_step_tinfeas_same.
Qed.

Lemma casadi_qp_calc_step_same m m' ret ri rs :
  casadi_qp_calc_step m = Some (m', ret, ri, rs) -> same_multipliers m m'.
Proof.
  unfold casadi_qp_calc_step. cbv zeta. intros Hs. apply casadi_qp_scale_step_same in Hs.
  eapply same_multipliers_trans; [apply calc_step_direction_same | exact Hs].
Qed.

Lemma casadi_qp_linesearch_same m :
  exists m1, same_multipliers m m1 /\ (casadi_qp_linesearch m).1.1 = casadi_qp_take_step m1.
Proof.
  unfold casadi_qp_linesearch. cbv zeta.
  pose proof (casadi_qp_primal_blocking_same (set_tau m 1)
                (fmax (pr (set_tau m 1)) (du (set_tau m 1) / du_to_pr (set_tau m 1)))
                (-1)%Z 0%Z) as Hp.
  destruct (casadi_qp_primal_blocking _ _ _ _) as [[m1 i1] sg1]. cbn [fst] in Hp.
  pose proof (casadi_qp_dual_blocking_same m1 (fmax (pr m1 * du_to_pr m1) (du m1))) as Hd.
  destruct (casadi_qp_dual_blocking _ _) as [m2 di]. cbn [fst] in Hd.
  destruct (di >=? 0)%Z; cbn [fst]; exists m2; (split; [|reflexivity]).
  all: eapply same_multipliers_trans; [|exact Hd].
  all: eapply same_multipliers_trans; [|exact Hp]; repeat split.
Qed.

Lemma casadi_qp_du_index_same m sg m' i' sg' :
  casadi_qp_du_index m sg = Some (m', i', sg') -> same_multipliers m m'.
Proof.
  unfold casadi_qp_du_index. cbv zeta.
  destruct (index_of (idu _)) as [j|]; [|discriminate]. cbn [mbind option_bind].
  destruct (for_range _ _ _ _) as [best_ind best_w].
  destruct (best_ind >=? 0)%Z; intros [= <- _ _]; repeat split.
Qed.

Lemma casadi_qp_flip_check_same m i sg ri rs e :
  same_multipliers m (casadi_qp_flip_check m i sg ri rs e).1.1.1.
Proof.
  unfold casadi_qp_flip_check. cbv zeta.
  cbn [dz sp_v nz_v sp_r nz_r beta prinv pc w set_dz].
  destruct (casadi_qr_solve _ _ _ _ _ _ _ _ _ _ _) as [x w'].
  destruct (_ >=? S1em12); [repeat split|].
  destruct (for_range _ _ _ _) as [[bs ri'] rs']. repeat split.
Qed.
End StepFrames.

Section ActiveSet.
Context {T1 : Type} `{ScalarInf T1} `{!SignLaws T1} {LA : LinAlg T1}.
Implicit Type m : casadi_qp_mem T1.

Lemma flip_changes_two m index sign r_index r_sign m' index' sign' :
  (0 <? dmin m) = true ->
  casadi_qp_flip m index sign r_index r_sign = Some (m', index', sign') ->
  exists j k : Z, forall i : nat, Z.of_nat i <> j -> Z.of_nat i <> k ->
    keeps_activity (lam m).[i] (lam m').[i].
Proof.
  intros Hd. unfold casadi_qp_flip. cbv zeta.
  destruct (if (r_index >=? 0)%Z && _ then _ else _) as [index0 sign0].
  set (sel := if (index0 =? -1)%Z && _ && _ then _ else _).
  assert (match sel with
          | Some (m1, _, _) => same_multipliers m m1
          | None => True
          end) as Hsel.
  { subst sel. destruct (_ && _ && _); [|apply same_multipliers_refl].
    destruct (_ >=? du m).
    - destruct (casadi_qp_pr_index m sign0) as [[i1 s1]|]; cbn [mbind option_bind]; [|exact I].
      apply same_multipliers_refl.
    - pose proof (casadi_qp_du_index_same m sign0) as Hdu.
      destruct (casadi_qp_du_index m sign0) as [[[m1 i1] s1]|]; [|exact I].
      now apply (Hdu m1 i1 s1). }
  destruct sel as [[[m1 index1] sign1]|]; [|discriminate]. cbn [mbind option_bind].
  destruct Hsel as (Hl1 & Hd1 & _ & _).
  destruct (Z.geb_spec index1 0) as [Hge|Hlt].
  2: { intros [= <- _ _]. exists 0%Z, 0%Z. intros i _ _. rewrite Hl1.
       apply keeps_activity_refl. }
  set (m2 := if (sing m1 =? 0)%Z then _ else _).
  assert (exists k : Z, dmin m2 = dmin m /\
            forall i : nat, Z.of_nat i <> k -> (lam m2).[i] = (lam m).[i]) as (k & Hd2 & Hl2).
  { subst m2. destruct (sing m1 =? 0)%Z.
    2: { exists 0%Z. split; [assumption|]. intros i _. now rewrite Hl1. }
    pose proof (casadi_qp_flip_check_same m1 (Z.to_nat index1) sign1 r_index r_sign
                  (fmax (du_to_pr m * pr m) (du m))) as Hfc.
    destruct (casadi_qp_flip_check _ _ _ _ _ _) as [[[m2 ret] ri] rs]. cbn [fst] in Hfc.
    destruct Hfc as (Hlf & Hdf & _ & _).
    destruct (negb _); [|exists 0%Z; split; [congruence|]; intros i _; congruence].
    destruct (Z.geb_spec ri 0) as [Hri|Hri];
      [|exists 0%Z; split; [congruence|]; intros i _; congruence].
    exists ri. cbn [dmin lam set_lam]. split; [congruence|].
    intros i Hi. unfold rdT. rewrite rd_insert_ne by lia. now rewrite Hlf, Hl1. }
  clearbody m2. intros [= <- _ _]. exists index1, k. intros i Hi Hk.
  set (m3 := set_lam m2 _).
  destruct (calc_dependent_activity m3 i) as [Hkeep _].
  { subst m3. cbn [dmin set_lam]. congruence. }
  replace (lam m).[i] with (lam m3).[i]; [exact Hkeep|].
  subst m3. cbn [lam set_lam]. unfold rdT. rewrite rd_insert_ne by lia. now apply Hl2.
Qed.

(** C5: of the kernels of one pass of the driver's loop only
    [casadi_qp_flip] changes which multipliers are zero, and it does so at
    no more than two indices: [casadi_qp_calc_dependent] and
    [casadi_qp_take_step], for every step length [tau], leave a zero
    multiplier zero and a positive or negative one positive or negative;
    [casadi_qp_factorize] and [casadi_qp_calc_step] do not write [lam];
    [casadi_qp_linesearch] changes it through [casadi_qp_take_step] only. *)
Theorem active_set_changes m :
  (0 <? dmin m) = true -> nz m <= length (lam m) -> nz m <= length (iw m) ->
  (forall i, keeps_activity (lam m).[i] (lam (casadi_qp_calc_dependent m)).[i]) /\
  (forall tau i, keeps_activity (lam m).[i] (lam (casadi_qp_take_step (set_tau m tau))).[i]) /\
  lam (casadi_qp_factorize m) = lam m /\
  (forall m' ret ri rs, casadi_qp_calc_step m = Some (m', ret, ri, rs) -> lam m' = lam m) /\
  (forall i, keeps_activity (lam m).[i] (lam (casadi_qp_linesearch m).1.1).[i]) /\
  (forall index sign r_index r_sign m' index' sign',
     casadi_qp_flip m index sign r_index r_sign = Some (m', index', sign') ->
     exists j k : Z, forall i : nat, Z.of_nat i <> j -> Z.of_nat i <> k ->
       keeps_activity (lam m).[i] (lam m').[i]).
Proof.
  intros Hd Hl Hw. split; [|split; [|split; [|split; [|split]]]].
  - intros i. now apply calc_dependent_activity.
  - intros tau i. apply (take_step_activity (set_tau m tau) i); assumption.
  - apply casadi_qp_factorize_same.
  - intros m' ret ri rs Hs. now apply casadi_qp_calc_step_same in Hs as [? _].
  - intros i. destruct (casadi_qp_linesearch_same m) as (m1 & (Hl1 & Hd1 & Hn1 & Hw1) & ->).
    rewrite <- Hl1. apply take_step_activity; congruence.
  - intros. eapply flip_changes_two; eassumption.
Qed.
End ActiveSet.

(** ** [casadi_qp_calc_dependent] run twice *)

Section ListExt.
Context {A : Type}.

Lemma list_eq_rd (d : A) (l l' : list A) :
  length l = length l' -> (forall i, i < length l -> rd d l i = rd d l' i) -> l = l'.
Proof.
  intros Hl Hi. apply list_eq. intros i. destruct (decide (i < length l)) as [Hlt|Hge].
  - specialize (Hi i Hlt). unfold rd in Hi.
    destruct (lookup_lt_is_Some_2 l i Hlt) as [x Hx].
    destruct (lookup_lt_is_Some_2 l' i ltac:(lia)) as [y Hy].
    rewrite Hx, Hy in *. cbn in Hi. now subst.
  - rewrite !lookup_ge_None_2 by lia. reflexivity.
Qed.

(** Two runs of the same loop from related states end in related states. *)
Lemma for_range_rel {S S' : Type} (R : S -> S' -> Prop) a b
    (body : nat -> S -> S) (body' : nat -> S' -> S') s s' :
  (forall k s s', a <= k < b -> R s s' -> R (body k s) (body' k s')) ->
  R s s' -> R (for_range a b body s) (for_range a b body' s').
Proof.
  intros Hb Hs. destruct (decide (a <= b)) as [Hab|Hab].
  - induction b as [|b IH].
    + now rewrite !for_range_nil by lia.
    + destruct (decide (a = Datatypes.S b)) as [->|Hne].
      * now rewrite !for_range_nil by lia.
      * rewrite !for_range_snoc by lia. apply Hb; [lia|]. apply IH; [|lia].
        intros k t t' Hk. apply Hb. lia.
  - now rewrite !for_range_nil by lia.
Qed.
End ListExt.

Section Idempotent.
Context {T1 : Type} `{Scalar T1}.
Implicit Type m : casadi_qp_mem T1.

Lemma casadi_fill_all (x : list T1) n a :
  length x <= n -> casadi_fill x n a = replicate (length x) a.
Proof.
  intros Hn. apply (list_eq_rd 0).
  - now rewrite length_casadi_fill, length_replicate.
  - rewrite length_casadi_fill. intros i Hi.
    transitivity a.
    + unfold casadi_fill.
      enough (length (for_range 0 n (fun i x => <[i := a]> x) x) = length x /\
              forall j, j < n -> j < length x ->
                        rd 0 (for_range 0 n (fun i x => <[i := a]> x) x) j = a)
        as [_ Hj] by (apply Hj; lia).
      apply (for_range_ind (fun k y => length y = length x /\
               forall j, j < k -> j < length x -> rd 0 y j = a) 0 n _ x); [lia| |].
      * split; [reflexivity | intros; lia].
      * intros k y _ [Hl Hy]. split; [now rewrite length_insert|].
        intros j Hj Hjx. rewrite rd_insert, Hl.
        destruct (decide (k = j /\ _)) as [?|?]; [reflexivity|]. apply Hy; lia.
    + unfold rd. now rewrite lookup_replicate_2.
Qed.

Lemma casadi_copy_all (x : list T1) n (y y' : list T1) :
  length y = length y' -> length y <= n -> casadi_copy x n y = casadi_copy x n y'.
Proof.
  intros Hl Hn. apply (list_eq_rd 0).
  - now rewrite !length_casadi_copy.
  - rewrite length_casadi_copy. intros i Hi.
    assert (forall u : list T1, length u = length y ->
              rd 0 (casadi_copy x n u) i = rdT x i) as Hu.
    { intros u Hlu. unfold casadi_copy.
      enough (length (for_range 0 n (fun i y => <[i := rdT x i]> y) u) = length u /\
              forall j, j < n -> j < length u ->
                rd 0 (for_range 0 n (fun i y => <[i := rdT x i]> y) u) j = rdT x j)
        as [_ Hj] by (apply Hj; lia).
      apply (for_range_ind (fun k y => length y = length u /\
               forall j, j < k -> j < length u -> rd 0 y j = rdT x j) 0 n _ u); [lia| |].
      - split; [reflexivity | intros; lia].
      - intros k v _ [Hlv Hv]. split; [now rewrite length_insert|].
        intros j Hj Hju. rewrite rd_insert, Hlv.
        destruct (decide (k = j /\ _)) as [[-> ?]|?]; [reflexivity|]. apply Hv; lia. }
    rewrite (Hu y eq_refl), (Hu y') by lia. reflexivity.
Qed.

(** The bilinear form and the inner product read their vectors below the
    dimensions of the pattern only. *)
Lemma casadi_dot_ext n (x x' y : list T1) :
  (forall i, i < n -> x.[i] = x'.[i]) -> casadi_dot n x y = casadi_dot n x' y.
Proof.
  intros Hx. unfold casadi_dot. apply (for_range_rel eq); [|reflexivity].
  intros k r r' Hk ->. now rewrite Hx by lia.
Qed.

Lemma casadi_bilin_ext (A : list T1) sp n (x x' : list T1) :
  ncol sp <= n -> (forall el, sp_row sp el < n) ->
  (forall i, i < n -> x.[i] = x'.[i]) ->
  casadi_bilin A sp x x = casadi_bilin A sp x' x'.
Proof.
  intros Hc Hr Hx. unfold casadi_bilin. apply (for_range_rel eq); [|reflexivity].
  intros cc r r' Hcc ->. unfold for_col. apply (for_range_rel eq); [|reflexivity].
  intros el t t' _ ->. now rewrite (Hx (sp_row sp el)), (Hx cc) by (auto; lia).
Qed.

Lemma casadi_qp_pr_ext m m' :
  z m = z m' -> lbz m = lbz m' -> ubz m = ubz m' -> nz m = nz m' ->
  pr (casadi_qp_pr m) = pr (casadi_qp_pr m') /\ ipr (casadi_qp_pr m) = ipr (casadi_qp_pr m').
Proof.
  intros Hz Hl Hu Hn. unfold casadi_qp_pr. cbv zeta. cbn [nz set_pr set_ipr]. rewrite Hn.
  enough (let R := fun s s' : casadi_qp_mem T1 =>
            z s = z s' /\ lbz s = lbz s' /\ ubz s = ubz s' /\ pr s = pr s' /\ ipr s = ipr s' in
          R (for_range 0 (nz m') (fun i m =>
               if (z m).[i] >? (ubz m).[i] + pr m then
                 let m := set_pr m ((z m).[i] - (ubz m).[i]) in set_ipr m (Z.of_nat i)
               else if (z m).[i] <? (lbz m).[i] - pr m then
                 let m := set_pr m ((lbz m).[i] - (z m).[i]) in set_ipr m (Z.of_nat i)
               else m) (set_ipr (set_pr m 0) (-1)%Z))
            (for_range 0 (nz m') (fun i m =>
               if (z m).[i] >? (ubz m).[i] + pr m then
                 let m := set_pr m ((z m).[i] - (ubz m).[i]) in set_ipr m (Z.of_nat i)
               else if (z m).[i] <? (lbz m).[i] - pr m then
                 let m := set_pr m ((lbz m).[i] - (z m).[i]) in set_ipr m (Z.of_nat i)
               else m) (set_ipr (set_pr m' 0) (-1)%Z))) as (_ & _ & _ & Hp & Hi)
    by (split; assumption).
  intros R. apply (for_range_rel R).
  - intros k s s' _ (Ez & El & Eu & Ep & Ei). rewrite Ez, El, Eu, Ep.
    destruct (_ >? _); [repeat split; cbn; congruence|].
    destruct (_ <? _); repeat split; cbn; congruence.
  - repeat split; assumption.
Qed.

Lemma casadi_qp_du_ext m m' :
  infeas m = infeas m' -> nx m = nx m' ->
  du (casadi_qp_du m) = du (casadi_qp_du m') /\ idu (casadi_qp_du m) = idu (casadi_qp_du m').
Proof.
  intros Hi Hn. unfold casadi_qp_du. cbv zeta. cbn [nx set_du set_idu]. rewrite Hn.
  enough (let R := fun s s' : casadi_qp_mem T1 =>
            infeas s = infeas s' /\ du s = du s' /\ idu s = idu s' in
          R (for_range 0 (nx m') (fun i m =>
               if (infeas m).[i] >? du m then
                 let m := set_du m ((infeas m).[i]) in set_idu m (Z.of_nat i)
               else if (infeas m).[i] <? - du m then
                 let m := set_du m (- (infeas m).[i]) in set_idu m (Z.of_nat i)
               else m) (set_idu (set_du m 0) (-1)%Z))
            (for_range 0 (nx m') (fun i m =>
               if (infeas m).[i] >? du m then
                 let m := set_du m ((infeas m).[i]) in set_idu m (Z.of_nat i)
               else if (infeas m).[i] <? - du m then
                 let m := set_du m (- (infeas m).[i]) in set_idu m (Z.of_nat i)
               else m) (set_idu (set_du m' 0) (-1)%Z))) as (_ & Hp & Hq)
    by (split; assumption).
  intros R. apply (for_range_rel R).
  - intros k s s' _ (Ez & Ep & Ei). rewrite Ez, Ep.
    destruct (_ >? _); [repeat split; cbn; congruence|].
    destruct (_ <? _); repeat split; cbn; congruence.
  - repeat split; assumption.
Qed.
End Idempotent.

Section RunTwice.
Context {T1 : Type} `{Scalar T1}.
Implicit Type m : casadi_qp_mem T1.

(** [casadi_qp_calc_dependent] writes [f], [z], [infeas], [lam], [pr], [ipr],
    [du] and [idu] and nothing else. *)
Lemma calc_dependent_frame m :
  casadi_qp_calc_dependent m =
  let m1 := casadi_qp_calc_dependent m in
  set_idu (set_du (set_ipr (set_pr (set_infeas (set_lam (set_z (set_f m
    (dependent_f m)) (dependent_z m)) (lam m1)) (infeas m1)) (pr m1)) (ipr m1)) (du m1)) (idu m1).
Proof.
  cbv zeta. rewrite calc_dependent_stages.
  set (base := set_infeas (set_z (set_f m (dependent_f m)) (dependent_z m)) (lagrangian_gradient m)).
  pose proof (multiplier_loop_frame (nx m) base) as HL.
  set (L := multiplier_loop (nx m) base) in *.
  pose proof (casadi_qp_pr_frame L) as HP. set (P := casadi_qp_pr L) in *.
  pose proof (casadi_qp_du_frame P) as HD. set (D := casadi_qp_du P) in *.
  rewrite HD at 1. rewrite HP at 1. rewrite HL at 1.
  assert (pr D = pr P) as -> by (rewrite HD; reflexivity).
  assert (ipr D = ipr P) as -> by (rewrite HD; reflexivity).
  assert (lam D = lam L) as -> by (rewrite HD, HP; reflexivity).
  assert (infeas D = infeas L) as -> by (rewrite HD, HP; reflexivity).
  subst base. now destruct m.
Qed.

Context `{!SignLaws T1}.

Lemma clamp_idempotent d l r : (0 <? d) = true -> clamp d (clamp d l r) r = clamp d l r.
Proof.
  intros Hd. destruct (0 <? l) eqn:Hp.
  - destruct (clamp_pos d l r Hd Hp) as (E & P & _).
    destruct (clamp_pos d _ r Hd P) as (E' & _). now rewrite E', <- E.
  - destruct (l <? 0) eqn:Hn.
    + destruct (clamp_neg d l r Hd Hn) as (E & P & _).
      destruct (clamp_neg d _ r Hd P) as (E' & _). now rewrite E', <- E.
    + assert (clamp d l r = l) as -> by (unfold clamp; now rewrite Hp, Hn).
      unfold clamp; now rewrite Hp, Hn.
Qed.

Lemma sp_row_bound sp n : Forall (fun r => r < n) (row sp) -> 0 < n -> forall el, sp_row sp el < n.
Proof.
  intros Hr Hn el. unfold sp_row, rd. destruct (row sp !! el) as [r|] eqn:E; [|exact Hn].
  cbn. eapply Forall_lookup_1 in Hr; eassumption.
Qed.

(** The values that [casadi_qp_calc_dependent] leaves in the memory, in
    terms of the memory before the multipliers are updated. *)
Lemma calc_dependent_fields m :
  let m1 := casadi_qp_calc_dependent m in
  let L := multiplier_loop (nx m)
             (set_infeas (set_z (set_f m (dependent_f m)) (dependent_z m))
                         (lagrangian_gradient m)) in
  (f m1 = dependent_f m /\ z m1 = dependent_z m /\ lam m1 = lam L /\ infeas m1 = infeas L) /\
  (nx m1 = nx m /\ na m1 = na m /\ nz m1 = nz m /\ g m1 = g m /\ dmin m1 = dmin m /\
   nz_h m1 = nz_h m /\ sp_h m1 = sp_h m /\ nz_a m1 = nz_a m /\ sp_a m1 = sp_a m /\
   lbz m1 = lbz m /\ ubz m1 = ubz m) /\
  (forall m', z m' = dependent_z m -> lbz m' = lbz m -> ubz m' = ubz m -> nz m' = nz m ->
     pr m1 = pr (casadi_qp_pr m') /\ ipr m1 = ipr (casadi_qp_pr m')) /\
  (forall m', infeas m' = infeas L -> nx m' = nx m ->
     du m1 = du (casadi_qp_du m') /\ idu m1 = idu (casadi_qp_du m')).
Proof.
  cbv zeta.
  set (base := set_infeas (set_z (set_f m (dependent_f m)) (dependent_z m)) (lagrangian_gradient m)).
  pose proof (calc_dependent_lam m) as Hlam. pose proof (calc_dependent_infeas m) as Hinf.
  fold base in Hlam, Hinf.
  pose proof (calc_dependent_frame m) as Hfr. cbv zeta in Hfr.
  pose proof (calc_dependent_stages m) as Hst. fold base in Hst.
  pose proof (multiplier_loop_frame (nx m) base) as HL.
  set (L := multiplier_loop (nx m) base) in *. clearbody L.
  pose proof (casadi_qp_pr_frame L) as HP. set (P := casadi_qp_pr L) in *.
  pose proof (casadi_qp_du_frame P) as HD. set (D := casadi_qp_du P) in *.
  assert (z L = dependent_z m /\ lbz L = lbz m /\ ubz L = ubz m /\ nz L = nz m /\ nx L = nx m)
    as (HzL & HlbL & HubL & HnzL & HnxL) by (rewrite HL; repeat split).
  assert (infeas P = infeas L /\ nx P = nx m) as [HiP HnP].
  { rewrite HP. cbn [infeas nx set_pr set_ipr]. split; [reflexivity | exact HnxL]. }
  assert (pr D = pr P /\ ipr D = ipr P) as [HprD HiprD] by (rewrite HD; split; reflexivity).
  generalize dependent (casadi_qp_calc_dependent m). intros m1 Hlam Hinf Hfr Hst.
  split; [|split; [|split]].
  - rewrite Hfr. repeat split; assumption.
  - rewrite Hfr. repeat split.
  - intros m' Ez El Eu En. rewrite Hst, HprD, HiprD. unfold P.
    apply casadi_qp_pr_ext; congruence.
  - intros m' Ei En. rewrite Hst. unfold D. apply casadi_qp_du_ext; congruence.
Qed.

(** C7: [casadi_qp_calc_dependent] run a second time changes none of [f],
    [z], [infeas], [lam], [pr], [ipr], [du] and [idu], for vectors of the
    sizes that [eval] gives them and a pattern of [H] within [nx] rows and
    columns. *)
Theorem calc_dependent_idempotent m :
  (0 <? dmin m) = true ->
  length (z m) = (nx m + na m)%nat -> length (infeas m) = nx m ->
  (ncol (sp_h m) <= nx m)%nat -> Forall (fun r => r < nx m)%nat (row (sp_h m)) ->
  let m1 := casadi_qp_calc_dependent m in
  let m2 := casadi_qp_calc_dependent m1 in
  f m2 = f m1 /\ z m2 = z m1 /\ infeas m2 = infeas m1 /\ lam m2 = lam m1 /\
  pr m2 = pr m1 /\ ipr m2 = ipr m1 /\ du m2 = du m1 /\ idu m2 = idu m1.
Proof.
  intros Hd Hz Hi Hc Hr. cbv zeta.
  pose proof (calc_dependent_fields m) as F1. cbv zeta in F1.
  pose proof (calc_dependent_fields (casadi_qp_calc_dependent m)) as F2. cbv zeta in F2.
  generalize dependent (casadi_qp_calc_dependent (casadi_qp_calc_dependent m)). intros m2.
  generalize dependent (casadi_qp_calc_dependent m). intros m1 F1 F2.
  set (base := set_infeas (set_z (set_f m (dependent_f m)) (dependent_z m))
                          (lagrangian_gradient m)) in *.
  destruct (multiplier_loop_spec (nx m) base) as (Hll & Hli & Hp).
  cbn [lam infeas dmin set_infeas set_z set_f base] in Hll, Hli, Hp.
  rewrite length_lagrangian_gradient in Hli, Hp. unfold rdT in Hp.
  set (L := multiplier_loop (nx m) base) in *. clearbody L. clear base.
  destruct F1 as ((Hf1 & Hz1 & Hlam1 & Hinf1) &
          (Hnx & Hna & Hnz & Hg & Hdm & Hnh & Hsh & Hnza & Hsa & Hlb & Hub) & Hpr1 & Hdu1).
  (* z[:nx] is kept, z[nx:] has the length na *)
  assert (length (dependent_z m) = length (z m)) as Hlz.
  { unfold dependent_z, at_offset. cbv zeta.
    rewrite !length_app, !length_take, length_casadi_mv, !length_drop, !length_app,
      !length_take, length_casadi_fill, !length_drop. lia. }
  assert (take (nx m) (dependent_z m) = take (nx m) (z m)) as Htake.
  { unfold dependent_z, at_offset. cbv zeta.
    rewrite take_app_le
      by (rewrite length_take, length_app, length_take, length_casadi_fill, length_drop; lia).
    rewrite take_take, Nat.min_id.
    rewrite take_app_le by (rewrite length_take; lia).
    rewrite take_take. f_equal. lia. }
  assert (dependent_z m1 = dependent_z m) as HZ.
  { unfold dependent_z at 1. cbv zeta. rewrite Hz1, Hnx, Hna, Hnza, Hsa.
    unfold dependent_z at 3. cbv zeta. unfold at_offset at 1 2 3.
    rewrite Htake.
    rewrite (casadi_fill_all (drop (nx m) (dependent_z m))) by (rewrite length_drop; lia).
    unfold at_offset.
    rewrite (casadi_fill_all (drop (nx m) (z m))) by (rewrite length_drop; lia).
    rewrite !length_drop, Hlz.
    rewrite !take_app_le by (rewrite length_take; lia).
    rewrite !take_take.
    rewrite !drop_app_ge by (rewrite length_take; lia).
    rewrite !length_take.
    reflexivity. }
  assert (forall i, (i < nx m)%nat -> (dependent_z m).[i] = (z m).[i]) as Hlow.
  { intros i Hlt. unfold rdT, rd.
    rewrite <- (lookup_take_lt (dependent_z m) (nx m) i) by lia.
    rewrite <- (lookup_take_lt (z m) (nx m) i) by lia. now rewrite Htake. }
  assert (dependent_f m1 = dependent_f m) as HF.
  { unfold dependent_f. rewrite Hz1, Hnx, Hg, Hnh, Hsh. f_equal.
    - f_equal. destruct (decide (0 < nx m)%nat) as [Hpos|Hzero].
      + apply casadi_bilin_ext with (n := nx m); [assumption | now apply sp_row_bound | assumption].
      + unfold casadi_bilin. rewrite !for_range_nil by lia. reflexivity.
    - now apply casadi_dot_ext. }
  assert (drop (nx m) (lam m1) = drop (nx m) (lam m)) as Hdrop.
  { apply (list_eq_rd 0).
    - rewrite !length_drop, Hlam1, Hll. reflexivity.
    - intros i _. rewrite !rd_drop. rewrite Hlam1.
      destruct (Hp (nx m + i)%nat) as [E _]. rewrite E.
      rewrite decide_False by lia. reflexivity. }
  assert (lagrangian_gradient m1 = lagrangian_gradient m) as HG.
  { unfold lagrangian_gradient. cbv zeta. rewrite HZ, Hnx, Hg, Hnh, Hsh, Hnza, Hsa, Hdrop.
    rewrite (casadi_copy_all (g m) (nx m) (infeas m1) (infeas m)); [reflexivity| |].
    - now rewrite Hinf1, Hli.
    - rewrite Hinf1, Hli. lia. }
  destruct F2 as ((Hf2 & Hz2 & Hlam2 & Hinf2) & _ & Hpr2 & Hdu2).
  rewrite HF in Hf2. rewrite HZ in Hz2, Hpr2.
  rewrite HF, HZ, HG, Hnx in Hlam2, Hinf2, Hdu2.
  set (base1 := set_infeas (set_z (set_f m1 (dependent_f m)) (dependent_z m))
                           (lagrangian_gradient m)) in *.
  destruct (multiplier_loop_spec (nx m) base1) as (Hll2 & Hli2 & Hp2).
  cbn [lam infeas dmin set_infeas set_z set_f base1] in Hll2, Hli2, Hp2.
  rewrite length_lagrangian_gradient in Hli2, Hp2. rewrite Hdm in Hp2. unfold rdT in Hp2.
  set (L2 := multiplier_loop (nx m) base1) in *. clearbody L2. clear base1.
  assert (lam L2 = lam m1) as HlamL2.
  { apply (list_eq_rd 0); [assumption|]. intros i _.
    destruct (Hp2 i) as [E _]. rewrite E. clear E.
    destruct (decide (i < nx m /\ i < length (lam m1))%nat) as [[Hn Hl]|Hn]; [|reflexivity].
    rewrite Hlam1. destruct (Hp i) as [E _].
    rewrite E, decide_True by (split; [lia|]; rewrite <- Hll, <- Hlam1; lia).
    now apply clamp_idempotent. }
  assert (infeas L2 = infeas m1) as HinfL2.
  { apply (list_eq_rd 0); [now rewrite Hli2, Hinf1, Hli|]. intros i _.
    destruct (Hp2 i) as [_ E]. rewrite E. clear E.
    rewrite HlamL2, Hinf1.
    destruct (Hp i) as [_ E]. rewrite E. rewrite <- Hlam1.
    destruct (decide (i < nx m /\ i < length (infeas m))%nat) as [?|?]; reflexivity. }
  split; [congruence|]. split; [congruence|]. split; [congruence|]. split; [congruence|].
  (* pr and du are functions of z and infeas *)
  destruct (Hpr1 m1) as [E1 E2]; try congruence.
  destruct (Hpr2 m1) as [E3 E4]; try congruence.
  destruct (Hdu1 m1) as [E5 E6]; try congruence.
  destruct (Hdu2 m1) as [E7 E8]; try congruence.
  repeat split; congruence.
Qed.
End RunTwice.

(** ** [casadi_qp_dual_breakpoints] *)

Section Breakpoints.
Context {T1 : Type} `{Scalar T1}.
Implicit Type m : casadi_qp_mem T1.









Context `{!OrderLaws T1}.


End Breakpoints.

Section BreakpointsDouble.
Implicit Type m : casadi_qp_mem double.


End BreakpointsDouble.

(** ** [casadi_qp_kkt] *)

Section Matrices.
Context {T1 : Type} `{Scalar T1}.

Lemma in_pattern_spec sp r c :
  in_pattern sp r c = true <->
  exists k, (sp_colind sp c <= k < sp_colind sp (c + 1))%nat /\ sp_row sp k = r.
Proof.
  unfold in_pattern, for_col.
  rewrite (for_range_exists _ _ (fun k => bool_decide (sp_row sp k = r))).
  split; intros (k & Hk & Hr); exists k; (split; [assumption|]).
  - now apply bool_decide_eq_true in Hr.
  - now apply bool_decide_eq_true.
Qed.

Lemma entry_outside nzv sp r c : in_pattern sp r c = false -> entry nzv sp r c = 0.
Proof.
  unfold in_pattern, entry, for_col.
  apply (for_range_rel (fun (b : bool) (v : T1) => b = false -> v = 0)); [|reflexivity].
  intros k b v _ Hbv. destruct (bool_decide _); [discriminate | exact Hbv].
Qed.

(** "w[off + row[k]] = nz[k]" over a column. *)
Lemma scatter_spec (nzv : list T1) sp c off (W : list T1) :
  let W' := for_col sp c (fun k w => <[(off + sp_row sp k)%nat := nzv.[k]]> w) W in
  length W' = length W /\
  forall p, (p < length W)%nat ->
    W'.[p] = if bool_decide (off <= p)%nat && in_pattern sp (p - off) c
             then entry nzv sp (p - off)%nat c else W.[p].
Proof.
  cbv zeta. unfold for_col, in_pattern, entry, for_col.
  set (a := sp_colind sp c). set (b := sp_colind sp (c + 1)).
  destruct (decide (a <= b)%nat) as [Hab|Hab].
  2: { split; [now rewrite for_range_nil by lia|]. intros p _.
       rewrite !for_range_nil by lia. now rewrite andb_false_r. }
  apply (for_range_ind (fun k' W' =>
    length W' = length W /\
    forall p, (p < length W)%nat ->
      W'.[p] = if bool_decide (off <= p)%nat &&
                  for_range a k' (fun k b => if bool_decide (sp_row sp k = (p - off)%nat)
                                             then true else b) false
               then for_range a k' (fun k v => if bool_decide (sp_row sp k = (p - off)%nat)
                                               then nzv.[k] else v) 0
               else W.[p]) a b _ W); [assumption| |].
  - split; [reflexivity|]. intros p _. rewrite !for_range_nil by lia.
    now rewrite andb_false_r.
  - intros k W' Hk [Hl Hp]. split; [now rewrite length_insert|].
    intros p Hpl. rewrite !for_range_snoc by lia.
    unfold rdT at 1. rewrite rd_insert, Hl. fold (rdT W' p). rewrite (Hp p Hpl).
    destruct (decide ((off + sp_row sp k)%nat = p /\ _)) as [[<- _]|Hne].
    + rewrite bool_decide_eq_true_2 by lia.
      replace (off + sp_row sp k - off)%nat with (sp_row sp k) by lia.
      rewrite !bool_decide_eq_true_2 by reflexivity. reflexivity.
    + destruct (bool_decide (off <= p)%nat) eqn:Eo; [|reflexivity].
      apply bool_decide_eq_true in Eo.
      rewrite !(bool_decide_eq_false_2 (sp_row sp k = (p - off)%nat)) by lia.
      reflexivity.
Qed.
End Matrices.

Section KKT.
Context {T1 : Type} `{Scalar T1}.
Implicit Type m : casadi_qp_mem T1.

Lemma in_pattern_row sp r c (n : nat) :
  (forall k, in_col sp c k -> (sp_row sp k < n)%nat) -> (n <= r)%nat -> in_pattern sp r c = false.
Proof.
  intros Hrows Hr. apply not_true_iff_false. intros Hin.
  apply in_pattern_spec in Hin as (k & Hk & <-). specialize (Hrows k Hk). lia.
Qed.

Lemma scatter_spec0 (nzv : list T1) sp c (W : list T1) :
  let W' := for_col sp c (fun k w => <[sp_row sp k := nzv.[k]]> w) W in
  length W' = length W /\
  forall p, (p < length W)%nat ->
    W'.[p] = if in_pattern sp p c then entry nzv sp p c else W.[p].
Proof.
  destruct (scatter_spec nzv sp c 0 W) as [Hl Hp]. cbv zeta. split; [exact Hl|].
  intros p Hp'. specialize (Hp p Hp'). rewrite bool_decide_eq_true_2 in Hp by lia.
  rewrite Nat.sub_0_r in Hp. exact Hp.
Qed.

(** The row that [kkt_scatter] puts into a zero vector. *)
Lemma kkt_scatter_spec m i (W : list T1) :
  kkt_wf m -> (i < nz m)%nat -> (nz m <= length W)%nat ->
  (forall p, (p < nz m)%nat -> W.[p] = 0) ->
  let W' := kkt_scatter m i ((lam m).[i] == 0) W in
  length W' = length W /\
  forall p, (p < nz m)%nat ->
    W'.[p] = kkt_row_value m i p /\
    (in_pattern (sp_kkt m) p i = false -> W'.[p] = 0).
Proof.
  intros Hwf Hi HW H0. cbv zeta.
  pose proof (fun p => wf_kkt_covers m Hwf i ((lam m).[i] == 0) p Hi) as Hcov.
  unfold kkt_scatter, kkt_row_value, scatter_pattern in *.
  destruct (i <? nx m)%nat eqn:Ei; [apply Nat.ltb_lt in Ei | apply Nat.ltb_ge in Ei].
  - destruct ((lam m).[i] == 0).
    + cbv zeta.
      pose proof (scatter_spec0 (nz_h m) (sp_h m) i W) as [Hl1 Hp1]. cbv zeta in Hl1, Hp1.
      set (W1 := for_col (sp_h m) i (fun k w => <[sp_row (sp_h m) k := (nz_h m).[k]]> w) W) in *.
      pose proof (scatter_spec (nz_a m) (sp_a m) i (nx m) W1) as [Hl2 Hp2].
      cbv zeta in Hl2, Hp2.
      split; [congruence|]. intros p Hp.
      rewrite Hp2 by lia. rewrite Hp1 by lia. rewrite (H0 p Hp).
      specialize (Hcov p).
      destruct (bool_decide (nx m <= p)%nat) eqn:Ep.
      * apply bool_decide_eq_true in Ep.
        rewrite (in_pattern_row (sp_h m) p i (nx m)) in * by (try apply (wf_h_rows m Hwf); lia).
        replace (p <? nx m)%nat with false by (symmetry; apply Nat.ltb_ge; lia).
        cbn [andb orb] in *.
        destruct (in_pattern (sp_a m) (p - nx m) i) eqn:Ea.
        -- split; [reflexivity|]. intros E. rewrite Hcov in E by reflexivity. discriminate.
        -- split; [|reflexivity]. symmetry. now apply entry_outside.
      * apply bool_decide_eq_false in Ep.
        replace (p <? nx m)%nat with true by (symmetry; apply Nat.ltb_lt; lia).
        cbn [andb] in *. rewrite orb_false_r in Hcov.
        destruct (in_pattern (sp_h m) p i) eqn:Eh.
        -- split; [apply (wf_h_sym m Hwf); lia|].
           intros E. rewrite Hcov in E by reflexivity. discriminate.
        -- split; [|reflexivity]. rewrite (wf_h_sym m Hwf) by lia.
           symmetry. now apply entry_outside.
    + rewrite length_insert. split; [reflexivity|]. intros p Hp.
      unfold rdT. rewrite rd_insert. fold (rdT W p). rewrite (H0 p Hp).
      specialize (Hcov p).
      destruct (decide (i = p /\ _)) as [[<- _]|Hne].
      * rewrite Nat.eqb_refl. split; [reflexivity|].
        intros E. rewrite Hcov in E by now apply bool_decide_eq_true. discriminate.
      * replace (p =? i)%nat with false by (symmetry; apply Nat.eqb_neq; lia).
        split; reflexivity.
  - destruct ((lam m).[i] == 0).
    + rewrite length_insert. split; [reflexivity|]. intros p Hp.
      unfold rdT. rewrite rd_insert. fold (rdT W p). rewrite (H0 p Hp).
      specialize (Hcov p).
      destruct (decide (i = p /\ _)) as [[<- _]|Hne].
      * rewrite Nat.eqb_refl. split; [reflexivity|].
        intros E. rewrite Hcov in E by now apply bool_decide_eq_true. discriminate.
      * replace (p =? i)%nat with false by (symmetry; apply Nat.eqb_neq; lia).
        split; reflexivity.
    + pose proof (scatter_spec0 (nz_at m) (sp_at m) (i - nx m) W) as [Hl1 Hp1].
      cbv zeta in Hl1, Hp1. split; [exact Hl1|]. intros p Hp.
      rewrite Hp1 by lia. rewrite (H0 p Hp).
      specialize (Hcov p).
      destruct (p <? nx m)%nat eqn:Ep; [apply Nat.ltb_lt in Ep | apply Nat.ltb_ge in Ep].
      * destruct (in_pattern (sp_at m) p (i - nx m)) eqn:Ea.
        -- split; [now apply (wf_at m Hwf)|].
           intros E. rewrite Hcov in E by reflexivity. discriminate.
        -- split; [|reflexivity]. rewrite <- (wf_at m Hwf) by lia.
           symmetry. now apply entry_outside.
      * rewrite (in_pattern_row (sp_at m) p (i - nx m) (nx m))
          by (try apply (wf_at_rows m Hwf); lia).
        split; reflexivity.
Qed.
End KKT.

Section KKTRows.
Context {T1 : Type} `{Scalar T1}.
Implicit Type m : casadi_qp_mem T1.

Lemma rd_casadi_fill (x : list T1) n (a : T1) i :
  (casadi_fill x n a).[i] = if decide (i < n /\ i < length x)%nat then a else x.[i].
Proof.
  unfold casadi_fill.
  enough (length (for_range 0 n (fun i x => <[i := a]> x) x) = length x /\
          forall j, (for_range 0 n (fun i x => <[i := a]> x) x).[j] =
                    if decide (j < n /\ j < length x)%nat then a else x.[j])
    as [_ Hj] by apply Hj.
  apply (for_range_ind (fun k y => length y = length x /\
           forall j, y.[j] = if decide (j < k /\ j < length x)%nat then a else x.[j])
           0%nat n _ x); [lia| |].
  - split; [reflexivity|]. intros j. now rewrite decide_False by lia.
  - intros k y _ [Hl Hy]. split; [now rewrite length_insert|].
    intros j. unfold rdT at 1. rewrite rd_insert, Hl. fold (rdT y j). rewrite Hy.
    destruct (decide (k = j /\ _)) as [[<- ?]|?].
    + now rewrite decide_True by lia.
    + destruct (decide (j < k /\ _)%nat) as [[? ?]|?],
        (decide (j < Datatypes.S k /\ _)%nat) as [[? ?]|?]; try reflexivity; exfalso; lia.
Qed.

(** "Copy row to KKT, zero out w". *)
Lemma kkt_gather_spec m i :
  let a := sp_colind (sp_kkt m) i in
  let b := sp_colind (sp_kkt m) (i + 1) in
  (a <= b)%nat -> (b <= length (nz_kkt m))%nat ->
  (forall k k', in_col (sp_kkt m) i k -> in_col (sp_kkt m) i k' ->
     sp_row (sp_kkt m) k = sp_row (sp_kkt m) k' -> k = k') ->
  exists K W,
    for_col (sp_kkt m) i (fun k m =>
      let m := set_nz_kkt m (<[k := (w m).[sp_row (sp_kkt m) k]]> (nz_kkt m)) in
      set_w m (<[sp_row (sp_kkt m) k := 0]> (w m))) m = set_w (set_nz_kkt m K) W /\
    length W = length (w m) /\ length K = length (nz_kkt m) /\
    (forall k, K.[k] = if decide (a <= k < b)%nat then (w m).[sp_row (sp_kkt m) k]
                       else (nz_kkt m).[k]) /\
    (forall p, W.[p] = if in_pattern (sp_kkt m) p i then 0 else (w m).[p]).
Proof.
  cbv zeta. intros Hab Hb Hdist. unfold for_col, in_pattern, for_col.
  set (a := sp_colind (sp_kkt m) i) in *. set (b := sp_colind (sp_kkt m) (i + 1)) in *.
  apply (for_range_ind (fun k' m' => exists K W,
    m' = set_w (set_nz_kkt m K) W /\
    length W = length (w m) /\ length K = length (nz_kkt m) /\
    (forall k, K.[k] = if decide (a <= k < k')%nat then (w m).[sp_row (sp_kkt m) k]
                       else (nz_kkt m).[k]) /\
    (forall p, W.[p] = if for_range a k' (fun k b =>
                            if bool_decide (sp_row (sp_kkt m) k = p) then true else b) false
                       then 0 else (w m).[p])) a b _ m); [assumption| |].
  - exists (nz_kkt m), (w m). split; [now destruct m|]. do 2 (split; [reflexivity|]).
    split; intros j; [now rewrite decide_False by lia | now rewrite for_range_nil by lia].
  - intros k m' Hk (K & W & -> & HlW & HlK & HK & HW).
    cbn [w nz_kkt sp_kkt set_w set_nz_kkt].
    exists (<[k := W.[sp_row (sp_kkt m) k]]> K), (<[sp_row (sp_kkt m) k := 0]> W).
    split; [reflexivity|]. rewrite !length_insert.
    do 2 (split; [assumption|]). split.
    + intros j. unfold rdT at 1. rewrite rd_insert, HlK. fold (rdT K j). rewrite HK.
      destruct (decide (k = j /\ _)) as [[<- _]|Hne].
      * rewrite decide_True by lia. rewrite HW.
        destruct (for_range a k _ false) eqn:E; [|reflexivity]. exfalso.
        apply (for_range_exists a k (fun k' => bool_decide (sp_row (sp_kkt m) k' = sp_row (sp_kkt m) k)))
          in E as (k' & Hk' & E).
        apply bool_decide_eq_true in E. apply Hdist in E; [lia| |]; unfold in_col; fold a b; lia.
      * destruct (decide (a <= j < k)%nat), (decide (a <= j < Datatypes.S k)%nat);
          try reflexivity; exfalso; lia.
    + intros p. rewrite for_range_snoc by lia.
      unfold rdT at 1. rewrite rd_insert, HlW. fold (rdT W p). rewrite HW.
      destruct (decide (sp_row (sp_kkt m) k = p /\ _)) as [[<- _]|Hne].
      * now rewrite bool_decide_eq_true_2.
      * destruct (bool_decide (sp_row (sp_kkt m) k = p)) eqn:E; [|reflexivity].
        apply bool_decide_eq_true in E.
        destruct (for_range a k _ false); [reflexivity|].
        unfold rdT, rd. rewrite lookup_ge_None_2 by lia. reflexivity.
Qed.

Lemma kkt_colind_mono m : kkt_wf m -> forall i j, (i <= j)%nat -> (j <= nz m)%nat ->
  (sp_colind (sp_kkt m) i <= sp_colind (sp_kkt m) j)%nat.
Proof.
  intros Hwf i j Hij. induction j as [|j IH]; intros Hj.
  - replace i with 0%nat by lia. lia.
  - destruct (decide (i = Datatypes.S j)) as [->|Hne]; [lia|].
    pose proof (wf_kkt_colind m Hwf j ltac:(lia)) as Hc.
    replace (j + 1)%nat with (Datatypes.S j) in Hc by lia.
    specialize (IH ltac:(lia) ltac:(lia)). lia.
Qed.

(** C2: [casadi_qp_kkt] fills the nonzeros of the KKT pattern, whose column
    [i] stores row [i] of the KKT matrix, so that the nonzero at the position
    [c] of that row is: the entry [(i,c)] of [H A'] when [lam[i] = 0] and
    [i < nx]; that of the identity when [lam[i] <> 0] and [i < nx]; that of
    [-I] when [lam[i] = 0] and [i >= nx]; and that of row [i - nx] of [A 0]
    when [lam[i] <> 0] and [i >= nx]; a position of the pattern that the
    selected row does not cover receives zero. *)
Theorem casadi_qp_kkt_rows m :
  kkt_wf m ->
  forall i k, (i < nz m)%nat -> in_col (sp_kkt m) i k ->
    (nz_kkt (casadi_qp_kkt m)).[k] = kkt_row_value m i (sp_row (sp_kkt m) k).
Proof.
  intros Hwf.
  enough (exists K W, casadi_qp_kkt m = set_w (set_nz_kkt m K) W /\
            forall i k, (i < nz m)%nat -> in_col (sp_kkt m) i k ->
              K.[k] = kkt_row_value m i (sp_row (sp_kkt m) k)) as (K & W & -> & HK)
    by exact HK.
  unfold casadi_qp_kkt. cbv zeta. cbn [nz w set_w].
  pose (Inv := fun (i : nat) (mi : casadi_qp_mem T1) => exists K W,
    mi = set_w (set_nz_kkt m K) W /\
    length W = length (w m) /\ length K = length (nz_kkt m) /\
    (forall p, (p < nz m)%nat -> W.[p] = 0) /\
    (forall i' k, (i' < i)%nat -> in_col (sp_kkt m) i' k ->
       K.[k] = kkt_row_value m i' (sp_row (sp_kkt m) k))).
  set (body := fun (i : nat) (m : casadi_qp_mem T1) => _).
  assert (Inv (nz m) (for_range 0 (nz m) body (set_w m (casadi_fill (w m) (nz m) 0)))) as HI.
  { apply (for_range_ind Inv); [lia| |].
    - exists (nz_kkt m), (casadi_fill (w m) (nz m) 0). split; [now destruct m|].
      split; [apply length_casadi_fill|]. split; [reflexivity|]. split; [|intros; lia].
      intros p Hp. rewrite rd_casadi_fill.
      destruct (decide _) as [?|Hn]; [reflexivity|].
      unfold rdT, rd. rewrite lookup_ge_None_2 by lia. reflexivity.
    - intros i mi Hi (K & W & -> & HlW & HlK & HW & HK). unfold body.
      cbn [lam w sp_kkt set_w set_nz_kkt].
      change (kkt_scatter (set_w (set_nz_kkt m K) W) i ((lam m).[i] == 0) W)
        with (kkt_scatter m i ((lam m).[i] == 0) W).
      destruct (kkt_scatter_spec m i W Hwf ltac:(lia)) as [Hl1 Hp1];
        [pose proof (wf_w m Hwf); lia | assumption |].
      cbv zeta in Hl1, Hp1.
      set (W1 := kkt_scatter m i ((lam m).[i] == 0) W) in *.
      change (set_w (set_w (set_nz_kkt m K) W) W1) with (set_w (set_nz_kkt m K) W1).
      set (m1 := set_w (set_nz_kkt m K) W1).
      pose proof (kkt_colind_mono m Hwf) as Hmono.
      destruct (kkt_gather_spec m1 i) as (K' & W' & Heq & HlW' & HlK' & HK' & HW').
      { apply (wf_kkt_colind m Hwf). lia. }
      { cbn [nz_kkt sp_kkt m1 set_w set_nz_kkt]. rewrite HlK.
        etransitivity; [|apply (wf_kkt_nnz m Hwf)]. apply Hmono; lia. }
      { intros k k'. apply (wf_kkt_distinct m Hwf i k k'). lia. }
      cbn [w nz_kkt sp_kkt m1 set_w set_nz_kkt] in Heq, HlW', HlK', HK', HW'.
      exists K', W'. split; [exact Heq|]. split; [congruence|]. split; [congruence|]. split.
      + intros p Hp. rewrite HW'. destruct (in_pattern (sp_kkt m) p i) eqn:E; [reflexivity|].
        now apply Hp1.
      + intros i' k Hi' Hk. rewrite HK'.
        destruct (decide (i' = i)) as [->|Hne].
        * rewrite decide_True by exact Hk. apply Hp1.
          apply (wf_kkt_rows m Hwf i k); [lia | assumption].
        * unfold in_col in Hk.
          pose proof (Hmono (i' + 1)%nat i ltac:(lia) ltac:(lia)).
          rewrite decide_False by lia. apply HK; [lia | assumption]. }
  destruct HI as (K & W & Heq & _ & _ & _ & HK).
  exists K, W. split; [exact Heq | exact HK].
Qed.
End KKTRows.

Local Close Scope sc_scope.

(** ** Runs of the solver on concrete problems *)

(** C9 fails as stated: on the two-variable problem with [lbx = (1,1)] and
    [ubx = (0,0)] the initialisation raises nothing; it completes with no
    sign excluded and the multipliers at zero. *)
Lemma eval_crossed_bounds_no_error :
  match @eval_init accept_inputs zero_work (solver_2x2 false) crossed_bounds with
  | inl _ => False
  | inr s => neverzero (qp_m s) = [false; false] /\ neverupper (qp_m s) = [false; false] /\
             neverlower (qp_m s) = [false; false] /\ lam (qp_m s) = [0; 0]%float
  end.
Proof. vm_compute. repeat split. Qed.

Section Crossed.
Context {IC : InputCheck} {WV : WorkVector}.

(** C9: with two variables, no linear constraint, the lower bounds [(1,1)]
    and the upper bounds [(0,0)], the initialisation never raises "No sign
    possible": it fails exactly when the input check is on and rejects the
    problem, and otherwise it completes with no sign excluded for either
    variable and with the multipliers as they were passed in. *)
Theorem eval_crossed_bounds S arg :
  nx_ S = 2 -> na_ S = 0 ->
  CONIC_LBX arg = [1; 1]%float -> CONIC_UBX arg = [0; 0]%float ->
  (forall i, eval_init S arg <> inl (No_sign_possible_for i)) /\
  (eval_init S arg = inl Inputs_rejected <->
     inputs_check_ S = true /\
     check_inputs (CONIC_LBX arg) (CONIC_UBX arg) (CONIC_LBA arg) (CONIC_UBA arg) = false) /\
  (forall s, eval_init S arg = inr s ->
     neverzero (qp_m s) = [false; false] /\ neverupper (qp_m s) = [false; false] /\
     neverlower (qp_m s) = [false; false] /\ lam (qp_m s) = eval_lam S arg).
Proof.
  intros Hnx Hna Hlb Hub. unfold eval_init.
  destruct (inputs_check_ S) eqn:Ec; cbn [andb];
    [destruct (check_inputs _ _ _ _) eqn:Ek; cbn [negb]|].
  2: { split; [discriminate|]. split; [tauto | discriminate]. }
  all: unfold eval_lbz, eval_ubz; rewrite Hnx, Hna, Hlb, Hub.
  all: cbn -[eval_lam eval_z casadi_trans].
  all: destruct (casadi_trans _ _ _ _ _) as [trans_a iw'].
  all: (split; [discriminate|]); (split; [split; [discriminate | intros [? ?]; discriminate]|]).
  all: intros s [= <-]; cbn [qp_m neverzero neverupper neverlower lam]; tauto.
Qed.
End Crossed.

Lemma eval_crossed_bounds_witness :
  (forall i, @eval_init accept_inputs zero_work (solver_2x2 true) crossed_bounds
             <> inl (No_sign_possible_for i)) /\
  (@eval_init accept_inputs zero_work (solver_2x2 true) crossed_bounds = inl Inputs_rejected <->
     inputs_check_ (solver_2x2 true) = true /\
     @check_inputs accept_inputs (CONIC_LBX crossed_bounds) (CONIC_UBX crossed_bounds)
       (CONIC_LBA crossed_bounds) (CONIC_UBA crossed_bounds) = false) /\
  (forall s, @eval_init accept_inputs zero_work (solver_2x2 true) crossed_bounds = inr s ->
     neverzero (qp_m s) = [false; false] /\ neverupper (qp_m s) = [false; false] /\
     neverlower (qp_m s) = [false; false] /\
     lam (qp_m s) = eval_lam (solver_2x2 true) crossed_bounds).
Proof.
  apply (@eval_crossed_bounds accept_inputs zero_work (solver_2x2 true) crossed_bounds); reflexivity.
Defined.

(** C1: on the problem [min x^2/2] subject to [0 <= x <= 0], started from
    [x = 0] with [lam = 0], the signs of the multipliers are permitted after
    the initialisation and after the first pass of the loop, where
    [lam = [-DMIN]] and [neverzero = [true]]; in the second pass
    [casadi_qp_flip] takes the index from [casadi_qp_du_index] and sets
    [lam[0]] to zero, a sign that [neverzero[0]] does not permit. *)
Lemma flip_breaks_sign_invariant :
  let S := solver_1x1 1000 false in
  match @eval_init accept_inputs zero_work S (problem_1x1 1 0 0 0 0 0) with
  | inr s0 =>
    sign_invariant (qp_m s0) = true /\ neverzero (qp_m s0) = [true] /\
    match @loop_body LinAlg_1x1 S s0 with
    | Next s1 =>
      sign_invariant (qp_m s1) = true /\ lam (qp_m s1) = [(- DMIN)%float] /\
      match casadi_qp_flip (LA := LinAlg_1x1) (casadi_qp_calc_dependent (qp_m s1))
              (index s1) (sign s1) (r_index s1) (r_sign s1) with
      | Some (m2, _, _) =>
        sign_invariant m2 = false /\ lam m2 = [0%float] /\ neverzero m2 = [true]
      | None => False
      end
    | _ => False
    end
  | inl _ => False
  end.
Proof. vm_compute. repeat split. Qed.

Section ScaleFault.
Context {T1 : Type} `{ScalarInf T1} {LA : LinAlg T1}.

(** With a singular KKT matrix and [du <= du_to_pr * pr] the test on the
    admissible direction reads [lam[ipr]]; with [ipr < 0] that read is
    outside the array. *)
Lemma scale_step_reads_lam_at_ipr (m : casadi_qp_mem T1) :
  sing m <> 0%Z -> Sleb (du m) (Smul (du_to_pr m) (pr m)) = true -> (ipr m < 0)%Z ->
  casadi_qp_scale_step m = None.
Proof.
  intros Hs Hd Hi. unfold casadi_qp_scale_step.
  destruct (Z.eqb_spec (sing m) 0) as [E|_]; [contradiction|].
  rewrite Hd. unfold index_of. destruct (Z.ltb_spec (ipr m) 0) as [_|E]; [|lia].
  cbn [mbind option_bind].
  repeat match goal with |- context [let '(_, _) := ?x in _] => destruct x end.
  reflexivity.
Qed.
End ScaleFault.

(** C10: on the problem with [H = 0], [g = 0] and no bounds, started from
    [x = 0] with [lam = 0], the KKT matrix is singular while [pr = 0] and
    [du = 0], so that [ipr = -1] when [casadi_qp_scale_step] reads
    [lam[ipr]] and [dlam[ipr]]: the run ends in an access outside the
    array. *)
Lemma eval_singular_start_faults :
  @eval LinAlg_1x1 accept_inputs zero_work (solver_1x1 1000 false)
        (problem_1x1 0 0 neg_infinity infinity 0 0) = Some Fault.
Proof. vm_compute. reflexivity. Qed.

Lemma calc_dependent_multipliers_witness :
  let m := mem_double in
  let r := rdT (lagrangian_gradient m) 0 in
  let m' := casadi_qp_calc_dependent m in
  (Sltb Szero (rdT (lam m) 0) = true ->
     rdT (lam m') 0 = fmax (Sopp r) (dmin m) /\
     Sltb Szero (rdT (lam m') 0) = true /\ Sleb (dmin m) (rdT (lam m') 0) = true) /\
  (Sltb (rdT (lam m) 0) Szero = true ->
     rdT (lam m') 0 = fmin (Sopp r) (Sopp (dmin m)) /\
     Sltb (rdT (lam m') 0) Szero = true /\ Sleb (rdT (lam m') 0) (Sopp (dmin m)) = true) /\
  (Seqb (rdT (lam m) 0) Szero = true -> rdT (lam m') 0 = rdT (lam m) 0) /\
  rdT (infeas m') 0 = Sadd r (rdT (lam m') 0).
Proof.
  apply (calc_dependent_multipliers mem_double 0); [reflexivity | cbn; lia ..].
Defined.

Lemma calc_dependent_idempotent_witness :
  let m1 := casadi_qp_calc_dependent mem_double in
  let m2 := casadi_qp_calc_dependent m1 in
  f m2 = f m1 /\ z m2 = z m1 /\ infeas m2 = infeas m1 /\ lam m2 = lam m1 /\
  pr m2 = pr m1 /\ ipr m2 = ipr m1 /\ du m2 = du m1 /\ idu m2 = idu m1.
Proof.
  apply (calc_dependent_idempotent mem_double);
    [reflexivity | reflexivity | reflexivity | cbn; lia | repeat constructor].
Defined.

Local Open Scope sc_scope.



Local Close Scope sc_scope.

Lemma kkt_wf_mem_double : kkt_wf mem_double.
Proof.
  split.
  - cbn. lia.
  - intros c k _. destruct k as [|[|k]]; cbn; lia.
  - intros c k _. destruct k as [|[|k]]; cbn; lia.
  - intros r c Hr Hc. cbn in Hr, Hc. replace r with 0%nat by lia. now replace c with 0%nat by lia.
  - intros r c Hc. cbn in Hc. replace c with 0%nat by lia. destruct r as [|[|r]]; reflexivity.
  - intros i Hi. cbn in Hi. destruct i as [|[|i]]; cbn; lia.
  - cbn. lia.
  - intros i k _ _. do 5 (destruct k as [|k]; [cbn; lia|]). cbn. lia.
  - intros i k k' Hi Hk Hk' Hr. cbn in Hi. unfold in_col in Hk, Hk'.
    destruct i as [|[|i]]; [| |lia]; cbn in Hk, Hk'.
    + assert (k = 0 \/ k = 1)%nat as [-> | ->] by lia;
        assert (k' = 0 \/ k' = 1)%nat as [-> | ->] by lia;
        try reflexivity; vm_compute in Hr; discriminate Hr.
    + assert (k = 2 \/ k = 3)%nat as [-> | ->] by lia;
        assert (k' = 2 \/ k' = 3)%nat as [-> | ->] by lia;
        try reflexivity; vm_compute in Hr; discriminate Hr.
  - intros i b p Hi. cbn in Hi.
    destruct i as [|[|i]]; [| |lia]; destruct b, p as [|[|p]]; vm_compute; congruence.
Qed.

Lemma casadi_qp_kkt_rows_witness :
  rdT (nz_kkt (casadi_qp_kkt mem_double)) 0 =
  kkt_row_value mem_double 0 (sp_row (sp_kkt mem_double) 0).
Proof.
  apply (casadi_qp_kkt_rows mem_double kkt_wf_mem_double 0 0); [cbn; lia|].
  unfold in_col. cbn. lia.
Defined.

Lemma active_set_changes_witness :
  let m := mem_double in
  (forall i, keeps_activity (rdT (lam m) i) (rdT (lam (casadi_qp_calc_dependent m)) i)) /\
  (forall tau i, keeps_activity (rdT (lam m) i)
                   (rdT (lam (casadi_qp_take_step (set_tau m tau))) i)) /\
  lam (casadi_qp_factorize (LA := LinAlg_1x1) m) = lam m /\
  (forall m' ret ri rs,
     casadi_qp_calc_step (LA := LinAlg_1x1) m = Some (m', ret, ri, rs) -> lam m' = lam m) /\
  (forall i, keeps_activity (rdT (lam m) i) (rdT (lam (casadi_qp_linesearch m).1.1) i)) /\
  (forall index sign r_index r_sign m' index' sign',
     casadi_qp_flip (LA := LinAlg_1x1) m index sign r_index r_sign = Some (m', index', sign') ->
     exists j k : Z, forall i : nat, Z.of_nat i <> j -> Z.of_nat i <> k ->
       keeps_activity (rdT (lam m) i) (rdT (lam m') i)).
Proof.
  apply (active_set_changes (LA := LinAlg_1x1) mem_double); [reflexivity | cbn; lia ..].
Defined.

(** * Further properties of the kernels and of the driver *)

Local Open Scope sc_scope.

(** ** The witnesses of the largest violations *)

Section Errors.
Context {T1 : Type} `{Scalar T1}.
Implicit Type m : casadi_qp_mem T1.


(** [casadi_qp_du] leaves [idu = -1] exactly when no entry of [infeas]
    below [nx] is above or below zero, and then [du = 0]; otherwise [idu]
    is an index below [nx] and [du] is the entry of [infeas] at that index
    or its negative. *)
Theorem casadi_qp_du_violation m :
  let m' := casadi_qp_du m in
  (idu m' = (-1)%Z <->
   forall i, (i < nx m)%nat ->
     ((infeas m).[i] >? 0) = false /\ ((infeas m).[i] <? - 0) = false) /\
  (idu m' = (-1)%Z /\ du m' = 0 \/
   exists i, (i < nx m)%nat /\ idu m' = Z.of_nat i /\
             (du m' = (infeas m).[i] \/ du m' = - (infeas m).[i])).
Proof.
  cbv zeta. unfold casadi_qp_du. cbv zeta. cbn [nx set_du set_idu].
  pose (Inv := fun (k : nat) (m' : casadi_qp_mem T1) =>
    infeas m' = infeas m /\
    ((idu m' = (-1)%Z /\ du m' = 0 /\
      forall i, (i < k)%nat ->
        ((infeas m).[i] >? 0) = false /\ ((infeas m).[i] <? - 0) = false) \/
     (exists i, (i < k)%nat /\ idu m' = Z.of_nat i /\
                (du m' = (infeas m).[i] \/ du m' = - (infeas m).[i])) /\
     (exists j, (j < k)%nat /\ (((infeas m).[j] >? 0) = true \/
                                ((infeas m).[j] <? - 0) = true)))).
  enough (Inv (nx m) (for_range 0%nat (nx m)
            (fun i m0 =>
               if (infeas m0).[i] >? du m0
               then set_idu (set_du m0 ((infeas m0).[i])) (Z.of_nat i)
               else if (infeas m0).[i] <? - du m0
                    then set_idu (set_du m0 (- (infeas m0).[i])) (Z.of_nat i)
                    else m0)
            (set_idu (set_du m 0) (-1)%Z))) as [_ HI].
  { destruct HI as [(Ei & Ep & Hall)|((i & Hi & Ei & Ep) & (j & Hj & Hv))].
    - split; [split; [intros _; exact Hall | intros _; exact Ei]|]. left. now split.
    - split.
      + split; [intros E; lia|]. intros Hall. destruct (Hall j Hj) as [Hu Hl].
        destruct Hv as [Hv|Hv]; congruence.
      + right. exists i. repeat split; assumption. }
  apply (for_range_ind Inv); subst Inv; cbv beta; [lia| |].
  - split; [reflexivity|]. left. split; [reflexivity|]. split; [reflexivity|].
    intros i Hi. lia.
  - intros k m' Hk (Ef & Hp). rewrite Ef.
    destruct Hp as [(Ei & Ep & Hall)|((i & Hi & Ei & Ep) & (j & Hj & Hv))].
    + rewrite Ep.
      destruct ((infeas m).[k] >? 0) eqn:E1;
        [|destruct ((infeas m).[k] <? - 0) eqn:E2];
        cbn [infeas du idu set_du set_idu].
      * split; [assumption|]. right. split.
        -- exists k. split; [lia|]. split; [reflexivity | now left].
        -- exists k. split; [lia | now left].
      * split; [assumption|]. right. split.
        -- exists k. split; [lia|]. split; [reflexivity | now right].
        -- exists k. split; [lia | now right].
      * split; [assumption|]. left. split; [assumption|]. split; [assumption|].
        intros i Hi. destruct (decide (i = k)) as [->|Hne]; [now split | apply Hall; lia].
    + assert (exists j, (j < Datatypes.S k)%nat /\
                (((infeas m).[j] >? 0) = true \/ ((infeas m).[j] <? - 0) = true)) as Hv'
        by (exists j; split; [lia | assumption]).
      destruct ((infeas m).[k] >? du m'); [|destruct ((infeas m).[k] <? - du m')];
        cbn [infeas du idu set_du set_idu].
      * split; [assumption|]. right. split; [|exact Hv'].
        exists k. split; [lia|]. split; [reflexivity | now left].
      * split; [assumption|]. right. split; [|exact Hv'].
        exists k. split; [lia|]. split; [reflexivity | now right].
      * split; [assumption|]. right. split; [|exact Hv'].
        exists i. split; [lia|]. split; assumption.
Qed.

End Errors.

(** ** Blocking at a step of length zero *)

Section Blocking.
Context {T1 : Type} `{Scalar T1}.
Implicit Type m : casadi_qp_mem T1.

(** [casadi_qp_zero_blocking] returns the last index that passes one of
    its tests, with the sign of the bound, and leaves [index] and [sign] as
    they are when no index passes ([dz_max] stays zero, so the size of the
    step plays no part). *)
Theorem casadi_qp_zero_blocking_last m (e : T1) index sign :
  let '(ret, index', sign') := casadi_qp_zero_blocking m e index sign in
  if ret then
    exists i, (i < nz m)%nat /\ index' = Z.of_nat i /\
      (if blocks_lower m e i then sign' = (-1)%Z
       else blocks_upper m e i = true /\ sign' = 1%Z) /\
      forall j, (i < j < nz m)%nat -> blocks_lower m e j = false /\ blocks_upper m e j = false
  else
    index' = index /\ sign' = sign /\
    forall j, (j < nz m)%nat -> blocks_lower m e j = false /\ blocks_upper m e j = false.
Proof.
  unfold casadi_qp_zero_blocking. cbv zeta.
  set (body := fun (i : nat) '(ret, index, sign) => _).
  pose (Inv := fun (k : nat) (st : bool * Z * Z) =>
    let '(ret, index', sign') := st in
    if ret then
      exists i, (i < k)%nat /\ index' = Z.of_nat i /\
        (if blocks_lower m e i then sign' = (-1)%Z
         else blocks_upper m e i = true /\ sign' = 1%Z) /\
        forall j, (i < j < k)%nat -> blocks_lower m e j = false /\ blocks_upper m e j = false
    else
      index' = index /\ sign' = sign /\
      forall j, (j < k)%nat -> blocks_lower m e j = false /\ blocks_upper m e j = false).
  enough (Inv (nz m) (for_range 0 (nz m) body (false, index, sign))) as HI by exact HI.
  apply (for_range_ind Inv); subst Inv; cbv beta; [lia| |].
  - repeat split; intros; lia.
  - intros k [[ret i'] s'] Hk HI. unfold body.
    fold (blocks_lower m e k). fold (blocks_upper m e k).
    destruct (blocks_lower m e k) eqn:El; [|destruct (blocks_upper m e k) eqn:Eu].
    + exists k. split; [lia|]. split; [reflexivity|]. rewrite El. split; [reflexivity|].
      intros j Hj. lia.
    + exists k. split; [lia|]. split; [reflexivity|]. rewrite El. split; [now split|].
      intros j Hj. lia.
    + destruct ret.
      * destruct HI as (i & Hi & Ei & Hs & Hlast). exists i. split; [lia|].
        split; [assumption|]. split; [assumption|]. intros j Hj.
        destruct (decide (j = k)) as [->|Hne]; [now split | apply Hlast; lia].
      * destruct HI as (Ei & Es & Hnone). split; [assumption|]. split; [assumption|].
        intros j Hj. destruct (decide (j = k)) as [->|Hne]; [now split | apply Hnone; lia].
Qed.

End Blocking.

(** ** [casadi_qp_flip]: one change of the active set *)

Section FlipOne.
Context {T1 : Type} `{ScalarInf T1} `{!SignLaws T1} {LA : LinAlg T1}.
Implicit Type m : casadi_qp_mem T1.

(** [casadi_qp_flip_check] reports a failure only together with a negative
    [r_index]. *)
Lemma flip_check_ret m i sg ri rs e :
  (casadi_qp_flip_check m i sg ri rs e).1.1.2 = 0%Z \/
  ((casadi_qp_flip_check m i sg ri rs e).1.2 < 0)%Z.
Proof.
  unfold casadi_qp_flip_check. cbv zeta.
  cbn [dz sp_v nz_v sp_r nz_r beta prinv pc w set_dz].
  destruct (casadi_qr_solve _ _ _ _ _ _ _ _ _ _ _) as [x w'].
  destruct (_ >=? S1em12); [now left|].
  destruct (for_range _ _ _ _) as [[bs ri'] rs']. cbn [fst snd].
  destruct (Z.geb_spec ri' 0); [now left | right; lia].
Qed.

Lemma flip_changes_one_index m index sign r_index r_sign m' index' sign' :
  (0 <? dmin m) = true ->
  casadi_qp_flip m index sign r_index r_sign = Some (m', index', sign') ->
  exists j : Z, forall i : nat, Z.of_nat i <> j ->
    keeps_activity (lam m).[i] (lam m').[i].
Proof.
  intros Hd. unfold casadi_qp_flip. cbv zeta.
  destruct (if (r_index >=? 0)%Z && _ then _ else _) as [index0 sign0].
  set (sel := if (index0 =? -1)%Z && _ && _ then _ else _).
  assert (match sel with
          | Some (m1, _, _) => same_multipliers m m1
          | None => True
          end) as Hsel.
  { subst sel. destruct (_ && _ && _); [|apply same_multipliers_refl].
    destruct (_ >=? du m).
    - destruct (casadi_qp_pr_index m sign0) as [[i1 s1]|]; cbn [mbind option_bind]; [|exact I].
      apply same_multipliers_refl.
    - pose proof (casadi_qp_du_index_same m sign0) as Hdu.
      destruct (casadi_qp_du_index m sign0) as [[[m1 i1] s1]|]; [|exact I].
      now apply (Hdu m1 i1 s1). }
  destruct sel as [[[m1 index1] sign1]|]; [|discriminate]. cbn [mbind option_bind].
  destruct Hsel as (Hl1 & Hd1 & _ & _).
  destruct (Z.geb_spec index1 0) as [Hge|Hlt].
  2: { intros [= <- _ _]. exists 0%Z. intros i _. rewrite Hl1. apply keeps_activity_refl. }
  set (m2 := if (sing m1 =? 0)%Z then _ else _).
  assert (dmin m2 = dmin m /\ lam m2 = lam m) as (Hd2 & Hl2).
  { subst m2. destruct (sing m1 =? 0)%Z; [|split; assumption].
    pose proof (casadi_qp_flip_check_same m1 (Z.to_nat index1) sign1 r_index r_sign
                  (fmax (du_to_pr m * pr m) (du m))) as Hfc.
    pose proof (flip_check_ret m1 (Z.to_nat index1) sign1 r_index r_sign
                  (fmax (du_to_pr m * pr m) (du m))) as Hret.
    destruct (casadi_qp_flip_check _ _ _ _ _ _) as [[[m2 ret] ri] rs]. cbn [fst snd] in Hfc, Hret.
    destruct Hfc as (Hlf & Hdf & _ & _).
    destruct Hret as [-> | Hri]; [cbn [Z.eqb negb]; split; congruence|].
    destruct (negb _); [|split; congruence].
    destruct (Z.geb_spec ri 0) as [Hri'|_]; [lia | split; congruence]. }
  clearbody m2. intros [= <- _ _]. exists index1. intros i Hi.
  set (m3 := set_lam m2 _).
  destruct (calc_dependent_activity m3 i) as [Hkeep _].
  { subst m3. cbn [dmin set_lam]. congruence. }
  replace (lam m).[i] with (lam m3).[i]; [exact Hkeep|].
  subst m3. cbn [lam set_lam]. unfold rdT. rewrite rd_insert_ne by lia. now rewrite Hl2.
Qed.

(** In [casadi_qp_flip] the companion flip is never made: the multipliers
    of all indices but one are zero after the call exactly if they were
    zero before it. *)
Theorem flip_changes_one m index sign r_index r_sign :
  (0 <? dmin m) = true ->
  match casadi_qp_flip m index sign r_index r_sign with
  | Some (m', _, _) =>
    exists j : Z, forall i : nat, Z.of_nat i <> j ->
      keeps_activity (lam m).[i] (lam m').[i]
  | None => True
  end.
Proof.
  intros Hd.
  destruct (casadi_qp_flip m index sign r_index r_sign) as [[[m' index'] sign']|] eqn:E;
    [|exact I].
  eapply flip_changes_one_index; eassumption.
Qed.
End FlipOne.

Lemma flip_changes_one_witness :
  match casadi_qp_flip (LA := LinAlg_1x1) mem_double 0 0 (-1) 0 with
  | Some (m', _, _) =>
    exists j : Z, forall i : nat, Z.of_nat i <> j ->
      keeps_activity (rdT (lam mem_double) i) (rdT (lam m') i)
  | None => True
  end.
Proof. apply (flip_changes_one (LA := LinAlg_1x1) mem_double 0 0 (-1) 0). reflexivity. Defined.

(** ** The signs of the multipliers after a step *)

Section TakeStepSigns.
Context {T1 : Type} `{Scalar T1} `{!SignLaws T1}.
Implicit Type m : casadi_qp_mem T1.

(** The loop "Update sign": every multiplier below [nz] ends with the sign
    stored for it in [iw], or with the opposite one where [neverzero] is
    set; nothing but [lam] and [iw] is written. *)
Lemma take_step_update_signs m (s0 : nat -> Z) :
  (0 <? dmin m) = true ->
  (nz m <= length (lam m))%nat -> (nz m <= length (iw m))%nat ->
  (forall i, (i < nz m)%nat -> rd 0%Z (iw m) i = s0 i) ->
  (forall i, (i < nz m)%nat -> s0 i = 0%Z \/ s0 i = 1%Z \/ s0 i = (-1)%Z) ->
  let m' := take_step_update m in
  m' = set_iw (set_lam m (lam m')) (iw m') /\
  forall i, (i < nz m)%nat ->
    exists s', (s' = s0 i \/ (s' = (- s0 i)%Z /\ rd false (neverzero m) i = true)) /\
               has_sign (dmin m) s' (lam m').[i].
Proof.
  intros Hd Hl Hw Hs Hc. cbv zeta. unfold take_step_update.
  pose (P := fun (k : nat) (m' : casadi_qp_mem T1) =>
    m' = set_iw (set_lam m (lam m')) (iw m') /\
    length (lam m') = length (lam m) /\ length (iw m') = length (iw m) /\
    forall i,
      ((k <= i)%nat -> rd 0%Z (iw m') i = rd 0%Z (iw m) i) /\
      ((i < k)%nat ->
         exists s', (s' = s0 i \/ (s' = (- s0 i)%Z /\ rd false (neverzero m) i = true)) /\
                    has_sign (dmin m) s' (lam m').[i])).
  set (loop := for_range 0 (nz m) _ m).
  enough (P (nz m) loop) as (Hf & _ & _ & Hp)
    by (split; [exact Hf | intros i Hi; now apply Hp]).
  subst loop. apply (for_range_ind P); subst P; cbv beta; [lia| |].
  - split; [now destruct m|]. repeat split; intros; lia.
  - intros k m' Hk (Hf & Hl' & Hw' & Hp).
    destruct (Hp k) as [Hwk _]. rewrite (Hs k) in Hwk by lia. specialize (Hwk ltac:(lia)).
    assert (dmin m' = dmin m /\ neverzero m' = neverzero m) as [Hd' Hn']
      by (rewrite Hf; split; reflexivity).
    set (m1 := if rd false (neverzero m') k && _ then _ else _).
    assert (m1 = set_iw (set_lam m (lam m')) (iw m1) /\
            length (iw m1) = length (iw m) /\
            (forall i, i <> k -> rd 0%Z (iw m1) i = rd 0%Z (iw m') i) /\
            (rd 0%Z (iw m1) k = s0 k \/
             (rd 0%Z (iw m1) k = (- s0 k)%Z /\ rd false (neverzero m) k = true)))
      as (Hf1 & Hw1 & Hi1 & Hk1).
    { subst m1. rewrite Hn'. destruct (rd false (neverzero m) k) eqn:En; cbn [andb].
      - destruct (if (rd 0%Z (iw m') k <? 0)%Z then _ else _).
        + cbn [iw set_iw]. rewrite length_insert.
          split; [rewrite Hf at 1; reflexivity|]. split; [assumption|]. split.
          * intros i Hi. now rewrite rd_insert_ne by congruence.
          * right. rewrite rd_insert_eq by lia. now rewrite Hwk.
        + repeat split; try assumption. now left.
      - repeat split; try assumption. now left. }
    assert (lam m1 = lam m' /\ dmin m1 = dmin m) as [Hl1 Hd1]
      by (rewrite Hf1; split; reflexivity).
    clearbody m1.
    assert (forall s' v,
      (s' = s0 k \/ (s' = (- s0 k)%Z /\ rd false (neverzero m) k = true)) ->
      has_sign (dmin m) s' v ->
      let m2 := set_lam m1 (<[k := v]> (lam m1)) in
      m2 = set_iw (set_lam m (lam m2)) (iw m2) /\
      length (lam m2) = length (lam m) /\ length (iw m2) = length (iw m) /\
      forall i,
        ((Datatypes.S k <= i)%nat -> rd 0%Z (iw m2) i = rd 0%Z (iw m) i) /\
        ((i < Datatypes.S k)%nat ->
           exists s', (s' = s0 i \/ (s' = (- s0 i)%Z /\ rd false (neverzero m) i = true)) /\
                      has_sign (dmin m) s' (lam m2).[i])) as Hset.
    { intros s' v Hs' Hv. cbv zeta. cbn [lam iw set_lam].
      rewrite length_insert, Hl1. split; [rewrite Hf1 at 1; reflexivity|].
      split; [assumption|]. split; [assumption|]. intros i. split.
      - intros Hi. rewrite Hi1 by lia. apply Hp. lia.
      - intros Hi. unfold rdT. destruct (decide (i = k)) as [->|Hne].
        + rewrite rd_insert_eq by lia. exists s'. split; assumption.
        + rewrite rd_insert_ne by congruence. apply Hp. lia. }
    rewrite Hd1.
    destruct (Hc k) as [E|[E|E]]; [lia| | |]; rewrite E in Hk1; cbn [Z.opp] in Hk1.
    + assert (rd 0%Z (iw m1) k = 0%Z) as Ek by (destruct Hk1 as [?|[? _]]; assumption).
      rewrite Ek. apply (Hset 0%Z); [left; congruence | reflexivity].
    + destruct Hk1 as [Ek | [Ek En]]; rewrite Ek.
      * apply (Hset 1%Z); [left; congruence|].
        split; [now apply law_fmax_pos | now apply law_fmax_ge].
      * apply (Hset (-1)%Z); [right; split; [rewrite E; reflexivity | assumption]|].
        split; [now apply law_fmin_neg | now apply law_fmin_le].
    + destruct Hk1 as [Ek | [Ek En]]; rewrite Ek.
      * apply (Hset (-1)%Z); [left; congruence|].
        split; [now apply law_fmin_neg | now apply law_fmin_le].
      * apply (Hset 1%Z); [right; split; [rewrite E; reflexivity | assumption]|].
        split; [now apply law_fmax_pos | now apply law_fmax_ge].
Qed.

(** The multipliers after [casadi_qp_take_step], relative to their signs
    before it. *)
Lemma take_step_signs_kept m :
  (0 <? dmin m) = true ->
  (nz m <= length (lam m))%nat -> (nz m <= length (iw m))%nat ->
  let m' := casadi_qp_take_step m in
  (nz m' = nz m /\ dmin m' = dmin m /\ neverzero m' = neverzero m /\
   neverupper m' = neverupper m /\ neverlower m' = neverlower m /\
   z m' = casadi_axpy (nz m) (tau m) (dz m) (z m)) /\
  forall i, (i < nz m)%nat ->
    exists s', (s' = sign_of (lam m).[i] \/
                (s' = (- sign_of (lam m).[i])%Z /\ rd false (neverzero m) i = true)) /\
               has_sign (dmin m) s' (lam m').[i].
Proof.
  intros Hd Hl Hw. cbv zeta. rewrite take_step_stages. cbv zeta.
  destruct (take_step_signs_spec m) as (Hf & Hlw & Hs).
  set (m1 := take_step_signs m) in *. rewrite Hf. clearbody m1.
  cbn [nz tau dz z dlam lam set_iw set_z set_lam].
  set (m3 := set_lam _ _).
  destruct (take_step_update_signs m3 (fun i => sign_of (lam m).[i])) as [Hfr Hp].
  - exact Hd.
  - subst m3. cbn [nz lam set_lam set_z set_iw]. now rewrite length_casadi_axpy.
  - subst m3. cbn [nz iw set_lam set_z set_iw]. lia.
  - subst m3. cbn [nz iw set_lam set_z set_iw]. intros j Hj. apply Hs; lia.
  - intros j _. destruct (sign_of_cases (lam m).[j]) as [(-> & _)|[(-> & _)|(-> & _)]]; tauto.
  - cbv zeta in Hfr, Hp. split.
    + rewrite Hfr. subst m3. repeat split.
    + intros i Hi. apply (Hp i). subst m3. exact Hi.
Qed.

(** After [casadi_qp_take_step] every multiplier below [nz] is zero or at
    least [dmin] away from zero, whatever the step does to it. *)
Theorem take_step_magnitude m i :
  (0 <? dmin m) = true ->
  (nz m <= length (lam m))%nat -> (nz m <= length (iw m))%nat -> (i < nz m)%nat ->
  let l := (lam (casadi_qp_take_step m)).[i] in
  l = 0 \/ ((0 <? l) = true /\ (dmin m <=? l) = true) \/
  ((l <? 0) = true /\ (l <=? - dmin m) = true).
Proof.
  intros Hd Hl Hw Hi. cbv zeta.
  destruct (take_step_signs_kept m Hd Hl Hw) as [_ Hp]. destruct (Hp i Hi) as (s' & Hs' & Hv).
  destruct (sign_of_cases (lam m).[i]) as [(E & _)|[(E & _)|(E & _)]]; rewrite E in Hs';
    destruct Hs' as [-> | [-> _]]; simpl in Hv; tauto.
Qed.
End TakeStepSigns.

Lemma take_step_magnitude_witness :
  let l := (lam (casadi_qp_take_step mem_double)).[0%nat] in
  l = 0 \/ ((0 <? l) = true /\ (dmin mem_double <=? l) = true) \/
  ((l <? 0) = true /\ (l <=? - dmin mem_double) = true).
Proof.
  exact (take_step_magnitude mem_double 0%nat eq_refl
           (le_n 2) (le_n 2) (le_S 1 1 (le_n 1))).
Defined.

(** ** The permitted signs: initialisation *)

Section FloatInfinity.

Lemma eqb_is_infinity (a b : float) :
  PrimFloat.eqb a b = true -> is_infinity a = is_infinity b.
Proof.
  unfold is_infinity. rewrite !FloatAxioms.eqb_spec, !FloatAxioms.abs_spec.
  change (Prim2SF infinity) with (S754_infinity false).
  destruct (Prim2SF a) as [sa|sa| |sa ma ea], (Prim2SF b) as [sb|sb| |sb mb eb];
    try reflexivity; try discriminate;
    try (destruct sa; discriminate); try (destruct sa, sb; discriminate).
Qed.

End FloatInfinity.

Section InitialSigns.
Context {LA : LinAlg double} {IC : InputCheck} {WV : WorkVector}.

Lemma sign_invariant_forall m :
  sign_invariant m = true <->
  forall i, (i < nz m)%nat ->
    permitted (lam m).[i] (rd false (neverzero m) i) (rd false (neverupper m) i)
              (rd false (neverlower m) i) = true.
Proof.
  unfold sign_invariant. rewrite forallb_forall. split.
  - intros Hf i Hi. apply (Hf i). apply in_seq. lia.
  - intros Hf i Hi. apply in_seq in Hi. apply (Hf i). lia.
Qed.

Lemma flags_consistent_forall m :
  flags_consistent m = true <->
  forall i, (i < nz m)%nat -> rd false (neverzero m) i = true ->
    rd false (neverupper m) i = false /\ rd false (neverlower m) i = false.
Proof.
  unfold flags_consistent. rewrite forallb_forall. split.
  - intros Hf i Hi E. specialize (Hf i). rewrite E in Hf. cbn in Hf.
    apply andb_true_iff in Hf; [|apply in_seq; lia].
    now rewrite !negb_true_iff in Hf.
  - intros Hf i Hi. apply in_seq in Hi. specialize (Hf i ltac:(lia)).
    destruct (rd false (neverzero m) i); [|reflexivity].
    destruct (Hf eq_refl) as [-> ->]. reflexivity.
Qed.

(** One pass of the loop "Correct lam if needed, determine permitted
    signs": index [i] gets flags that are consistent and a multiplier of a
    permitted sign, the other indices are left as they are. *)
Lemma permitted_signs_ok lbz ubz z i lam n0 nu nl :
  (i < length lam)%nat -> (i < length n0)%nat -> (i < length nu)%nat -> (i < length nl)%nat ->
  match permitted_signs lbz ubz z i (lam, n0, nu, nl) with
  | inl _ => True
  | inr (lam', n0', nu', nl') =>
      (length lam' = length lam /\ length n0' = length n0 /\
       length nu' = length nu /\ length nl' = length nl) /\
      (permitted lam'.[i] (rd false n0' i) (rd false nu' i) (rd false nl' i) = true /\
       (rd false n0' i = true -> rd false nu' i = false /\ rd false nl' i = false)) /\
      forall j, j <> i ->
        lam'.[j] = lam.[j] /\ rd false n0' j = rd false n0 j /\
        rd false nu' j = rd false nu j /\ rd false nl' j = rd false nl j
  end.
Proof.
  intros Hl H0 Hu Hn. unfold permitted_signs.
  rewrite !rd_insert_eq by assumption.
  assert (forall (b0 bu bl : bool) (lam' : list double),
    length lam' = length lam ->
    permitted lam'.[i] b0 bu bl = true ->
    (b0 = true -> bu = false /\ bl = false) ->
    (forall j, j <> i -> lam'.[j] = lam.[j]) ->
    (length lam' = length lam /\ length (<[i := b0]> n0) = length n0 /\
     length (<[i := bu]> nu) = length nu /\ length (<[i := bl]> nl) = length nl) /\
    (permitted lam'.[i] (rd false (<[i := b0]> n0) i) (rd false (<[i := bu]> nu) i)
               (rd false (<[i := bl]> nl) i) = true /\
     (rd false (<[i := b0]> n0) i = true ->
      rd false (<[i := bu]> nu) i = false /\ rd false (<[i := bl]> nl) i = false)) /\
    forall j, j <> i ->
      lam'.[j] = lam.[j] /\ rd false (<[i := b0]> n0) j = rd false n0 j /\
      rd false (<[i := bu]> nu) j = rd false nu j /\
      rd false (<[i := bl]> nl) j = rd false nl j) as Hk.
  { intros b0 bu bl lam' Hlen Hp Hc Hj.
    rewrite !length_insert, !rd_insert_eq by assumption.
    split; [auto|]. split; [auto|].
    intros j Hne. rewrite !rd_insert_ne by congruence. auto. }
  assert (forall v j, j <> i -> (<[i := v]> lam).[j] = lam.[j]) as Hother.
  { intros v j Hne. unfold rdT. now rewrite rd_insert_ne by congruence. }
  assert (forall v, (<[i := v]> lam).[i] = v) as Hsame.
  { intros v. unfold rdT. now rewrite rd_insert_eq by assumption. }
  pose proof (eqb_is_infinity lbz.[i] ubz.[i]) as Hinf.
  change (PrimFloat.eqb lbz.[i] ubz.[i]) with (lbz.[i] == ubz.[i]) in Hinf.
  change is_infinity with isinf in Hinf.
  destruct (lbz.[i] == ubz.[i]) eqn:E0.
  - rewrite <- (Hinf eq_refl). destruct (isinf lbz.[i]); cbn [negb orb andb]; [exact I|].
    destruct (lam.[i] == 0) eqn:Ez.
    + apply Hk; [apply length_insert | | auto | apply Hother].
      rewrite Hsame. destruct (_ <=? _); reflexivity.
    + apply Hk; [reflexivity | | auto | reflexivity].
      unfold permitted. rewrite Ez. cbn [negb]. now rewrite !orb_true_r.
  - cbn [negb orb andb].
    assert (forall bu bl, permitted (<[i := 0]> lam).[i] false bu bl = true) as Hzero.
    { intros bu bl. rewrite Hsame. unfold permitted.
      change (0 <? 0) with false. cbn [negb orb andb]. now rewrite orb_true_r. }
    destruct (isinf ubz.[i]) eqn:Eu; cbn [andb].
    + destruct (lam.[i] >? 0) eqn:Ep.
      * apply Hk; [apply length_insert | apply Hzero | discriminate | apply Hother].
      * destruct (isinf lbz.[i]) eqn:El; cbn [andb].
        -- destruct (lam.[i] <? 0) eqn:En.
           ++ apply Hk; [apply length_insert | apply Hzero | discriminate | apply Hother].
           ++ apply Hk; [reflexivity | | discriminate | reflexivity].
              unfold permitted. rewrite Ep, En. cbn [negb]. now rewrite !orb_true_r.
        -- apply Hk; [reflexivity | | discriminate | reflexivity].
           unfold permitted. rewrite Ep. cbn [negb]. now rewrite !orb_true_r.
    + destruct (isinf lbz.[i]) eqn:El; cbn [andb].
      * destruct (lam.[i] <? 0) eqn:En.
        -- apply Hk; [apply length_insert | apply Hzero | discriminate | apply Hother].
        -- apply Hk; [reflexivity | | discriminate | reflexivity].
           unfold permitted. rewrite En. cbn [negb]. now rewrite !orb_true_r.
      * apply Hk; [reflexivity | | discriminate | reflexivity].
        unfold permitted. cbn [negb]. now rewrite !orb_true_r.
Qed.

Lemma permitted_signs_loop_ok lbz ubz z l : forall lam n0 nu nl,
  NoDup l ->
  (forall i, i ∈ l -> (i < length lam /\ i < length n0 /\ i < length nu /\ i < length nl)%nat) ->
  match permitted_signs_loop lbz ubz z l (lam, n0, nu, nl) with
  | inl _ => True
  | inr (lam', n0', nu', nl') =>
      (forall i, i ∈ l ->
         permitted lam'.[i] (rd false n0' i) (rd false nu' i) (rd false nl' i) = true /\
         (rd false n0' i = true -> rd false nu' i = false /\ rd false nl' i = false)) /\
      forall j, j ∉ l ->
        lam'.[j] = lam.[j] /\ rd false n0' j = rd false n0 j /\
        rd false nu' j = rd false nu j /\ rd false nl' j = rd false nl j
  end.
Proof.
  induction l as [|i l IH]; intros lam n0 nu nl Hnd Hlen; cbn [permitted_signs_loop].
  - split; [intros i Hi; now apply elem_of_nil in Hi | auto].
  - apply NoDup_cons in Hnd as [Hi Hnd].
    destruct (Hlen i) as (Hl & H0 & Hu & Hn); [apply elem_of_cons; now left|].
    pose proof (permitted_signs_ok lbz ubz z i lam n0 nu nl Hl H0 Hu Hn) as Hs.
    destruct (permitted_signs lbz ubz z i (lam, n0, nu, nl)) as [e|[[[lam1 n01] nu1] nl1]];
      [exact I|].
    destruct Hs as ((El & E0 & Eu & En) & Hok & Hfr).
    specialize (IH lam1 n01 nu1 nl1 Hnd).
    destruct (permitted_signs_loop lbz ubz z l (lam1, n01, nu1, nl1))
      as [e|[[[lam' n0'] nu'] nl']]; [exact I|].
    destruct IH as [Hin Hout].
    { intros k Hk. rewrite El, E0, Eu, En. apply Hlen. apply elem_of_cons; now right. }
    split.
    + intros k Hk. apply elem_of_cons in Hk as [-> | Hk]; [|now apply Hin].
      destruct (Hout i Hi) as (-> & -> & -> & ->). exact Hok.
    + intros j Hj. apply not_elem_of_cons in Hj as [Hne Hj].
      destruct (Hout j Hj) as (-> & -> & -> & ->). now apply Hfr.
Qed.

Lemma length_eval_lam S arg : length (eval_lam S arg) = (nx_ S + na_ S)%nat.
Proof.
  unfold eval_lam, at_offset.
  rewrite length_app, length_take, !length_casadi_copy, length_drop, length_casadi_copy.
  unfold zeros. rewrite length_replicate. lia.
Qed.

(** The loop of [eval] is entered with every multiplier of a sign that its
    flags permit, and with no index that has [neverzero] together with
    [neverupper] or [neverlower]. *)
Theorem eval_init_sign_invariant S arg :
  match eval_init S arg with
  | inl _ => True
  | inr s => sign_invariant (qp_m s) = true /\ flags_consistent (qp_m s) = true
  end.
Proof.
  unfold eval_init. destruct (inputs_check_ S && _); [exact I|]. cbv zeta.
  pose proof (permitted_signs_loop_ok (eval_lbz S arg) (eval_ubz S arg) (eval_z S arg)
                (seq 0 (nx_ S + na_ S)) (eval_lam S arg)
                (replicate (nx_ S + na_ S) false) (replicate (nx_ S + na_ S) false)
                (replicate (nx_ S + na_ S) false) (NoDup_seq _ _)) as Hl.
  destruct (permitted_signs_loop _ _ _ _ _) as [e|[[[lam' n0'] nu'] nl']]; [exact I|].
  destruct Hl as [Hin _].
  { intros i Hi. apply elem_of_seq in Hi.
    rewrite length_eval_lam, length_replicate. lia. }
  destruct (casadi_trans _ _ _ _ _) as [trans_a iw'].
  split.
  - apply sign_invariant_forall. cbn [qp_m nz lam neverzero neverupper neverlower].
    intros i Hi. apply Hin. apply elem_of_seq. lia.
  - apply flags_consistent_forall. cbn [qp_m nz lam neverzero neverupper neverlower].
    intros i Hi. apply Hin. apply elem_of_seq. lia.
Qed.

End InitialSigns.

(** ** The permitted signs: the sign-keeping steps *)


Section ClampTests.
Context {T1 : Type} `{ScalarInf T1} `{!SignLaws T1} {LA : LinAlg T1}.
Implicit Type m : casadi_qp_mem T1.




End ClampTests.

Section SignInvariant.
Context {LA : LinAlg double}.
Implicit Type m : casadi_qp_mem double.



End SignInvariant.



(** ** The pass that declares success *)

Section Success.
Context {LA : LinAlg double}.

(** A pass that starts with [index = -1] and without an index for
    regularity leaves the loop with the flag 0 when the dependent
    quantities show no violation ([ipr] and [idu] negative) and also when
    the last step length is not above [1e-16], whatever the violations:
    [casadi_qp_flip] then looks for no constraint to flip.  The memory at
    the [break] is the one that [casadi_qp_calc_dependent] and
    [casadi_qp_factorize] leave. *)
Theorem loop_body_success S s :
  index s = (-1)%Z -> (r_index s < 0)%Z ->
  let m := casadi_qp_calc_dependent (qp_m s) in
  (tau m >? S1em16) = false \/ ((ipr m < 0)%Z /\ (idu m < 0)%Z) ->
  loop_body S s =
  Break 0 {| qp_m := casadi_qp_factorize m; index := (-1)%Z; sign := sign s;
             r_index := r_index s; r_sign := r_sign s; iter := iter s |}.
Proof.
  intros Hi Hr. cbv zeta. unfold loop_body.
  generalize (casadi_qp_calc_dependent (qp_m s)). intros m Hc.
  unfold casadi_qp_flip. cbv zeta.
  destruct (Z.geb_spec (r_index s) 0) as [Hge|_]; [lia|]. cbn [andb]. rewrite Hi.
  assert ((tau m >? S1em16) && ((ipr m >=? 0)%Z || (idu m >=? 0)%Z) = false) as Hno.
  { destruct Hc as [-> | [Hp Hd]]; [reflexivity|].
    destruct (Z.geb_spec (ipr m) 0) as [Hge|_]; [lia|].
    destruct (Z.geb_spec (idu m) 0) as [Hge|_]; [lia|]. apply andb_false_r. }
  change ((-1 =? -1)%Z) with true. cbn [andb]. rewrite Hno. reflexivity.
Qed.

End Success.

Lemma loop_body_success_witness :
  @loop_body LinAlg_1x1 (solver_1x1 10 false) (settled mem_double) =
  Break 0 {| qp_m := casadi_qp_factorize (LA := LinAlg_1x1) (casadi_qp_calc_dependent mem_double);
             index := (-1)%Z; sign := 0%Z; r_index := (-2)%Z; r_sign := 0%Z; iter := 0%Z |}.
Proof.
  exact (@loop_body_success LinAlg_1x1 (solver_1x1 10 false) (settled mem_double)
           eq_refl eq_refl (or_introl eq_refl)).
Defined.

(** ** The read outside [lam] *)

Lemma scale_step_reads_lam_at_ipr_witness :
  casadi_qp_scale_step (LA := LinAlg_1x1) (set_ipr (set_sing mem_double 1) (-1)) = None.
Proof.
  apply (scale_step_reads_lam_at_ipr (LA := LinAlg_1x1) (set_ipr (set_sing mem_double 1) (-1)));
    [discriminate | reflexivity | reflexivity].
Defined.

Local Close Scope sc_scope.
